(** * Web scraper MCP server: adaptive retrieval and extraction pipeline

    A shallow embedding of [src/index.ts] (the tool front end and the
    [WebScraper] class), [src/rules/ruleEngine.ts] and
    [src/headers/headerManager.ts].

    - JavaScript strings are sequences of UTF-16 code units ([list N]); the
      regular expressions of [cleanText] work on code units, so this is the
      level at which the source computes.
    - Thrown values are [Error] objects, represented by their message.
    - The libraries the program calls (cheerio, the WHATWG [URL] class,
      axios, puppeteer, the file system, the clock, the formatters) are
      interfaces: type classes whose operations the code below calls where the
      source calls the library.
    - Stateful code lives in a state-and-exception monad over the server's
      fields, the external world and a trace of the external calls made.
    - Calls of [async] functions that overlap (the units of a batch) are
      promises: synchronous segments separated by [await]s, which an event
      loop resumes in any order. *)

From Stdlib Require Import NArith String Ascii.
From stdpp Require Import base tactics option list gmap fin_maps.

Local Open Scope N_scope.

(** ** JavaScript strings *)

Module JS.

Definition jschar := N.
Definition jsstring := list N.

(** Source literals are written as Rocq strings (UTF-8 bytes) and decoded to
    UTF-16 code units, as the TypeScript compiler does. *)
Fixpoint utf16_of_utf8 (bs : list N) : jsstring :=
  match bs with
  | [] => []
  | b0 :: t =>
    if b0 <? 0x80 then b0 :: utf16_of_utf8 t
    else if b0 <? 0xE0 then
      match t with
      | b1 :: t' =>
        N.lor (N.shiftl (N.land b0 0x1F) 6) (N.land b1 0x3F) :: utf16_of_utf8 t'
      | _ => []
      end
    else if b0 <? 0xF0 then
      match t with
      | b1 :: b2 :: t' =>
        N.lor (N.shiftl (N.land b0 0x0F) 12)
          (N.lor (N.shiftl (N.land b1 0x3F) 6) (N.land b2 0x3F))
        :: utf16_of_utf8 t'
      | _ => []
      end
    else
      match t with
      | b1 :: b2 :: b3 :: t' =>
        let cp :=
          N.lor (N.shiftl (N.land b0 0x07) 18)
            (N.lor (N.shiftl (N.land b1 0x3F) 12)
               (N.lor (N.shiftl (N.land b2 0x3F) 6) (N.land b3 0x3F))) in
        let v := cp - 0x10000 in
        (0xD800 + N.shiftr v 10) :: (0xDC00 + N.land v 0x3FF) :: utf16_of_utf8 t'
      | _ => []
      end
  end.

Definition utf16 (s : string) : jsstring :=
  utf16_of_utf8 (map N_of_ascii (list_ascii_of_string s)).

(** [js "..."] is the literal itself: its code units, computed where the
    literal is written. *)
Notation "'js' s" :=
  (ltac:(let v := eval vm_compute in (utf16 s%string) in exact v))
  (at level 10, s at level 9, only parsing).

Definition TAB : jschar := 9.
Definition LF : jschar := 10.
Definition SP : jschar := 32.

(** The class [\s] of a regular expression without the [u] flag, which is also
    the set [String.prototype.trim] strips: WhiteSpace and LineTerminator. *)
Definition is_space (c : jschar) : bool :=
  ((9 <=? c) && (c <=? 13))
  || (c =? 0x20) || (c =? 0xA0) || (c =? 0x1680)
  || ((0x2000 <=? c) && (c <=? 0x200A))
  || (c =? 0x2028) || (c =? 0x2029) || (c =? 0x202F) || (c =? 0x205F)
  || (c =? 0x3000) || (c =? 0xFEFF).

(** [String.prototype.trimStart] *)
Fixpoint trimStart (s : jsstring) : jsstring :=
  match s with
  | [] => []
  | c :: t => if is_space c then trimStart t else s
  end.

(** [String.prototype.trimEnd] *)
Fixpoint trimEnd (s : jsstring) : jsstring :=
  match s with
  | [] => []
  | c :: t =>
    match trimEnd t with
    | [] => if is_space c then [] else [c]
    | t' => c :: t'
    end
  end.

(** [String.prototype.trim] *)
Definition trim (s : jsstring) : jsstring := trimEnd (trimStart s).

(** The longest prefix of white space. *)
Fixpoint take_spaces (s : jsstring) : jsstring :=
  match s with
  | [] => []
  | c :: t => if is_space c then c :: take_spaces t else []
  end.

(** [s.replace(/\s+/g, " ")]: every maximal run of white space becomes one
    space. [in_run] tells that the previous code unit belonged to a run. *)
Fixpoint replace_ws_runs_from (in_run : bool) (s : jsstring) : jsstring :=
  match s with
  | [] => []
  | c :: t =>
    if is_space c
    then (if in_run then replace_ws_runs_from true t
          else SP :: replace_ws_runs_from true t)
    else c :: replace_ws_runs_from false t
  end.

Definition replace_ws_runs (s : jsstring) : jsstring :=
  replace_ws_runs_from false s.

(** Index of the last line feed of [ws], if any. *)
Fixpoint last_LF (ws : jsstring) : option nat :=
  match ws with
  | [] => None
  | c :: t =>
    match last_LF t with
    | Some n => Some (S n)
    | None => if c =? LF then Some O else None
    end
  end.

(** [s.replace(/\n\s*\n/g, "\n\n")]. A match starts at a line feed; the greedy
    [\s*] takes the whole white-space run that follows and backtracks to the
    last line feed in it. The match is replaced by two line feeds and the scan
    resumes behind it ([skip] counts the code units of the match still to be
    passed over). *)
Fixpoint replace_blank_lines_from (skip : nat) (s : jsstring) : jsstring :=
  match s with
  | [] => []
  | c :: t =>
    match skip with
    | S k => replace_blank_lines_from k t
    | O =>
      if c =? LF then
        match last_LF (take_spaces t) with
        | Some n => LF :: LF :: replace_blank_lines_from (S n) t
        | None => c :: replace_blank_lines_from O t
        end
      else c :: replace_blank_lines_from O t
    end
  end.

Definition replace_blank_lines (s : jsstring) : jsstring :=
  replace_blank_lines_from O s.

(** [String.prototype.startsWith] *)
Fixpoint startsWith (s prefix : jsstring) : bool :=
  match prefix, s with
  | [], _ => true
  | p :: prefix', c :: s' => (c =? p) && startsWith s' prefix'
  | _ :: _, [] => false
  end.

(** [String.prototype.includes] *)
Fixpoint includes (s sub : jsstring) : bool :=
  startsWith s sub ||
  match s with
  | [] => false
  | _ :: s' => includes s' sub
  end.

(** [s.split(sep)[0]] for a one-unit separator: the part before its first
    occurrence. *)
Fixpoint before_first (sep : jschar) (s : jsstring) : jsstring :=
  match s with
  | [] => []
  | c :: t => if c =? sep then [] else c :: before_first sep t
  end.

(** [[...new Set(xs)]]: the first occurrence of every element, in order. *)
Fixpoint uniq_from (seen xs : list jsstring) : list jsstring :=
  match xs with
  | [] => []
  | x :: t =>
    if bool_decide (x ∈ seen) then uniq_from seen t
    else x :: uniq_from (x :: seen) t
  end.

Definition set_spread (xs : list jsstring) : list jsstring := uniq_from [] xs.

(** A truthy string: defined and not empty. *)
Definition truthy (o : option jsstring) : option jsstring :=
  match o with
  | Some (c :: s) => Some (c :: s)
  | _ => None
  end.

(** A thrown [Error], by its message. *)
Record JsError := MkError { message : jsstring }.

Definition Result (A : Type) : Type := JsError + A.

End JS.
Export JS.


(** A statement that may throw: the rest runs on its value, an exception
    passes through. *)
Notation "'let?' x ':=' e 'in' k" :=
  (match e with inl err => inl err | inr x => k end)
  (at level 10, x name, e at level 200, k at level 200, only parsing).

(** ** External libraries *)

(** The selectors [WebScraper.extractContent] passes to cheerio. *)
Definition contentSelectors : list jsstring :=
  [js "main"; js "article"; js ".content"; js ".post-content";
   js ".entry-content"; js "#content"; js ".main-content"; js "body"].

Definition candidateNoise : jsstring :=
  js "script, style, nav, header, footer, aside, .actions, .buttons".

Definition documentNoise : jsstring :=
  js "script, style, nav, header, footer, aside".

Definition extractor_selectors : list jsstring :=
  [js "title"; js "h1"; candidateNoise; documentNoise; js "a[href]";
   js "img[src]"; js "meta"] ++ contentSelectors.

(** cheerio. A document is mutable in the source ([remove] edits the tree the
    root [$] holds); here every operation takes the current document and
    [remove] returns the edited one. A selection is the list of its elements in
    document order. A selector that does not parse makes [$(...)] and [find]
    throw; the selectors of the extractor are valid CSS. *)
Class Cheerio := {
  Dom : Type;
  Node : Type;
  load : jsstring -> Dom;
  selector_error : jsstring -> option JsError;
  query : Dom -> jsstring -> list Node;
  query_in : Dom -> list Node -> jsstring -> list Node;
  remove : Dom -> list Node -> Dom;
  text : Dom -> list Node -> jsstring;
  attr : Dom -> Node -> jsstring -> option jsstring;
  extractor_selectors_parse :
    forall s, s ∈ extractor_selectors -> selector_error s = None
}.

(** The parts of the JavaScript runtime that are tables or parsers of their
    own: Unicode lower-casing and the WHATWG URL parser. [url_resolve ref base]
    is [new URL(ref, base).href], the serialisation of the absolute URL, and
    [url_hostname u] is [new URL(u).hostname]; both throw a [TypeError] on
    input that does not parse. *)
Class Runtime := {
  toLowerCase : jsstring -> jsstring;
  url_resolve : jsstring -> jsstring -> Result jsstring;
  url_hostname : jsstring -> Result jsstring
}.

(** ** Data model *)

Abbreviation Headers := (gmap jsstring jsstring).

Inductive CustomValue :=
  | CText (s : jsstring)
  | CTexts (l : list jsstring).

Inductive MetaValue :=
  | MString (s : jsstring)
  | MCustomData (d : gmap jsstring CustomValue).

(** [obj[key] = value] on a plain object: the key [__proto__] reaches the
    setter of [Object.prototype] and creates no own property. *)
Definition obj_set {V} (key : jsstring) (value : V) (obj : gmap jsstring V)
  : gmap jsstring V :=
  if bool_decide (key = js "__proto__") then obj else <[key := value]> obj.

Module ScrapedContent.
Record t := Build {
  url : jsstring;
  title : jsstring;
  content : jsstring;
  html : jsstring;
  links : list jsstring;
  images : list jsstring;
  metadata : gmap jsstring MetaValue;
  timestamp : jsstring
}.
End ScrapedContent.

Module ScrapeOptions.
Record t := Build {
  usePuppeteer : option bool;
  headers : option Headers;
  timeout : option N;
  waitForSelector : option jsstring;
  screenshot : option bool
}.
End ScrapeOptions.

Module ExtractionRule.
Record t := Build {
  title : option jsstring;
  content : option jsstring;
  links : option jsstring;
  images : option jsstring;
  exclude : option (list jsstring);
  custom : option (list (jsstring * jsstring))
}.
End ExtractionRule.

Module RuleSet.
Record t := Build {
  name : jsstring;
  rules : ExtractionRule.t;
  description : option jsstring
}.
End RuleSet.

(** ** Text normalisation ([WebScraper.cleanText], [RuleEngine.cleanText]) *)

Definition cleanText (text : jsstring) : jsstring :=
  trim (replace_blank_lines (replace_ws_runs text)).

(** ** Content extractor and rule engine *)

Section Extraction.
Context `{Cheerio} `{Runtime}.

(** [$(selector)] *)
Definition select (d : Dom) (selector : jsstring) : Result (list Node) :=
  match selector_error selector with
  | Some err => inl err
  | None => inr (query d selector)
  end.

(** [selection.find(selector)] *)
Definition find (d : Dom) (selection : list Node) (selector : jsstring)
  : Result (list Node) :=
  match selector_error selector with
  | Some err => inl err
  | None => inr (query_in d selection selector)
  end.

(** The body of the two [each] loops over anchors and images: the attribute
    must be truthy, and a reference [new URL] rejects is skipped by the empty
    [catch]. *)
Definition resolved_ref (d : Dom) (base attribute : jsstring) (element : Node)
  : option jsstring :=
  match truthy (attr d element attribute) with
  | Some ref =>
    match url_resolve ref base with
    | inr href => Some href
    | inl _ => None
    end
  | None => None
  end.

Definition resolved_refs (d : Dom) (base attribute : jsstring)
    (elements : list Node) : list jsstring :=
  omap (resolved_ref d base attribute) elements.

(** The [for (const selector of contentSelectors)] loop. *)
Fixpoint content_loop (d : Dom) (content : jsstring) (selectors : list jsstring)
  : Result (Dom * jsstring) :=
  match selectors with
  | [] => inr (d, content)
  | selector :: rest =>
    let? element := select d selector in
    if (0 <? length element)%nat then
      let? noise := find d element candidateNoise in
      let d := remove d noise in
      let content := trim (text d element) in
      if (100 <? length content)%nat then inr (d, content)
      else content_loop d content rest
    else content_loop d content rest
  end.

(** The [$("meta").each] loop. *)
Definition meta_step (d : Dom) (metadata : gmap jsstring MetaValue)
    (element : Node) : gmap jsstring MetaValue :=
  let name :=
    match truthy (attr d element (js "name")) with
    | Some n => Some n
    | None => truthy (attr d element (js "property"))
    end in
  match name, truthy (attr d element (js "content")) with
  | Some name, Some metaContent => obj_set name (MString metaContent) metadata
  | _, _ => metadata
  end.

(** [WebScraper.extractContent]; [now] is [new Date().toISOString()]. *)
Definition extractContent (d : Dom) (url html now : jsstring)
  : Result ScrapedContent.t :=
  let? titles := select d (js "title") in
  let? title :=
    match trim (text d titles) with
    | c :: s => inr (c :: s)
    | [] =>
      let? h1 := select d (js "h1") in
      match trim (text d (take 1 h1)) with
      | c :: s => inr (c :: s)
      | [] => inr (js "无标题")
      end
    end in
  let? looped := content_loop d [] contentSelectors in
  let? fallback :=
    match looped with
    | (d, []) =>
      let? noise := select d documentNoise in
      let d := remove d noise in
      let? body := select d (js "body") in
      inr (d, trim (text d body))
    | (d, content) => inr (d, content)
    end in
  let '(d, content) := fallback in
  let? anchors := select d (js "a[href]") in
  let links := resolved_refs d url (js "href") anchors in
  let? imgs := select d (js "img[src]") in
  let images := resolved_refs d url (js "src") imgs in
  let? metas := select d (js "meta") in
  let metadata := foldl (meta_step d) ∅ metas in
  inr {| ScrapedContent.url := url;
         ScrapedContent.title := title;
         ScrapedContent.content := cleanText content;
         ScrapedContent.html := html;
         ScrapedContent.links := set_spread links;
         ScrapedContent.images := set_spread images;
         ScrapedContent.metadata := metadata;
         ScrapedContent.timestamp := now |}.

(** *** Rule engine *)

(** [rules.exclude.forEach(selector => $(selector).remove())] *)
Fixpoint apply_excludes (d : Dom) (exclude : list jsstring) : Result Dom :=
  match exclude with
  | [] => inr d
  | selector :: rest =>
    let? matched := select d selector in
    apply_excludes (remove d matched) rest
  end.

(** [Array.prototype.join] *)
Fixpoint join (sep : jsstring) (parts : list jsstring) : jsstring :=
  match parts with
  | [] => []
  | [p] => p
  | p :: rest => p ++ sep ++ join sep rest
  end.

(** [Object.entries(rules.custom).forEach(...)] *)
Fixpoint custom_fields (d : Dom) (customData : gmap jsstring CustomValue)
    (entries : list (jsstring * jsstring))
  : Result (gmap jsstring CustomValue) :=
  match entries with
  | [] => inr customData
  | (key, selector) :: rest =>
    let? elements := select d selector in
    match elements with
    | [] => custom_fields d customData rest
    | [_] =>
      custom_fields d (obj_set key (CText (trim (text d elements))) customData)
        rest
    | _ =>
      custom_fields d
        (obj_set key (CTexts (map (fun el => trim (text d [el])) elements))
           customData)
        rest
    end
  end.

Definition unknown_rule_set (ruleSetName : jsstring) : JsError :=
  MkError (js "规则集 " ++ [34] ++ ruleSetName ++ [34] ++ js " 不存在").

(** The document [applyRules] reads: the stored markup parsed again, with the
    excluded elements removed. *)
Definition rule_document (rules : ExtractionRule.t) (html : jsstring)
  : Result Dom :=
  match ExtractionRule.exclude rules with
  | Some (selector :: rest) => apply_excludes (load html) (selector :: rest)
  | _ => inr (load html)
  end.

(** Step 2 of [applyRules]: the title. *)
Definition rule_title (d : Dom) (rules : ExtractionRule.t)
    (content : ScrapedContent.t) : Result jsstring :=
  match truthy (ExtractionRule.title rules) with
  | Some selector =>
    let? matched := select d selector in
    match take 1 matched with
    | [] => inr (ScrapedContent.title content)
    | titleElement => inr (trim (text d titleElement))
    end
  | None => inr (ScrapedContent.title content)
  end.

(** Step 3: the main text, before [cleanText]. *)
Definition rule_content (d : Dom) (rules : ExtractionRule.t)
    (content : ScrapedContent.t) : Result jsstring :=
  match truthy (ExtractionRule.content rules) with
  | Some selector =>
    let? contentElements := select d selector in
    match contentElements with
    | [] => inr (ScrapedContent.content content)
    | _ => inr (join [LF; LF] (map (fun el => text d [el]) contentElements))
    end
  | None => inr (ScrapedContent.content content)
  end.

(** Steps 4 and 5: links ([href]) and images ([src]), before the
    deduplication. [current] is the list of the input record. *)
Definition rule_refs (d : Dom) (rule : option jsstring)
    (attribute base : jsstring) (current : list jsstring)
  : Result (list jsstring) :=
  match truthy rule with
  | Some selector =>
    let? matched := select d selector in
    inr (resolved_refs d base attribute matched)
  | None => inr current
  end.

(** Step 6: the custom fields. *)
Definition rule_custom (d : Dom) (rules : ExtractionRule.t)
  : Result (gmap jsstring CustomValue) :=
  match ExtractionRule.custom rules with
  | Some entries => custom_fields d ∅ entries
  | None => inr ∅
  end.

(** [RuleEngine.applyRules] *)
Definition applyRules (ruleSets : gmap jsstring RuleSet.t)
    (ruleSetName : jsstring) (content : ScrapedContent.t)
  : Result ScrapedContent.t :=
  match ruleSets !! ruleSetName with
  | None => inl (unknown_rule_set ruleSetName)
  | Some ruleSet =>
    let rules := RuleSet.rules ruleSet in
    let? d := rule_document rules (ScrapedContent.html content) in
    let? title := rule_title d rules content in
    let? extractedContent := rule_content d rules content in
    let? links :=
      rule_refs d (ExtractionRule.links rules) (js "href")
        (ScrapedContent.url content) (ScrapedContent.links content) in
    let? images :=
      rule_refs d (ExtractionRule.images rules) (js "src")
        (ScrapedContent.url content) (ScrapedContent.images content) in
    let? customData := rule_custom d rules in
    inr {| ScrapedContent.url := ScrapedContent.url content;
           ScrapedContent.title := title;
           ScrapedContent.content := cleanText extractedContent;
           ScrapedContent.html := ScrapedContent.html content;
           ScrapedContent.links := set_spread links;
           ScrapedContent.images := set_spread images;
           ScrapedContent.metadata :=
             <[js "appliedRuleSet" := MString ruleSetName]>
               (<[js "customData" := MCustomData customData]>
                  (ScrapedContent.metadata content));
           ScrapedContent.timestamp := ScrapedContent.timestamp content |}
  end.

(** [RuleEngine.createRuleSet] *)
Definition createRuleSet (name : jsstring) (rules : ExtractionRule.t)
    (description : option jsstring) (ruleSets : gmap jsstring RuleSet.t)
  : gmap jsstring RuleSet.t :=
  <[name := {| RuleSet.name := name; RuleSet.rules := rules;
               RuleSet.description := description |}]> ruleSets.

(** ** Header manager *)

(** [s.replace(/^https?:\/\//, '')] *)
Definition strip_scheme (s : jsstring) : jsstring :=
  if startsWith s (js "https://") then drop 8 s
  else if startsWith s (js "http://") then drop 7 s
  else s.

(** [HeaderManager.normalizeDomain] *)
Definition normalizeDomain (domain : jsstring) : jsstring :=
  toLowerCase (before_first 58 (before_first 47 (strip_scheme domain))).

(** [{ ...existingHeaders, ...headers }]: the keys of both, the right operand
    winning. *)
Definition spread2 (existingHeaders headers : Headers) : Headers :=
  headers ∪ existingHeaders.

(** [HeaderManager.setHeaders] *)
Definition setHeaders (domain : jsstring) (headers : Headers)
    (domainHeaders : gmap jsstring Headers) : gmap jsstring Headers :=
  let normalizedDomain := normalizeDomain domain in
  let existingHeaders := default ∅ (domainHeaders !! normalizedDomain) in
  let mergedHeaders := spread2 existingHeaders headers in
  <[normalizedDomain := mergedHeaders]> domainHeaders.

(** [HeaderManager.getHeaders] *)
Definition getHeaders (domain : jsstring)
    (domainHeaders : gmap jsstring Headers) : Headers :=
  let normalizedDomain := normalizeDomain domain in
  default ∅ (domainHeaders !! normalizedDomain).

End Extraction.

(** ** The world outside the process *)

Module LaunchOptions.
Record t := Build {
  executablePath : option jsstring;
  args : list jsstring
}.
End LaunchOptions.

(** The calls [scrapeWithPuppeteer] makes on its page before reading it. *)
Inductive PageCmd :=
  | SetViewport (width height : N)
  | SetExtraHTTPHeaders (headers : Headers)
  | SetUserAgent (userAgent : jsstring)
  | Goto (url : jsstring) (timeout : N)
  | WaitForSelector (selector : jsstring) (timeout : N)
  | Screenshot.

(** axios, puppeteer, the file system and the clock. Every call takes the
    state of the world and returns the next one; a call that can reject
    returns a [Result]. [axios_get] answers with the response body after the
    coercion to a string that [scrapeWithAxios] applies, and rejects on a
    network error, a timeout or a status outside 2xx. *)
Class World := {
  W : Type;
  Browser : Type;
  Page : Type;
  axios_get : jsstring -> Headers -> N -> W -> Result jsstring * W;
  clock_iso : W -> jsstring * W;
  delay : N -> W -> W;
  platform_win32 : bool;
  env_LOCALAPPDATA : jsstring;
  fs_existsSync : jsstring -> W -> bool;
  puppeteer_launch : LaunchOptions.t -> W -> Result Browser * W;
  browser_spawnfile : Browser -> option jsstring;
  browser_newPage : Browser -> W -> Result Page * W;
  browser_close : Browser -> W -> Result unit * W;
  page_do : Page -> PageCmd -> W -> Result unit * W;
  page_content : Page -> W -> Result jsstring * W;
  page_close : Page -> W -> Result unit * W
}.

(** The stringifiers of [ExportManager], one per format. *)
Class Formatters := {
  exportToMarkdown : ScrapedContent.t -> Result jsstring;
  exportToText : ScrapedContent.t -> Result jsstring;
  exportToHtml : ScrapedContent.t -> Result jsstring;
  exportToJson : ScrapedContent.t -> Result jsstring
}.

(** Arguments and results of the tool handlers. *)

Module ScrapeUrlArgs.
Record t := Build {
  url : jsstring;
  format : option jsstring;
  usePuppeteer : option bool;
  ruleSet : option jsstring;
  customHeaders : option Headers
}.
End ScrapeUrlArgs.

Module BatchScrapeArgs.
Record t := Build {
  urls : list jsstring;
  format : option jsstring;
  usePuppeteer : option bool;
  ruleSet : option jsstring
}.
End BatchScrapeArgs.

(** An element of the array [handleBatchScrape] serialises. *)
Module BatchEntry.
Record t := Build {
  url : option jsstring;
  success : bool;
  content : option jsstring;
  error : option jsstring
}.
End BatchEntry.

(** The outcome [Promise.allSettled] reports for one promise. *)
Inductive Settled (A : Type) :=
  | Fulfilled (value : A)
  | Rejected (reason : JsError).
Arguments Fulfilled {A} value.
Arguments Rejected {A} reason.

(** ** The server *)

Section Server.
Context `{Cheerio} `{Runtime} `{World} `{Formatters}.

(** What the process did to the outside, in order. A launch or a new page is
    recorded when the call has returned its handle, a close when it is
    called; the headers set on a page are recorded with the address the page
    is about to load. *)
Inductive Event :=
  | EvHttpGet (url : jsstring) (headers : Headers)
  | EvConsoleError (text : jsstring)
  | EvTempBrowser (b : Browser)
  | EvTempBrowserClose (b : Browser)
  | EvSessionLaunch (b : Browser)
  | EvSessionClose (b : Browser)
  | EvNewPage (b : Browser) (p : Page)
  | EvPageHeaders (p : Page) (url : jsstring) (headers : Headers)
  | EvPageClose (p : Page).

(** The fields of the process: [BrowserManager.executablePath] (static),
    [WebScraper.browser], [HeaderManager.domainHeaders],
    [RuleEngine.ruleSets]; the local variables [tempBrowser] and [page] that a
    [finally] block reads (one slot each: a call runs to its end before the
    next starts); the world and the trace. *)
Record Sys := MkSys {
  world : W;
  trace : list Event;
  executablePath : option jsstring;
  browser : option Browser;
  domainHeaders : gmap jsstring Headers;
  ruleSets : gmap jsstring RuleSet.t;
  tempBrowser : option Browser;
  page : option Page
}.

Definition with_world (w : W) (s : Sys) : Sys :=
  MkSys w (trace s) (executablePath s) (browser s) (domainHeaders s)
    (ruleSets s) (tempBrowser s) (page s).
Definition with_trace (t : list Event) (s : Sys) : Sys :=
  MkSys (world s) t (executablePath s) (browser s) (domainHeaders s)
    (ruleSets s) (tempBrowser s) (page s).
Definition with_executablePath (p : option jsstring) (s : Sys) : Sys :=
  MkSys (world s) (trace s) p (browser s) (domainHeaders s)
    (ruleSets s) (tempBrowser s) (page s).
Definition with_browser (b : option Browser) (s : Sys) : Sys :=
  MkSys (world s) (trace s) (executablePath s) b (domainHeaders s)
    (ruleSets s) (tempBrowser s) (page s).
Definition with_domainHeaders (h : gmap jsstring Headers) (s : Sys) : Sys :=
  MkSys (world s) (trace s) (executablePath s) (browser s) h
    (ruleSets s) (tempBrowser s) (page s).
Definition with_ruleSets (r : gmap jsstring RuleSet.t) (s : Sys) : Sys :=
  MkSys (world s) (trace s) (executablePath s) (browser s) (domainHeaders s)
    r (tempBrowser s) (page s).
Definition with_tempBrowser (b : option Browser) (s : Sys) : Sys :=
  MkSys (world s) (trace s) (executablePath s) (browser s) (domainHeaders s)
    (ruleSets s) b (page s).
Definition with_page (p : option Page) (s : Sys) : Sys :=
  MkSys (world s) (trace s) (executablePath s) (browser s) (domainHeaders s)
    (ruleSets s) (tempBrowser s) p.

(** *** State and exceptions *)

Definition M (A : Type) : Type := Sys -> Result A * Sys.

Definition ret {A} (a : A) : M A := fun s => (inr a, s).
Definition throw {A} (err : JsError) : M A := fun s => (inl err, s).
Definition lift {A} (r : Result A) : M A := fun s => (r, s).
Definition bind {A B} (m : M A) (k : A -> M B) : M B :=
  fun s =>
    match m s with
    | (inr a, s') => k a s'
    | (inl err, s') => (inl err, s')
    end.

Notation "'let*' x ':=' m 'in' k" := (bind m (fun x => k))
  (at level 10, x name, m at level 200, k at level 200, only parsing).
Notation "m1 ';;' m2" := (bind m1 (fun _ => m2))
  (at level 100, m2 at level 200, right associativity, only parsing).

(** [try { body } catch (error) { handler(error) }] *)
Definition try_catch {A} (body : M A) (handler : JsError -> M A) : M A :=
  fun s =>
    match body s with
    | (inl err, s') => handler err s'
    | (inr a, s') => (inr a, s')
    end.

(** [try { body } finally { cleanup }]: the cleanup runs on both exits; if it
    throws, its exception replaces the outcome of the body. *)
Definition finally {A} (body : M A) (cleanup : M unit) : M A :=
  fun s =>
    match body s with
    | (outcome, s') =>
      match cleanup s' with
      | (inr _, s'') => (outcome, s'')
      | (inl err, s'') => (inl err, s'')
      end
    end.

Definition gets {A} (f : Sys -> A) : M A := fun s => (inr (f s), s).
Definition modify (f : Sys -> Sys) : M unit := fun s => (inr tt, f s).
Definition emit (e : Event) : M unit :=
  modify (fun s => with_trace (trace s ++ [e]) s).

(** A call that may reject. *)
Definition external {A} (call : W -> Result A * W) : M A :=
  fun s => let '(r, w) := call (world s) in (r, with_world w s).

Definition when (b : bool) (m : M unit) : M unit := if b then m else ret tt.

(** *** BrowserManager *)

Definition defaultChromePaths : list jsstring :=
  if platform_win32 then
    [js "C:\Program Files\Google\Chrome\Application\chrome.exe";
     js "C:\Program Files (x86)\Google\Chrome\Application\chrome.exe";
     env_LOCALAPPDATA ++ js "\Google\Chrome\Application\chrome.exe"]
  else [js "/usr/bin/google-chrome"; js "/usr/bin/google-chrome-stable"].

(** [for (const path of defaultChromePaths) if (fs.existsSync(path)) ...] *)
Fixpoint first_existing (w : W) (paths : list jsstring) : option jsstring :=
  match paths with
  | [] => None
  | path :: rest =>
    if fs_existsSync path w then Some path else first_existing w rest
  end.

(** [BrowserManager.ensureBrowserIsReady] *)
Definition ensureBrowserIsReady : M jsstring :=
  let* cached := gets executablePath in
  match truthy cached with
  | Some path => ret path
  | None =>
    let* w := gets world in
    match first_existing w defaultChromePaths with
    | Some path =>
      modify (with_executablePath (Some path)) ;;
      ret path
    | None =>
      modify (with_tempBrowser None) ;;
      finally
        (try_catch
           (let* b :=
              external (puppeteer_launch (LaunchOptions.Build None [])) in
            modify (with_tempBrowser (Some b)) ;;
            emit (EvTempBrowser b) ;;
            let* w := gets world in
            match truthy (browser_spawnfile b) with
            | Some execPath =>
              if fs_existsSync execPath w then
                modify (with_executablePath (Some execPath)) ;;
                ret execPath
              else
                throw (MkError (js "Puppeteer启动后未能提供有效的浏览器路径。"))
            | None =>
              throw (MkError (js "Puppeteer启动后未能提供有效的浏览器路径。"))
            end)
           (fun error =>
              throw (MkError (js "[浏览器管理器] 浏览器初始化失败: "
                              ++ message error))))
        (let* temp := gets tempBrowser in
         match temp with
         | Some b => emit (EvTempBrowserClose b) ;; external (browser_close b)
         | None => ret tt
         end)
    end
  end.

(** *** WebScraper *)

Definition axiosUserAgent : jsstring :=
  js "Mozilla/5.0 (Windows NT 10.0; Win64; x64) AppleWebKit/537.36 (KHTML, like Gecko) Chrome/91.0.4472.124 Safari/537.36".

Definition puppeteerUserAgent : jsstring :=
  js "Mozilla/5.0 (Windows NT 10.0; Win64; x64) AppleWebKit/537.36 (KHTML, like Gecko) Chrome/108.0.0.0 Safari/537.36".

Definition sessionArgs : list jsstring :=
  [js "--no-sandbox"; js "--disable-setuid-sandbox";
   js "--disable-dev-shm-usage"; js "--disable-gpu"].

(** [new Date().toISOString()] *)
Definition clock : M jsstring :=
  external (fun w => let '(t, w') := clock_iso w in (inr t, w')).

(** [WebScraper.scrapeWithAxios] *)
Definition scrapeWithAxios (url : jsstring) (options : ScrapeOptions.t)
  : M ScrapedContent.t :=
  let headers := default ∅ (ScrapeOptions.headers options) in
  let timeout := default 15000 (ScrapeOptions.timeout options) in
  try_catch
    (let sent := spread2 {[js "User-Agent" := axiosUserAgent]} headers in
     emit (EvHttpGet url sent) ;;
     let* htmlContent := external (axios_get url sent timeout) in
     let* now := clock in
     lift (extractContent (load htmlContent) url htmlContent now))
    (fun error => throw (MkError (js "Axios爬取失败: " ++ message error))).

(** The body of [if (!this.browser) { ... }] in [scrapeWithPuppeteer]: find
    the executable, launch, store the handle. *)
Definition launch_session : M unit :=
  let* executablePath := ensureBrowserIsReady in
  let* b :=
    external (puppeteer_launch
                (LaunchOptions.Build (Some executablePath) sessionArgs)) in
  modify (with_browser (Some b)) ;;
  emit (EvSessionLaunch b).

(** The [if (!this.browser) { ... }] block. *)
Definition ensure_session : M unit :=
  let* shared := gets browser in
  match shared with
  | Some _ => ret tt
  | None => launch_session
  end.

(** [page = await this.browser!.newPage()] *)
Definition open_page : M Page :=
  let* shared := gets browser in
  let* p :=
    match shared with
    | Some b =>
      let* p := external (browser_newPage b) in
      emit (EvNewPage b p) ;; ret p
    | None =>
      throw (MkError (js "Cannot read properties of null (reading 'newPage')"))
    end in
  modify (with_page (Some p)) ;;
  ret p.

(** The rest of the [try] block, from [page.setViewport] to the [return]. *)
Definition drive_page (p : Page) (url : jsstring) (options : ScrapeOptions.t)
  : M ScrapedContent.t :=
  let headers := default ∅ (ScrapeOptions.headers options) in
  let timeout := default 60000 (ScrapeOptions.timeout options) in
  let waitForSelector := ScrapeOptions.waitForSelector options in
  let screenshot := default false (ScrapeOptions.screenshot options) in
  external (page_do p (SetViewport 1280 800)) ;;
  when (0 <? size headers)%nat
    (emit (EvPageHeaders p url headers) ;;
     external (page_do p (SetExtraHTTPHeaders headers))) ;;
  external (page_do p (SetUserAgent puppeteerUserAgent)) ;;
  external (page_do p (Goto url timeout)) ;;
  match truthy waitForSelector with
  | Some selector => external (page_do p (WaitForSelector selector 15000))
  | None => modify (fun s => with_world (delay 3000 (world s)) s)
  end ;;
  let* html := external (page_content p) in
  when screenshot (external (page_do p Screenshot)) ;;
  let* now := clock in
  lift (extractContent (load html) url html now).

(** [finally { if (page) await page.close(); }] *)
Definition close_page : M unit :=
  let* p := gets page in
  match p with
  | Some p => emit (EvPageClose p) ;; external (page_close p)
  | None => ret tt
  end.

(** [WebScraper.scrapeWithPuppeteer] *)
Definition scrapeWithPuppeteer (url : jsstring) (options : ScrapeOptions.t)
  : M ScrapedContent.t :=
  modify (with_page None) ;;
  finally
    (try_catch
       (ensure_session ;;
        let* p := open_page in
        drive_page p url options)
       (fun error =>
          throw (MkError (js "Puppeteer爬取失败: " ++ message error))))
    close_page.

Definition jsRequiredKeywords : list jsstring :=
  [js "您需要允许该网站执行 JavaScript";
   js "enable JavaScript";
   js "requires JavaScript";
   js "not support a browser that has JavaScript disabled";
   js "Please enable JavaScript"].

Definition contentIsJSReliant (staticContent : ScrapedContent.t) : bool :=
  existsb
    (fun keyword =>
       includes (toLowerCase (ScrapedContent.html staticContent))
         (toLowerCase keyword))
    jsRequiredKeywords.

(** The text [scrape] writes with [console.error] when the static fetch has
    failed. *)
Definition static_failure_log (error : JsError) : jsstring :=
  js "静态爬取失败: " ++ message error ++ js "。自动尝试使用 Puppeteer...".

(** [WebScraper.scrape]. The [try] block awaits only the static fetch: the
    promise of [scrapeWithPuppeteer] is returned from inside it without
    [await], so its rejection does not reach the [catch]. *)
Definition scrape (url : jsstring) (options : ScrapeOptions.t)
  : M ScrapedContent.t :=
  let usePuppeteer := default false (ScrapeOptions.usePuppeteer options) in
  if startsWith url (js "data:") then scrapeWithPuppeteer url options
  else if usePuppeteer then scrapeWithPuppeteer url options
  else
    let* attempt :=
      try_catch
        (let* staticContent := scrapeWithAxios url options in
         ret (inr staticContent))
        (fun error => ret (inl error)) in
    match attempt with
    | inr staticContent =>
      if contentIsJSReliant staticContent
      then scrapeWithPuppeteer url options
      else ret staticContent
    | inl error =>
      emit (EvConsoleError (static_failure_log error)) ;;
      scrapeWithPuppeteer url options
    end.

(** [WebScraper.close] *)
Definition close : M unit :=
  let* shared := gets browser in
  match shared with
  | Some b =>
    emit (EvSessionClose b) ;;
    external (browser_close b) ;;
    modify (with_browser None)
  | None => ret tt
  end.

(** *** ExportManager *)

(** [ExportManager.export] *)
Definition export (content : ScrapedContent.t) (format : jsstring)
  : M jsstring :=
  if bool_decide (format = js "markdown") then lift (exportToMarkdown content)
  else if bool_decide (format = js "text") then lift (exportToText content)
  else if bool_decide (format = js "html") then lift (exportToHtml content)
  else if bool_decide (format = js "json") then lift (exportToJson content)
  else throw (MkError (js "不支持的导出格式: " ++ format)).

(** *** Tool handlers of WebScraperMCPServer *)

Definition scrape_options (usePuppeteer : bool) (headers : Headers)
  : ScrapeOptions.t :=
  ScrapeOptions.Build (Some usePuppeteer) (Some headers) None None None.

(** [if (ruleSet) processedContent = await this.ruleEngine.applyRules(...)] *)
Definition process_rules (ruleSet : option jsstring)
    (content : ScrapedContent.t) : M ScrapedContent.t :=
  match truthy ruleSet with
  | Some name =>
    let* registry := gets ruleSets in
    lift (applyRules registry name content)
  | None => ret content
  end.

(** [WebScraperMCPServer.handleScrapeUrl]; the result is the [text] of the
    response. *)
Definition handleScrapeUrl (args : ScrapeUrlArgs.t) : M jsstring :=
  let url := ScrapeUrlArgs.url args in
  let format := default (js "markdown") (ScrapeUrlArgs.format args) in
  let usePuppeteer := default false (ScrapeUrlArgs.usePuppeteer args) in
  let isDataUrl := startsWith url (js "data:") in
  let* requestHeaders :=
    if negb isDataUrl then
      let* hostname := lift (url_hostname url) in
      match ScrapeUrlArgs.customHeaders args with
      | Some customHeaders =>
        modify (fun s =>
                  with_domainHeaders
                    (setHeaders hostname customHeaders (domainHeaders s)) s)
      | None => ret tt
      end ;;
      gets (fun s => getHeaders hostname (domainHeaders s))
    else ret ∅ in
  let* content := scrape url (scrape_options usePuppeteer requestHeaders) in
  let* processedContent := process_rules (ScrapeUrlArgs.ruleSet args) content in
  export processedContent format.

(** [WebScraperMCPServer.handleSetDomainHeaders] *)
Definition handleSetDomainHeaders (domain : jsstring) (headers : Headers)
  : M unit :=
  modify (fun s =>
            with_domainHeaders (setHeaders domain headers (domainHeaders s)) s).

(** [WebScraperMCPServer.handleCreateRuleSet] *)
Definition handleCreateRuleSet (name : jsstring) (rules : ExtractionRule.t)
  : M unit :=
  modify (fun s => with_ruleSets (createRuleSet name rules None (ruleSets s)) s).

(** The [try] block of a unit of [handleBatchScrape], up to its [return],
    run from its start to its end. *)
Definition batch_pipeline (format : jsstring) (usePuppeteer : bool)
    (ruleSet : option jsstring) (url : jsstring) : M jsstring :=
  let isDataUrl := startsWith url (js "data:") in
  let* headers :=
    if isDataUrl then ret ∅
    else
      let* hostname := lift (url_hostname url) in
      gets (fun s => getHeaders hostname (domainHeaders s)) in
  let* content := scrape url (scrape_options usePuppeteer headers) in
  let* processedContent := process_rules ruleSet content in
  export processedContent format.

(** [String(reason)] for an [Error] *)
Definition error_to_string (reason : JsError) : jsstring :=
  js "Error: " ++ message reason.

End Server.

(** ** Calls that overlap

    The functions above describe a call that runs from its start to its end
    with nothing in between. The units of a batch do not run that way: an
    [async] function runs at once up to its first [await], is suspended
    there, and runs from each [await] to the next when the event loop
    resumes it, while the other calls take their turns.

    A [Promise] is what is left of a call of an [async] function: settled
    with an outcome, about to run a synchronous segment (a computation of
    [M], whose outcome the rest of the call receives), or suspended at an
    [await]. The functions of [Async] are the [async] functions of the
    source written with their [await]s: the same statements as above, in the
    same order, [sync] around what runs without interruption, [await] where
    the source awaits an operation of the outside, [awaited] where it awaits
    an [async] function of its own. Run alone, each is the function of the
    same name above ([scrape_alone], [batch_pipeline_alone]). *)

Module Async.
Section Promises.
Context `{Cheerio} `{Runtime} `{World} `{Formatters}.

Inductive Promise (A : Type) : Type :=
  | Return (outcome : Result A)
  | Run {X : Type} (segment : M X) (rest : Result X -> Promise A)
  | Suspend (rest : Promise A).
Arguments Return {A} outcome.
Arguments Run {A X} segment rest.
Arguments Suspend {A} rest.

Definition pure {A} (a : A) : Promise A := Return (inr a).
Definition raise {A} (err : JsError) : Promise A := Return (inl err).

(** What follows a call once it has settled. *)
Fixpoint settle {A B} (t : Promise A) (k : Result A -> Promise B)
  : Promise B :=
  match t with
  | Return outcome => k outcome
  | Run segment rest => Run segment (fun r => settle (rest r) k)
  | Suspend rest => Suspend (settle rest k)
  end.

Definition andThen {A B} (t : Promise A) (k : A -> Promise B) : Promise B :=
  settle t (fun outcome =>
              match outcome with
              | inr a => k a
              | inl err => Return (inl err)
              end).

(** [try { body } catch (error) { handler(error) }] *)
Definition catch {A} (body : Promise A) (handler : JsError -> Promise A)
  : Promise A :=
  settle body (fun outcome =>
                 match outcome with
                 | inl err => handler err
                 | inr a => Return (inr a)
                 end).

(** [try { body } finally { cleanup }] *)
Definition ensuring {A} (body : Promise A) (cleanup : Promise unit)
  : Promise A :=
  settle body (fun outcome =>
                 settle cleanup (fun cleaned =>
                                   match cleaned with
                                   | inr _ => Return outcome
                                   | inl err => Return (inl err)
                                   end)).

(** Statements that run without an [await]. *)
Definition sync {A} (segment : M A) : Promise A := Run segment Return.

(** [await operation(...)] for an operation of the outside: the call is
    suspended, the operation takes effect at some turn of the event loop, and
    the call is resumed with its outcome at a later one. *)
Definition await {A} (operation : M A) : Promise A :=
  Suspend (Run operation (fun outcome => Suspend (Return outcome))).

(** [await f(...)] for an [async] function of the program: [f] starts at
    once and runs to its own first [await]; when it has settled, the caller
    is resumed at a later turn. *)
Definition awaited {A} (call : Promise A) : Promise A :=
  settle call (fun outcome => Suspend (Return outcome)).

Definition whenever (b : bool) (t : Promise unit) : Promise unit :=
  if b then t else pure tt.

Notation "'let*' x ':=' t 'in' k" := (andThen t (fun x => k))
  (at level 10, x name, t at level 200, k at level 200, only parsing).
Notation "t1 ';;' t2" := (andThen t1 (fun _ => t2))
  (at level 100, t2 at level 200, right associativity, only parsing).

(** [BrowserManager.ensureBrowserIsReady] *)
Definition ensureBrowserIsReady : Promise jsstring :=
  let* cached := sync (gets executablePath) in
  match truthy cached with
  | Some path => pure path
  | None =>
    let* w := sync (gets world) in
    match first_existing w defaultChromePaths with
    | Some path =>
      sync (modify (with_executablePath (Some path))) ;;
      pure path
    | None =>
      sync (modify (with_tempBrowser None)) ;;
      ensuring
        (catch
           (let* b :=
              await (external (puppeteer_launch
                                 (LaunchOptions.Build None []))) in
            sync (modify (with_tempBrowser (Some b))) ;;
            sync (emit (EvTempBrowser b)) ;;
            let* w := sync (gets world) in
            match truthy (browser_spawnfile b) with
            | Some execPath =>
              if fs_existsSync execPath w then
                sync (modify (with_executablePath (Some execPath))) ;;
                pure execPath
              else
                raise (MkError (js "Puppeteer启动后未能提供有效的浏览器路径。"))
            | None =>
              raise (MkError (js "Puppeteer启动后未能提供有效的浏览器路径。"))
            end)
           (fun error =>
              raise (MkError (js "[浏览器管理器] 浏览器初始化失败: "
                              ++ message error))))
        (let* temp := sync (gets tempBrowser) in
         match temp with
         | Some b =>
           sync (emit (EvTempBrowserClose b)) ;;
           await (external (browser_close b))
         | None => pure tt
         end)
    end
  end.

(** [WebScraper.scrapeWithAxios] *)
Definition scrapeWithAxios (url : jsstring) (options : ScrapeOptions.t)
  : Promise ScrapedContent.t :=
  let headers := default ∅ (ScrapeOptions.headers options) in
  let timeout := default 15000 (ScrapeOptions.timeout options) in
  catch
    (let sent := spread2 {[js "User-Agent" := axiosUserAgent]} headers in
     sync (emit (EvHttpGet url sent)) ;;
     let* htmlContent := await (external (axios_get url sent timeout)) in
     let* now := sync clock in
     sync (lift (extractContent (load htmlContent) url htmlContent now)))
    (fun error => raise (MkError (js "Axios爬取失败: " ++ message error))).

(** The body of [if (!this.browser) { ... }]. *)
Definition launch_session : Promise unit :=
  let* executablePath := awaited ensureBrowserIsReady in
  let* b :=
    await (external
             (puppeteer_launch
                (LaunchOptions.Build (Some executablePath) sessionArgs))) in
  sync (modify (with_browser (Some b))) ;;
  sync (emit (EvSessionLaunch b)).

(** The [if (!this.browser) { ... }] block: the field is read once, before
    the [await]s of its body. *)
Definition ensure_session : Promise unit :=
  let* shared := sync (gets browser) in
  match shared with
  | Some _ => pure tt
  | None => launch_session
  end.

(** [page = await this.browser!.newPage()] *)
Definition open_page : Promise Page :=
  let* shared := sync (gets browser) in
  let* p :=
    match shared with
    | Some b =>
      let* p := await (external (browser_newPage b)) in
      sync (emit (EvNewPage b p)) ;; pure p
    | None =>
      raise (MkError (js "Cannot read properties of null (reading 'newPage')"))
    end in
  sync (modify (with_page (Some p))) ;;
  pure p.

(** The rest of the [try] block, from [page.setViewport] to the [return]. *)
Definition drive_page (p : Page) (url : jsstring) (options : ScrapeOptions.t)
  : Promise ScrapedContent.t :=
  let headers := default ∅ (ScrapeOptions.headers options) in
  let timeout := default 60000 (ScrapeOptions.timeout options) in
  let waitForSelector := ScrapeOptions.waitForSelector options in
  let screenshot := default false (ScrapeOptions.screenshot options) in
  await (external (page_do p (SetViewport 1280 800))) ;;
  whenever (0 <? size headers)%nat
    (sync (emit (EvPageHeaders p url headers)) ;;
     await (external (page_do p (SetExtraHTTPHeaders headers)))) ;;
  await (external (page_do p (SetUserAgent puppeteerUserAgent))) ;;
  await (external (page_do p (Goto url timeout))) ;;
  match truthy waitForSelector with
  | Some selector =>
    await (external (page_do p (WaitForSelector selector 15000)))
  | None => await (modify (fun s => with_world (delay 3000 (world s)) s))
  end ;;
  let* html := await (external (page_content p)) in
  whenever screenshot (await (external (page_do p Screenshot))) ;;
  let* now := sync clock in
  sync (lift (extractContent (load html) url html now)).

(** [finally { if (page) await page.close(); }] *)
Definition close_page : Promise unit :=
  let* p := sync (gets page) in
  match p with
  | Some p => sync (emit (EvPageClose p)) ;; await (external (page_close p))
  | None => pure tt
  end.

(** [WebScraper.scrapeWithPuppeteer] *)
Definition scrapeWithPuppeteer (url : jsstring) (options : ScrapeOptions.t)
  : Promise ScrapedContent.t :=
  sync (modify (with_page None)) ;;
  ensuring
    (catch
       (ensure_session ;;
        let* p := open_page in
        drive_page p url options)
       (fun error =>
          raise (MkError (js "Puppeteer爬取失败: " ++ message error))))
    close_page.

(** [WebScraper.scrape] *)
Definition scrape (url : jsstring) (options : ScrapeOptions.t)
  : Promise ScrapedContent.t :=
  let usePuppeteer := default false (ScrapeOptions.usePuppeteer options) in
  if startsWith url (js "data:") then scrapeWithPuppeteer url options
  else if usePuppeteer then scrapeWithPuppeteer url options
  else
    let* attempt :=
      catch
        (let* staticContent := awaited (scrapeWithAxios url options) in
         pure (inr staticContent))
        (fun error => pure (inl error)) in
    match attempt with
    | inr staticContent =>
      if contentIsJSReliant staticContent
      then scrapeWithPuppeteer url options
      else pure staticContent
    | inl error =>
      sync (emit (EvConsoleError (static_failure_log error))) ;;
      scrapeWithPuppeteer url options
    end.

(** The [try] block of a unit of [handleBatchScrape], up to its [return]:
    [RuleEngine.applyRules] and [ExportManager.export] are [async] functions
    without an [await] of their own. *)
Definition batch_pipeline (format : jsstring) (usePuppeteer : bool)
    (ruleSet : option jsstring) (url : jsstring) : Promise jsstring :=
  let isDataUrl := startsWith url (js "data:") in
  let* headers :=
    if isDataUrl then pure ∅
    else
      let* hostname := sync (lift (url_hostname url)) in
      sync (gets (fun s => getHeaders hostname (domainHeaders s))) in
  let* content := awaited (scrape url (scrape_options usePuppeteer headers)) in
  let* processedContent :=
    match truthy ruleSet with
    | Some _ => awaited (sync (process_rules ruleSet content))
    | None => pure content
    end in
  awaited (sync (export processedContent format)).

(** The [async (url) => { try { ... } catch (error) { ... } }] that
    [handleBatchScrape] maps over [urls]. *)
Definition batch_unit (format : jsstring) (usePuppeteer : bool)
    (ruleSet : option jsstring) (url : jsstring) : Promise BatchEntry.t :=
  catch
    (let* exportedContent := batch_pipeline format usePuppeteer ruleSet url in
     pure (BatchEntry.Build (Some url) true (Some exportedContent) None))
    (fun error =>
       pure (BatchEntry.Build (Some url) false None (Some (message error)))).

(** *** The event loop *)

(** The local variables that a [finally] block reads ([tempBrowser], [page])
    belong to the call: each call in progress has its own, put in place when
    the call runs and kept aside while it is suspended. *)
Record Frame := MkFrame {
  frame_tempBrowser : option Browser;
  frame_page : option Page
}.

Definition install (frame : Frame) (s : Sys) : Sys :=
  with_page (frame_page frame) (with_tempBrowser (frame_tempBrowser frame) s).

Definition capture (s : Sys) : Frame := MkFrame (tempBrowser s) (page s).

(** A call in progress: its local variables and what is left of it. *)
Definition Call (A : Type) : Type := Frame * Promise A.

(** Runs a call up to its next [await], or to its end. *)
Fixpoint advance {A} (t : Promise A) (s : Sys) : Promise A * Sys :=
  match t with
  | Return outcome => (Return outcome, s)
  | Run segment rest => let '(r, s') := segment s in advance (rest r) s'
  | Suspend rest => (Suspend rest, s)
  end.

Definition proceed {A} (frame : Frame) (t : Promise A) (s : Sys)
  : Call A * Sys :=
  let '(t', s') := advance t (install frame s) in ((capture s', t'), s').

(** One turn of the event loop for a call: a suspended call is resumed and
    runs to its next [await]; a settled call stays as it is. *)
Definition resume {A} (call : Call A) (s : Sys) : Call A * Sys :=
  match call.2 with
  | Suspend rest => proceed call.1 rest s
  | _ => (call, s)
  end.

(** [urls.map(f)] for an [async] function [f]: the calls start one after the
    other, each running to its first [await] before the next starts. *)
Fixpoint start {A} (promises : list (Promise A)) (s : Sys)
  : list (Call A) * Sys :=
  match promises with
  | [] => ([], s)
  | t :: rest =>
    let '(call, s1) := proceed (MkFrame None None) t s in
    let '(calls, s2) := start rest s1 in
    (call :: calls, s2)
  end.

(** The turns of the event loop: [schedule] names, turn by turn, the call
    that is resumed. *)
Definition turn {A} (i : nat) (pool : list (Call A)) (s : Sys)
  : list (Call A) * Sys :=
  match pool !! i with
  | Some call =>
    let '(call', s') := resume call s in (<[i := call']> pool, s')
  | None => (pool, s)
  end.

Fixpoint turns {A} (schedule : list nat) (pool : list (Call A)) (s : Sys)
  : list (Call A) * Sys :=
  match schedule with
  | [] => (pool, s)
  | i :: rest => let '(pool', s') := turn i pool s in turns rest pool' s'
  end.

(** Runs a call to its end, through its [await]s. *)
Fixpoint complete {A} (t : Promise A) (s : Sys) : Result A * Sys :=
  match t with
  | Return outcome => (outcome, s)
  | Run segment rest => let '(r, s') := segment s in complete (rest r) s'
  | Suspend rest => complete rest s
  end.

(** The calls still suspended when the schedule is over run to their ends,
    in the order of the pool. *)
Fixpoint drain {A} (pool : list (Call A)) (s : Sys)
  : list (Result A) * Sys :=
  match pool with
  | [] => ([], s)
  | call :: rest =>
    let '(outcome, s1) := complete call.2 (install call.1 s) in
    let '(outcomes, s2) := drain rest s1 in
    (outcome :: outcomes, s2)
  end.

(** The outcomes of calls started together and resumed along [schedule]. *)
Definition settle_all {A} (schedule : list nat) (promises : list (Promise A))
    (s : Sys) : list (Result A) * Sys :=
  let '(pool, s1) := start promises s in
  let '(pool', s2) := turns schedule pool s1 in
  drain pool' s2.

End Promises.

Arguments Return {_ A} outcome.
Arguments Run {_ A X} segment rest.
Arguments Suspend {_ A} rest.

End Async.

Section Batch.
Context `{Cheerio} `{Runtime} `{World} `{Formatters}.

Definition to_settled {A} (outcome : Result A) : Settled A :=
  match outcome with
  | inr value => Fulfilled value
  | inl reason => Rejected reason
  end.

(** [Promise.allSettled(promises)] on calls that have been started: it
    settles when every call has, with the outcome of each at the position of
    its promise. The event loop resumes the calls in the order [schedule]
    gives; any order in which the calls of the source can take their turns
    is some [schedule]. *)
Definition allSettled {A} (schedule : list nat)
    (promises : list (Async.Call A)) : M (list (Settled A)) :=
  fun s =>
    let '(pool, s1) := Async.turns schedule promises s in
    let '(outcomes, s2) := Async.drain pool s1 in
    (inr (map to_settled outcomes), s2).

(** [WebScraperMCPServer.handleBatchScrape]; the result is the [results]
    array, which the source returns as JSON text. *)
Definition handleBatchScrape (schedule : list nat)
    (args : BatchScrapeArgs.t) : M (list BatchEntry.t) :=
  let urls := BatchScrapeArgs.urls args in
  let format := default (js "markdown") (BatchScrapeArgs.format args) in
  let usePuppeteer := default false (BatchScrapeArgs.usePuppeteer args) in
  let ruleSet := BatchScrapeArgs.ruleSet args in
  fun s =>
    let '(scrapePromises, s1) :=
      Async.start (map (Async.batch_unit format usePuppeteer ruleSet) urls) s in
    bind (allSettled schedule scrapePromises)
      (fun settledResults =>
         let results :=
           map (fun result =>
                  match result with
                  | Fulfilled value => value
                  | Rejected reason =>
                    BatchEntry.Build None false None
                      (Some (js "一个未知的爬取任务失败: "
                             ++ error_to_string reason))
                  end)
             settledResults in
         ret results)
      s1.

End Batch.

(** ** The rest of the rule engine, of the header manager and of the front end *)

(** [RuleEngine.getRuleSet] *)
Definition getRuleSet (name : jsstring) (ruleSets : gmap jsstring RuleSet.t)
  : option RuleSet.t :=
  ruleSets !! name.

(** [RuleEngine.getRuleSetDetails]: [null] where [getRuleSet] gives
    [undefined]. *)
Definition getRuleSetDetails (name : jsstring)
    (ruleSets : gmap jsstring RuleSet.t) : option RuleSet.t :=
  match ruleSets !! name with
  | Some ruleSet => Some ruleSet
  | None => None
  end.

(** [RuleEngine.deleteRuleSet]: what [Map.prototype.delete] returns, and the
    registry afterwards. *)
Definition deleteRuleSet (name : jsstring) (ruleSets : gmap jsstring RuleSet.t)
  : bool * gmap jsstring RuleSet.t :=
  (bool_decide (is_Some (ruleSets !! name)), delete name ruleSets).

(** The names every plain object inherits from [Object.prototype]. *)
Definition object_prototype_keys : list jsstring :=
  [js "constructor"; js "__defineGetter__"; js "__defineSetter__";
   js "hasOwnProperty"; js "__lookupGetter__"; js "__lookupSetter__";
   js "isPrototypeOf"; js "propertyIsEnumerable"; js "toString";
   js "valueOf"; js "__proto__"; js "toLocaleString"].

(** [key in obj] for a plain object: own or inherited. *)
Definition has_property (key : jsstring) (obj : Headers) : bool :=
  bool_decide (is_Some (obj !! key))
  || bool_decide (key ∈ object_prototype_keys).

Section HeaderManager.
Context `{Runtime}.

(** [HeaderManager.removeHeaders] *)
Definition removeHeaders (domain : jsstring)
    (domainHeaders : gmap jsstring Headers) : bool * gmap jsstring Headers :=
  let normalizedDomain := normalizeDomain domain in
  (bool_decide (is_Some (domainHeaders !! normalizedDomain)),
   delete normalizedDomain domainHeaders).

(** [HeaderManager.removeHeaderField]. [delete headers[fieldName]] edits the
    object the store holds; on an inherited name it removes nothing. *)
Definition removeHeaderField (domain fieldName : jsstring)
    (domainHeaders : gmap jsstring Headers) : bool * gmap jsstring Headers :=
  let normalizedDomain := normalizeDomain domain in
  match domainHeaders !! normalizedDomain with
  | Some headers =>
    if has_property fieldName headers
    then (true, <[normalizedDomain := delete fieldName headers]> domainHeaders)
    else (false, domainHeaders)
  | None => (false, domainHeaders)
  end.

(** The object [setApiHeaders] builds before it calls [setHeaders]. *)
Definition apiHeaders (apiKey : option jsstring) : Headers :=
  let base : Headers :=
    <[js "Accept-Language" := js "zh-CN,zh;q=0.9,en;q=0.8"]>
      (<[js "Content-Type" := js "application/json"]>
         {[js "Accept" := js "application/json, text/plain, */*"]}) in
  match truthy apiKey with
  | Some key => <[js "Authorization" := js "Bearer " ++ key]> base
  | None => base
  end.

(** [HeaderManager.setApiHeaders] *)
Definition setApiHeaders (domain : jsstring) (apiKey : option jsstring)
    (domainHeaders : gmap jsstring Headers) : gmap jsstring Headers :=
  setHeaders domain (apiHeaders apiKey) domainHeaders.

End HeaderManager.

(** [JSON.stringify(results, null, 2)] on the array of a batch. *)
Class Serializer := {
  stringify_results : list BatchEntry.t -> jsstring
}.

(** A tool call as [handleRequest] receives it, with the arguments of the
    tool it names. [UnknownTool] is a call whose name is none of
    [known_tools]. *)
Inductive Request :=
  | ScrapeUrl (args : ScrapeUrlArgs.t)
  | CreateRuleSet (name : jsstring) (rules : ExtractionRule.t)
  | SetDomainHeaders (domain : jsstring) (headers : Headers)
  | BatchScrape (args : BatchScrapeArgs.t)
  | UnknownTool (name : jsstring).

Definition known_tools : list jsstring :=
  [js "scrape_url"; js "create_rule_set"; js "set_domain_headers";
   js "batch_scrape"].

Definition tool_name (request : Request) : jsstring :=
  match request with
  | ScrapeUrl _ => js "scrape_url"
  | CreateRuleSet _ _ => js "create_rule_set"
  | SetDomainHeaders _ _ => js "set_domain_headers"
  | BatchScrape _ => js "batch_scrape"
  | UnknownTool name => name
  end.

Section FrontEnd.
Context `{Cheerio} `{Runtime} `{World} `{Formatters} `{Serializer}.

Notation "'let*' x ':=' m 'in' k" := (bind m (fun x => k))
  (at level 10, x name, m at level 200, k at level 200, only parsing).
Notation "m1 ';;' m2" := (bind m1 (fun _ => m2))
  (at level 100, m2 at level 200, right associativity, only parsing).

Definition unknown_tool (name : jsstring) : JsError :=
  MkError (js "未知或不支持的工具: " ++ name).

(** The first argument of the [console.error] of [handleRequest]; the error
    object follows it on the console. *)
Definition request_failure_log (name : jsstring) : jsstring :=
  js "处理工具 [" ++ name ++ js "] 时发生错误:".

(** [WebScraperMCPServer.handleRequest]; the result is the [text] of the
    response. [schedule] is the order in which the event loop resumes the
    units of a batch. *)
Definition handleRequest (schedule : list nat) (request : Request)
  : M jsstring :=
  let name := tool_name request in
  try_catch
    (match request with
     | ScrapeUrl args => handleScrapeUrl args
     | CreateRuleSet name rules =>
       handleCreateRuleSet name rules ;;
       ret (js "规则集 " ++ [34] ++ name ++ [34] ++ js " 已成功创建并可供使用。")
     | SetDomainHeaders domain headers =>
       handleSetDomainHeaders domain headers ;;
       ret (js "域名 " ++ [34] ++ domain ++ [34] ++ js " 的请求头已成功设置。")
     | BatchScrape args =>
       let* results := handleBatchScrape schedule args in
       ret (stringify_results results)
     | UnknownTool name => throw (unknown_tool name)
     end)
    (fun error =>
       emit (EvConsoleError (request_failure_log name)) ;;
       ret (js "错误: " ++ message error)).

End FrontEnd.

(** ** Small instances of the interfaces

    Used to run the model on concrete inputs. Documents are flat lists of
    elements; a selector is a comma-separated list of tag names, [a[href]] or
    [img[src]]; the parser is a finite table from markup to document. *)

Module Toy.

Record Elem := MkElem {
  tag : jsstring;
  attrs : list (jsstring * jsstring);
  txt : jsstring
}.

#[global] Instance Elem_eq_dec : EqDecision Elem.
Proof. solve_decision. Defined.

Fixpoint split_on (sep : jschar) (s : jsstring) : list jsstring :=
  match s with
  | [] => [[]]
  | c :: t =>
    if c =? sep then [] :: split_on sep t
    else
      match split_on sep t with
      | part :: parts => (c :: part) :: parts
      | [] => [[c]]
      end
  end.

Fixpoint assoc (key : jsstring) (l : list (jsstring * jsstring))
  : option jsstring :=
  match l with
  | [] => None
  | (k, v) :: rest => if bool_decide (k = key) then Some v else assoc key rest
  end.

Definition simple_match (part : jsstring) (e : Elem) : bool :=
  if bool_decide (part = js "a[href]")
  then bool_decide (tag e = js "a") && bool_decide (is_Some (assoc (js "href") (attrs e)))
  else if bool_decide (part = js "img[src]")
  then bool_decide (tag e = js "img") && bool_decide (is_Some (assoc (js "src") (attrs e)))
  else bool_decide (tag e = part).

Definition matches (selector : jsstring) (e : Elem) : bool :=
  existsb (fun part => simple_match (trim part) e) (split_on 44 selector).

Fixpoint parse (pages : list (jsstring * list Elem)) (markup : jsstring)
  : list Elem :=
  match pages with
  | [] => []
  | (m, doc) :: rest => if bool_decide (m = markup) then doc else parse rest markup
  end.

Definition syntax_error (selector : jsstring) : option JsError :=
  if startsWith selector (js "[[")
  then Some (MkError (js "Unmatched selector: " ++ selector))
  else None.

Definition cheerio (pages : list (jsstring * list Elem)) : Cheerio.
Proof.
  refine {|
    Dom := list Elem;
    Node := Elem;
    load := parse pages;
    selector_error := syntax_error;
    query := fun d selector => filter (fun e => matches selector e = true) d;
    query_in := fun _ _ _ => [];
    remove := fun d nodes => filter (fun e => e ∉ nodes) d;
    text := fun _ nodes => concat (map txt nodes);
    attr := fun _ e name => assoc name (attrs e)
  |}.
  unfold extractor_selectors, contentSelectors. cbn [app].
  intros s Hs. repeat (apply elem_of_cons in Hs as [-> | Hs]; [reflexivity |]).
  by apply elem_of_nil in Hs.
Defined.

Definition lower (c : jschar) : jschar :=
  if (65 <=? c) && (c <=? 90) then c + 32 else c.

Definition invalid_url : JsError := MkError (js "Invalid URL").

Definition is_http (s : jsstring) : bool :=
  startsWith s (js "http://") || startsWith s (js "https://").

(** Lower-casing of Basic Latin; URLs: an absolute http(s) reference resolves
    to itself, anything else is rejected (as a relative reference is against a
    [data:] base); the host name of an http(s) URL. *)
Definition runtime : Runtime := {|
  toLowerCase := map lower;
  url_resolve := fun ref _ => if is_http ref then inr ref else inl invalid_url;
  url_hostname := fun u =>
    if is_http u
    then inr (map lower (before_first 58 (before_first 47 (strip_scheme u))))
    else inl invalid_url
|}.

(** A scripted world: what each URL answers to a plain GET, what a browser
    page shows after navigating to it, whether Chrome is installed and whether
    a browser can be launched. Handles are numbered in the order of
    creation. *)
Record State := MkState {
  http : jsstring -> Result jsstring;
  rendered : jsstring -> Result jsstring;
  chrome_installed : bool;
  launch_error : option JsError;
  navigated : jsstring;
  next_handle : N
}.

Definition fresh (w : State) : State :=
  MkState (http w) (rendered w) (chrome_installed w) (launch_error w)
    (navigated w) (next_handle w + 1).

Definition goto (u : jsstring) (w : State) : State :=
  MkState (http w) (rendered w) (chrome_installed w) (launch_error w)
    u (next_handle w).

Definition world : World := {|
  W := State;
  Browser := N;
  Page := N;
  axios_get := fun u _ _ w => (http w u, w);
  clock_iso := fun w => (js "2024-01-01T00:00:00.000Z", w);
  delay := fun _ w => w;
  platform_win32 := false;
  env_LOCALAPPDATA := js "undefined";
  fs_existsSync := fun _ w => chrome_installed w;
  puppeteer_launch := fun _ w =>
    match launch_error w with
    | Some err => (inl err, w)
    | None => (inr (next_handle w), fresh w)
    end;
  browser_spawnfile := fun _ => None;
  browser_newPage := fun _ w => (inr (next_handle w), fresh w);
  browser_close := fun _ w => (inr tt, w);
  page_do := fun _ cmd w =>
    match cmd with
    | Goto u _ => (inr tt, goto u w)
    | _ => (inr tt, w)
    end;
  page_content := fun _ w => (rendered w (navigated w), w);
  page_close := fun _ w => (inr tt, w)
|}.

(** The same world, except that the connection to the browser is lost by
    the time a page is closed. *)
Definition world_closing : World := {|
  W := State;
  Browser := N;
  Page := N;
  axios_get := fun u _ _ w => (http w u, w);
  clock_iso := fun w => (js "2024-01-01T00:00:00.000Z", w);
  delay := fun _ w => w;
  platform_win32 := false;
  env_LOCALAPPDATA := js "undefined";
  fs_existsSync := fun _ w => chrome_installed w;
  puppeteer_launch := fun _ w =>
    match launch_error w with
    | Some err => (inl err, w)
    | None => (inr (next_handle w), fresh w)
    end;
  browser_spawnfile := fun _ => None;
  browser_newPage := fun _ w => (inr (next_handle w), fresh w);
  browser_close := fun _ w => (inr tt, w);
  page_do := fun _ cmd w =>
    match cmd with
    | Goto u _ => (inr tt, goto u w)
    | _ => (inr tt, w)
    end;
  page_content := fun _ w => (rendered w (navigated w), w);
  page_close := fun _ w =>
    (inl (MkError (js "Protocol error: Connection closed.")), w)
|}.

Definition formatters : Formatters := {|
  exportToMarkdown := fun c => inr (js "# " ++ ScrapedContent.title c);
  exportToText := fun c => inr (ScrapedContent.content c);
  exportToHtml := fun c => inr (ScrapedContent.html c);
  exportToJson := fun c => inr (ScrapedContent.url c)
|}.

End Toy.

(** A second small instance, in which the position of an element matters:
    the selector [p:first-child] matches the first element of the document
    when it is a [p]. Every other selector is read as in [Toy]. *)
Module Positional.

Definition matching (d : list Toy.Elem) (selector : jsstring)
  : list Toy.Elem :=
  if bool_decide (selector = js "p:first-child") then
    match d with
    | e :: _ => if bool_decide (Toy.tag e = js "p") then [e] else []
    | [] => []
    end
  else filter (fun e => Toy.matches selector e = true) d.

Definition cheerio (pages : list (jsstring * list Toy.Elem)) : Cheerio.
Proof.
  refine {|
    Dom := list Toy.Elem;
    Node := Toy.Elem;
    load := Toy.parse pages;
    selector_error := Toy.syntax_error;
    query := matching;
    query_in := fun _ _ _ => [];
    remove := fun d nodes => filter (fun e => e ∉ nodes) d;
    text := fun _ nodes => concat (map Toy.txt nodes);
    attr := fun _ e name => Toy.assoc name (Toy.attrs e)
  |}.
  unfold extractor_selectors, contentSelectors. cbn [app].
  intros s Hs. repeat (apply elem_of_cons in Hs as [-> | Hs]; [reflexivity |]).
  by apply elem_of_nil in Hs.
Defined.

End Positional.

(** * Concrete inputs *)

Section Scenarios.

(** A static page: a title, three anchors (one relative, one repeated), an
    image and a body. Its address is a [data:] URL, against which a relative
    reference does not resolve. *)
Definition markup_a : jsstring :=
  js "<html><head><title> Hello </title></head><body><a href=http://a.example/x>x</a><a href=y.html>y</a><a href=http://a.example/x>x</a><img src=http://a.example/i.png> some   text here </body></html>".

Definition page_a : list Toy.Elem :=
  [Toy.MkElem (js "title") [] (js " Hello ");
   Toy.MkElem (js "a") [(js "href", js "http://a.example/x")] (js "x");
   Toy.MkElem (js "a") [(js "href", js "y.html")] (js "y");
   Toy.MkElem (js "a") [(js "href", js "http://a.example/x")] (js "x");
   Toy.MkElem (js "img") [(js "src", js "http://a.example/i.png")] [];
   Toy.MkElem (js "body") [] (js "x y x some   text here ")].

(** A page that asks for JavaScript, and what a browser shows for it. *)
Definition markup_noscript : jsstring :=
  js "<html><body><noscript>Please Enable JavaScript to continue</noscript></body></html>".

Definition page_noscript : list Toy.Elem :=
  [Toy.MkElem (js "body") [] (js "Please Enable JavaScript to continue")].

Definition markup_rendered : jsstring :=
  js "<html><head><title>App</title></head><body>rendered</body></html>".

Definition page_rendered : list Toy.Elem :=
  [Toy.MkElem (js "title") [] (js "App");
   Toy.MkElem (js "body") [] (js "rendered")].

#[local] Instance scenario_cheerio : Cheerio :=
  Toy.cheerio [(markup_a, page_a); (markup_noscript, page_noscript);
               (markup_rendered, page_rendered)].
#[local] Existing Instance Toy.runtime.
#[local] Existing Instance Toy.world.
#[local] Existing Instance Toy.formatters.

Definition url_a : jsstring := js "data:text/html,a".
Definition now_a : jsstring := js "2024-01-01T00:00:00.000Z".

Definition record_a : ScrapedContent.t :=
  {| ScrapedContent.url := url_a;
     ScrapedContent.title := js "Hello";
     ScrapedContent.content := js "x y x some text here";
     ScrapedContent.html := markup_a;
     ScrapedContent.links := [js "http://a.example/x"];
     ScrapedContent.images := [js "http://a.example/i.png"];
     ScrapedContent.metadata := ∅;
     ScrapedContent.timestamp := now_a |}.

(** A rule set whose selectors find nothing on the page, and one that names
    links and images. *)
Definition rules_absent : RuleSet.t :=
  {| RuleSet.name := js "absent";
     RuleSet.rules :=
       {| ExtractionRule.title := Some (js "h2");
          ExtractionRule.content := Some (js "article");
          ExtractionRule.links := None;
          ExtractionRule.images := None;
          ExtractionRule.exclude := Some [js "nav"];
          ExtractionRule.custom := Some [(js "price", js "span")] |};
     RuleSet.description := None |}.

Definition rules_narrow : RuleSet.t :=
  {| RuleSet.name := js "narrow";
     RuleSet.rules :=
       {| ExtractionRule.title := None;
          ExtractionRule.content := None;
          ExtractionRule.links := Some (js "nonexistent-selector");
          ExtractionRule.images := Some (js "img[src]");
          ExtractionRule.exclude := None;
          ExtractionRule.custom := None |};
     RuleSet.description := None |}.

Definition registry_a : gmap jsstring RuleSet.t :=
  createRuleSet (js "narrow") (RuleSet.rules rules_narrow) None
    (createRuleSet (js "absent") (RuleSet.rules rules_absent) None ∅).

Definition record_narrow : ScrapedContent.t :=
  {| ScrapedContent.url := url_a;
     ScrapedContent.title := js "Hello";
     ScrapedContent.content := js "x y x some text here";
     ScrapedContent.html := markup_a;
     ScrapedContent.links := [];
     ScrapedContent.images := [js "http://a.example/i.png"];
     ScrapedContent.metadata :=
       <[js "appliedRuleSet" := MString (js "narrow")]>
         (<[js "customData" := MCustomData ∅]> ∅);
     ScrapedContent.timestamp := now_a |}.

(** A record of page a whose links are out of date, and a rule set that
    names the anchors. *)
Definition record_stale : ScrapedContent.t :=
  {| ScrapedContent.url := url_a;
     ScrapedContent.title := js "Hello";
     ScrapedContent.content := js "x y x some text here";
     ScrapedContent.html := markup_a;
     ScrapedContent.links := [js "http://stale.example/"];
     ScrapedContent.images := [js "http://a.example/i.png"];
     ScrapedContent.metadata := ∅;
     ScrapedContent.timestamp := now_a |}.

Definition rules_anchors : RuleSet.t :=
  {| RuleSet.name := js "anchors";
     RuleSet.rules :=
       {| ExtractionRule.title := None;
          ExtractionRule.content := None;
          ExtractionRule.links := Some (js "a[href]");
          ExtractionRule.images := None;
          ExtractionRule.exclude := None;
          ExtractionRule.custom := None |};
     RuleSet.description := None |}.

Definition registry_anchors : gmap jsstring RuleSet.t :=
  createRuleSet (js "anchors") (RuleSet.rules rules_anchors) None ∅.

Definition record_anchors : ScrapedContent.t :=
  {| ScrapedContent.url := url_a;
     ScrapedContent.title := js "Hello";
     ScrapedContent.content := js "x y x some text here";
     ScrapedContent.html := markup_a;
     ScrapedContent.links := [js "http://a.example/x"];
     ScrapedContent.images := [js "http://a.example/i.png"];
     ScrapedContent.metadata :=
       <[js "appliedRuleSet" := MString (js "anchors")]>
         (<[js "customData" := MCustomData ∅]> ∅);
     ScrapedContent.timestamp := now_a |}.

(** A page that opens with a menu in a [div], followed by a paragraph, and
    a rule set that excludes the [div] and takes the title from a paragraph
    in first position. *)
Definition markup_menu : jsstring :=
  js "<html><body><div>Menu </div><p>First paragraph</p></body></html>".

Definition page_menu : list Toy.Elem :=
  [Toy.MkElem (js "div") [] (js "Menu ");
   Toy.MkElem (js "p") [] (js "First paragraph");
   Toy.MkElem (js "body") [] (js "Menu First paragraph")].

Definition scenario_menu : Cheerio :=
  Positional.cheerio [(markup_menu, page_menu)].

Definition record_menu : ScrapedContent.t :=
  {| ScrapedContent.url := url_a;
     ScrapedContent.title := js "无标题";
     ScrapedContent.content := js "Menu First paragraph";
     ScrapedContent.html := markup_menu;
     ScrapedContent.links := [];
     ScrapedContent.images := [];
     ScrapedContent.metadata := ∅;
     ScrapedContent.timestamp := now_a |}.

Definition rules_strip : RuleSet.t :=
  {| RuleSet.name := js "strip";
     RuleSet.rules :=
       {| ExtractionRule.title := Some (js "p:first-child");
          ExtractionRule.content := Some (js "article");
          ExtractionRule.links := None;
          ExtractionRule.images := None;
          ExtractionRule.exclude := Some [js "div"];
          ExtractionRule.custom := None |};
     RuleSet.description := None |}.

Definition registry_strip : gmap jsstring RuleSet.t :=
  createRuleSet (js "strip") (RuleSet.rules rules_strip) None ∅.

(** A rule set whose title and content selectors find nothing on that page
    and whose custom selector is malformed. *)
Definition rules_malformed : RuleSet.t :=
  {| RuleSet.name := js "malformed";
     RuleSet.rules :=
       {| ExtractionRule.title := Some (js "h2");
          ExtractionRule.content := Some (js "article");
          ExtractionRule.links := None;
          ExtractionRule.images := None;
          ExtractionRule.exclude := None;
          ExtractionRule.custom := Some [(js "price", js "[[data-price")] |};
     RuleSet.description := None |}.

Definition registry_malformed : gmap jsstring RuleSet.t :=
  createRuleSet (js "malformed") (RuleSet.rules rules_malformed) None ∅.

(** Worlds: one where both tiers fail, one where the static fetch answers
    with the page that asks for JavaScript and the browser renders it. *)
Definition fetch_failure : jsstring := js "timeout of 15000ms exceeded".
Definition render_failure : jsstring :=
  js "Failed to launch the browser process".

Definition world_down : Toy.State :=
  {| Toy.http := fun _ => inl (MkError fetch_failure);
     Toy.rendered := fun _ => inl (MkError (js "unreachable"));
     Toy.chrome_installed := true;
     Toy.launch_error := Some (MkError render_failure);
     Toy.navigated := [];
     Toy.next_handle := 0 |}.

Definition world_spa : Toy.State :=
  {| Toy.http := fun _ => inr markup_noscript;
     Toy.rendered := fun _ => inr markup_rendered;
     Toy.chrome_installed := true;
     Toy.launch_error := None;
     Toy.navigated := [];
     Toy.next_handle := 0 |}.

Definition world_offline : Toy.State :=
  {| Toy.http := fun _ => inl (MkError fetch_failure);
     Toy.rendered := fun _ => inr markup_rendered;
     Toy.chrome_installed := true;
     Toy.launch_error := None;
     Toy.navigated := [];
     Toy.next_handle := 0 |}.

Definition boot (w : Toy.State) : Sys := MkSys w [] None None ∅ ∅ None None.

Definition url_b : jsstring := js "http://spa.example/".

Definition options_b : ScrapeOptions.t := scrape_options false ∅.

Definition static_b : ScrapedContent.t :=
  {| ScrapedContent.url := url_b;
     ScrapedContent.title := js "无标题";
     ScrapedContent.content := js "Please Enable JavaScript to continue";
     ScrapedContent.html := markup_noscript;
     ScrapedContent.links := [];
     ScrapedContent.images := [];
     ScrapedContent.metadata := ∅;
     ScrapedContent.timestamp := now_a |}.

Definition custom_c : Headers := {[js "Authorization" := js "Bearer t0ken"]}.

Definition args_c : ScrapeUrlArgs.t :=
  {| ScrapeUrlArgs.url := js "http://spa.example/account";
     ScrapeUrlArgs.format := Some (js "text");
     ScrapeUrlArgs.usePuppeteer := None;
     ScrapeUrlArgs.ruleSet := None;
     ScrapeUrlArgs.customHeaders := Some custom_c |}.

(** A rule set with custom fields: one whose selector matches several
    elements of page a, one that matches a single element, one that matches
    none. *)
Definition fields_c : list (jsstring * jsstring) :=
  [(js "anchors", js "a"); (js "heading", js "title"); (js "price", js "span")].

Definition rules_fields : RuleSet.t :=
  {| RuleSet.name := js "fields";
     RuleSet.rules :=
       {| ExtractionRule.title := None;
          ExtractionRule.content := None;
          ExtractionRule.links := None;
          ExtractionRule.images := None;
          ExtractionRule.exclude := None;
          ExtractionRule.custom := Some fields_c |};
     RuleSet.description := None |}.

Definition registry_fields : gmap jsstring RuleSet.t :=
  createRuleSet (js "fields") (RuleSet.rules rules_fields) None ∅.

Definition record_fields : ScrapedContent.t :=
  {| ScrapedContent.url := url_a;
     ScrapedContent.title := js "Hello";
     ScrapedContent.content := js "x y x some text here";
     ScrapedContent.html := markup_a;
     ScrapedContent.links := [js "http://a.example/x"];
     ScrapedContent.images := [js "http://a.example/i.png"];
     ScrapedContent.metadata :=
       <[js "appliedRuleSet" := MString (js "fields")]>
         (<[js "customData" :=
              MCustomData
                (<[js "heading" := CText (js "Hello")]>
                   (<[js "anchors" := CTexts [js "x"; js "y"; js "x"]]> ∅))]> ∅);
     ScrapedContent.timestamp := now_a |}.

(** A page whose [main] element holds more than 100 code units of text, with
    a navigation bar outside it. *)
Definition text_long : jsstring :=
  js "The quick brown fox jumps over the lazy dog, and then the lazy dog jumps over the quick brown fox again, twice.".

Definition markup_long : jsstring :=
  js "<html><head><title>Long</title></head><body><nav><a href=http://a.example/menu>menu</a></nav><main>The quick brown fox jumps over the lazy dog, and then the lazy dog jumps over the quick brown fox again, twice.</main></body></html>".

Definition page_long : list Toy.Elem :=
  [Toy.MkElem (js "title") [] (js "Long");
   Toy.MkElem (js "nav") [] (js "menu");
   Toy.MkElem (js "a") [(js "href", js "http://a.example/menu")] (js "menu");
   Toy.MkElem (js "main") [] text_long;
   Toy.MkElem (js "body") [] (js "menu" ++ text_long)].

Definition scenario_long : Cheerio := Toy.cheerio [(markup_long, page_long)].

End Scenarios.

(** * Vocabulary of the statements *)

Section Vocabulary.
Context `{Cheerio} `{Runtime} `{World} `{Formatters}.

(** ** Text normalisation *)

(** White space in [s] occurs only as single spaces; [prev] tells that the
    code unit before [s] is white space. *)
Fixpoint tidy (prev : bool) (s : jsstring) : bool :=
  match s with
  | [] => true
  | c :: t =>
    if is_space c then (c =? SP) && negb prev && tidy true t
    else tidy false t
  end.

(** The first code unit of [s], if any, is not white space. *)
Definition starts_solid (s : jsstring) : Prop :=
  match s with
  | [] => True
  | c :: _ => is_space c = false
  end.

(** ** Rule sets and references *)

(** A selector of a rule set that is absent, or present and matching no
    element of the document [d]. *)
Definition matches_nothing (d : Dom) (rule : option jsstring) : Prop :=
  match truthy rule with
  | Some selector => select d selector = inr []
  | None => True
  end.

(** Every selector of the custom fields parses. *)
Definition custom_selectors_parse (rules : ExtractionRule.t) : Prop :=
  forall key selector,
    (key, selector) ∈ default [] (ExtractionRule.custom rules) ->
    selector_error selector = None.

(** An address is resolved against [base] when [new URL(ref, base).href]
    produced it from some reference. *)
Definition resolved_against (base address : jsstring) : Prop :=
  exists ref, url_resolve ref base = inr address.

(** [refs] holds exactly the references of some elements of a document that
    are truthy and that [new URL] resolved against [base]. *)
Definition collected (base attribute : jsstring) (refs : list jsstring) : Prop :=
  exists d elements,
    forall address : jsstring,
      address ∈ refs <->
      (exists element : Node,
         element ∈ (elements : list Node) /\
         resolved_ref d base attribute element = Some address).

(** The invariant of the [links] and [images] of a record: no duplicates,
    only results of a successful resolution against the record's address,
    collected from elements of a document. *)
Definition references_resolved (record : ScrapedContent.t) : Prop :=
  NoDup (ScrapedContent.links record) /\
  NoDup (ScrapedContent.images record) /\
  Forall (resolved_against (ScrapedContent.url record))
    (ScrapedContent.links record) /\
  Forall (resolved_against (ScrapedContent.url record))
    (ScrapedContent.images record) /\
  collected (ScrapedContent.url record) (js "href")
    (ScrapedContent.links record) /\
  collected (ScrapedContent.url record) (js "src")
    (ScrapedContent.images record).

(** The records of the program: built by the extractor, or by the rule
    engine from such a record. *)
Inductive produced : ScrapedContent.t -> Prop :=
  | produced_by_extractor d url html now record :
      extractContent d url html now = inr record -> produced record
  | produced_by_rules registry name content record :
      produced content ->
      applyRules registry name content = inr record -> produced record.

(** ** Runs of the state monad *)

(** Every run of [m] takes a state to one related to it by [R]. *)
Definition preserves (R : relation Sys) {A} (m : M A) : Prop :=
  forall s, R s (m s).2.

(** The new events of a run all satisfy [P]. *)
Definition emits (P : Event -> Prop) (s s' : Sys) : Prop :=
  exists evs, trace s' = trace s ++ evs /\ Forall P evs.

(** The header store and the rule registry are left as they are. *)
Definition same_registries (s s' : Sys) : Prop :=
  domainHeaders s' = domainHeaders s /\ ruleSets s' = ruleSets s.

(** The scraper's browser and the [page] variable are left as they are. *)
Definition same_session (s s' : Sys) : Prop :=
  browser s' = browser s /\ page s' = page s.

(** ** The render session *)

(** The events of the browser session and its pages. *)
Definition is_lifecycle (e : Event) : bool :=
  match e with
  | EvSessionLaunch _ | EvSessionClose _ | EvNewPage _ _ | EvPageClose _ => true
  | _ => false
  end.

Fixpoint lifecycle (evs : list Event) : list Event :=
  match evs with
  | [] => []
  | e :: rest => if is_lifecycle e then e :: lifecycle rest else lifecycle rest
  end.

(** A request for [url] with the headers [hs] sends them: in the GET of the
    static tier and on the page of the render tier. *)
Definition sends (url : jsstring) (hs : Headers) (e : Event) : Prop :=
  match e with
  | EvHttpGet u sent => u = url /\ hs ⊆ sent
  | EvPageHeaders _ u sent => u = url /\ hs ⊆ sent
  | _ => True
  end.

(** A step that touches neither the session nor its pages. *)
Definition quiet (s s' : Sys) : Prop :=
  same_session s s' /\ emits (fun e => is_lifecycle e = false) s s'.

(** The events of pages opened in the session [b] and closed again, one
    after the other. *)
Fixpoint page_events (b : Browser) (pages : list Page) : list Event :=
  match pages with
  | [] => []
  | p :: rest => EvNewPage b p :: EvPageClose p :: page_events b rest
  end.

(** What at most [n] rendering calls do to the session, given the browser
    field before and after and the session events in between: with a session
    [b] at hand it stays, and pages are opened in it and closed; without one,
    either none is created and nothing happens, or exactly one is launched,
    before any page, and kept. No session is closed. *)
Definition session_spec (n : nat) (before after : option Browser)
    (events : list Event) : Prop :=
  match before with
  | Some b =>
    after = Some b /\
    exists pages, (length pages <= n)%nat /\ events = page_events b pages
  | None =>
    (after = None /\ events = []) \/
    (exists b pages,
       after = Some b /\ (length pages <= n)%nat /\
       events = EvSessionLaunch b :: page_events b pages)
  end.

Definition session_steps (n : nat) (s s' : Sys) : Prop :=
  exists evs,
    trace s' = trace s ++ evs /\
    session_spec n (browser s) (browser s') (lifecycle evs).

(** A sequence of calls of [scrape] on one scraper, each run to its end
    before the next. *)
Fixpoint run_scrapes (calls : list (jsstring * ScrapeOptions.t)) (s : Sys)
  : Sys :=
  match calls with
  | [] => s
  | (url, options) :: rest => run_scrapes rest (scrape url options s).2
  end.

(** ** Batches and headers *)

(** The entry a unit of work returns for the outcome of its pipeline. *)
Definition entry_of (url : jsstring) (outcome : Result jsstring)
  : BatchEntry.t :=
  match outcome with
  | inr text => BatchEntry.Build (Some url) true (Some text) None
  | inl error => BatchEntry.Build (Some url) false None (Some (message error))
  end.

(** A fetch for a network address of the domain of [hostname] carries the
    headers [hs]. *)
Definition sends_to_domain (hostname : jsstring) (hs : Headers) (e : Event)
  : Prop :=
  match e with
  | EvHttpGet u sent | EvPageHeaders _ u sent =>
    startsWith u (js "data:") = false ->
    forall h, url_hostname u = inr h ->
              normalizeDomain h = normalizeDomain hostname -> hs ⊆ sent
  | _ => True
  end.

(** What follows the choice of the headers in both handlers: scrape, rules,
    formatter. *)
Definition fetch_and_format (url : jsstring) (usePuppeteer : bool)
    (headers : Headers) (ruleSet : option jsstring) (format : jsstring)
  : M jsstring :=
  bind (scrape url (scrape_options usePuppeteer headers))
    (fun content =>
       bind (process_rules ruleSet content)
         (fun processedContent => export processedContent format)).

(** The [try] block of [scrapeWithPuppeteer]: session, page, navigation and
    extraction. *)
Definition render_attempt (url : jsstring) (options : ScrapeOptions.t)
  : M ScrapedContent.t :=
  bind ensure_session
    (fun _ => bind open_page (fun p => drive_page p url options)).

(** The claim of C4 as the specification words it: a record put through a
    rule set without links and images selectors, whose title and content
    selectors match nothing in the record's raw markup, keeps its title and
    its text. *)
Definition kept_when_absent_from_markup (registry : gmap jsstring RuleSet.t)
    (name : jsstring) (record : ScrapedContent.t) : Prop :=
  forall ruleSet,
    registry !! name = Some ruleSet ->
    ExtractionRule.links (RuleSet.rules ruleSet) = None ->
    ExtractionRule.images (RuleSet.rules ruleSet) = None ->
    matches_nothing (load (ScrapedContent.html record))
      (ExtractionRule.title (RuleSet.rules ruleSet)) ->
    matches_nothing (load (ScrapedContent.html record))
      (ExtractionRule.content (RuleSet.rules ruleSet)) ->
    exists result,
      applyRules registry name record = inr result /\
      ScrapedContent.title result = ScrapedContent.title record /\
      ScrapedContent.content result = ScrapedContent.content record.

(** The claim of C1 as the specification words it: the error of [scrape]
    carries the failure messages of both tiers. *)
Definition carries_both_messages (outcome : Result ScrapedContent.t)
    (fetch_message render_message : jsstring) : Prop :=
  exists error,
    outcome = inl error /\
    includes (message error) fetch_message = true /\
    includes (message error) render_message = true.

(** ** Custom fields and page metadata *)

(** The value [applyRules] stores for a custom field whose selector matched
    [elements]; none when nothing matched. *)
Definition custom_value (d : Dom) (elements : list Node)
  : option CustomValue :=
  match elements with
  | [] => None
  | [_] => Some (CText (trim (text d elements)))
  | _ => Some (CTexts (map (fun el => trim (text d [el])) elements))
  end.

(** The name and the content a [meta] element contributes to the metadata:
    [name], or else [property], and [content], all non-empty. *)
Definition meta_entry (d : Dom) (element : Node)
  : option (jsstring * jsstring) :=
  let name :=
    match truthy (attr d element (js "name")) with
    | Some n => Some n
    | None => truthy (attr d element (js "property"))
    end in
  match name, truthy (attr d element (js "content")) with
  | Some name, Some metaContent => Some (name, metaContent)
  | _, _ => None
  end.

(** ** Tiers *)

(** The events of the static tier: the GET, and the console line written
    when it has failed. *)
Definition is_static_tier (e : Event) : bool :=
  match e with
  | EvHttpGet _ _ | EvConsoleError _ => true
  | _ => false
  end.

(** The events that carry request headers. *)
Definition carries_headers (e : Event) : bool :=
  match e with
  | EvHttpGet _ _ | EvPageHeaders _ _ _ => true
  | _ => false
  end.

(** The formats [export] knows. *)
Definition exportFormats : list jsstring :=
  [js "markdown"; js "text"; js "html"; js "json"].

(** ** Runs compared *)

(** Two runs that leave the same state, the first one failing, and with the
    error [E] whenever the second succeeds. *)
Definition fails_where {B} (E : JsError) (run run' : Result B * Sys) : Prop :=
  run.2 = run'.2 /\
  (exists error, run.1 = inl error) /\
  (forall value, run'.1 = inr value -> run.1 = inl E).

(** ** Selectors of a rule set *)

(** The selectors [applyRules] hands to cheerio for a rule set: the
    exclusions, the non-empty ones among title, content, links and images,
    and those of the custom fields. *)
Definition rule_selectors (rules : ExtractionRule.t) : list jsstring :=
  default [] (ExtractionRule.exclude rules)
  ++ option_list (truthy (ExtractionRule.title rules))
  ++ option_list (truthy (ExtractionRule.content rules))
  ++ option_list (truthy (ExtractionRule.links rules))
  ++ option_list (truthy (ExtractionRule.images rules))
  ++ (default [] (ExtractionRule.custom rules)).*2.

(** ** Calls in progress *)

(** From every state that satisfies [Inv], each synchronous segment the call
    comes to run takes the state to one related to it by [R]. *)
Fixpoint respects {A} (Inv : Sys -> Prop) (R : relation Sys)
    (t : Async.Promise A) : Prop :=
  match t with
  | Async.Return _ => True
  | Async.Run segment rest =>
    forall s, Inv s ->
              R s (segment s).2 /\ respects Inv R (rest (segment s).1)
  | Async.Suspend rest => respects Inv R rest
  end.

(** Whatever the states its segments run from, the call settles with an
    outcome that satisfies [P]. *)
Fixpoint settles_in {A} (P : Result A -> Prop) (t : Async.Promise A) : Prop :=
  match t with
  | Async.Return outcome => P outcome
  | Async.Run segment rest => forall s, settles_in P (rest (segment s).1)
  | Async.Suspend rest => settles_in P rest
  end.

(** [t'] runs the segments of [t] and suspends where [t] does, and settles
    with [f] of the outcome of [t]. *)
Inductive mirrors {A B} (f : Result A -> Result B)
  : Async.Promise A -> Async.Promise B -> Prop :=
  | mirrors_return outcome :
      mirrors f (Async.Return outcome) (Async.Return (f outcome))
  | mirrors_run {X} (segment : M X) rest rest' :
      (forall r, mirrors f (rest r) (rest' r)) ->
      mirrors f (Async.Run segment rest) (Async.Run segment rest')
  | mirrors_suspend t t' :
      mirrors f t t' -> mirrors f (Async.Suspend t) (Async.Suspend t').

(** Two calls in progress with the same local variables, the second
    mirroring the first. *)
Definition paired {A B} (f : Result A -> Result B) (call : Async.Call A)
    (call' : Async.Call B) : Prop :=
  call'.1 = call.1 /\ mirrors f call.2 call'.2.

(** The outcome of a unit of a batch, from the outcome of its pipeline. *)
Definition unit_outcome (url : jsstring) (outcome : Result jsstring)
  : Result BatchEntry.t :=
  inr (entry_of url outcome).

(** The pipelines of a batch, one per address. *)
Definition batch_pipelines (args : BatchScrapeArgs.t)
  : list (Async.Promise jsstring) :=
  map (Async.batch_pipeline
         (default (js "markdown") (BatchScrapeArgs.format args))
         (default false (BatchScrapeArgs.usePuppeteer args))
         (BatchScrapeArgs.ruleSet args))
    (BatchScrapeArgs.urls args).

(** A step that leaves the registries alone and whose fetches for the
    domain of [hostname] carry the headers [hs]. *)
Definition keeps_sending (hostname : jsstring) (hs : Headers) (s s' : Sys)
  : Prop :=
  same_registries s s' /\ emits (sends_to_domain hostname hs) s s'.

(** A call in progress that, run alone from its start to its end, is the
    computation [m]. *)
Definition runs_as {A} (t : Async.Promise A) (m : M A) : Prop :=
  forall s, Async.complete t s = m s.

(** ** Sessions launched by calls that overlap *)

(** The browsers launched as the scraper's session, in the order of their
    launch. *)
Fixpoint launched (evs : list Event) : list Browser :=
  match evs with
  | [] => []
  | EvSessionLaunch b :: rest => b :: launched rest
  | _ :: rest => launched rest
  end.

Definition sessions (s : Sys) : nat := length (launched (trace s)).

(** No session is closed. *)
Definition closes_no_session (e : Event) : Prop :=
  match e with
  | EvSessionClose _ => False
  | _ => True
  end.

Fixpoint total (debts : list nat) : nat :=
  match debts with
  | [] => 0%nat
  | debt :: rest => (debt + total rest)%nat
  end.

(** [owes Inv n t]: run from states that satisfy [Inv], what is left of the
    call keeps [Inv] and launches [n] more sessions, no more and no fewer,
    before it settles. *)
Fixpoint owes {A} (Inv : Sys -> Prop) (n : nat) (t : Async.Promise A) : Prop :=
  match t with
  | Async.Return _ => n = 0%nat
  | Async.Run segment rest =>
    forall s, Inv s ->
              exists count,
                (count <= n)%nat /\
                sessions (segment s).2 = (sessions s + count)%nat /\
                Inv (segment s).2 /\
                owes Inv (n - count) (rest (segment s).1)
  | Async.Suspend rest => owes Inv n rest
  end.

(** [starts Pre Inv n t]: started in a state that satisfies [Pre], the call
    keeps [Pre] up to its first [await], where it is suspended owing [n]
    sessions. *)
Fixpoint starts {A} (Pre Inv : Sys -> Prop) (n : nat) (t : Async.Promise A)
  : Prop :=
  match t with
  | Async.Return _ => False
  | Async.Run segment rest =>
    forall s, Pre s ->
              Pre (segment s).2 /\ starts Pre Inv n (rest (segment s).1)
  | Async.Suspend rest => owes Inv n rest
  end.

End Vocabulary.

(** ** The scripted world *)

Section ScriptedWorld.
#[local] Existing Instance scenario_cheerio.
#[local] Existing Instance Toy.runtime.
#[local] Existing Instance Toy.world.
#[local] Existing Instance Toy.formatters.

(** Chrome is installed and browsers can be launched. *)
Definition ready (s : Sys) : Prop :=
  Toy.launch_error (world s) = None /\ Toy.chrome_installed (world s) = true.

(** A scraper that has no session and has launched none. *)
Definition fresh_scraper (s : Sys) : Prop :=
  ready s /\ browser s = None /\ launched (trace s) = [].

(** A step that launches no session and leaves the world ready. *)
Definition calm (s s' : Sys) : Prop :=
  (ready s -> ready s') /\ launched (trace s') = launched (trace s).

(** A batch of two addresses that are rendered: [data:] addresses go to the
    render tier at once. *)
Definition batch_renders : BatchScrapeArgs.t :=
  BatchScrapeArgs.Build [js "data:text/html,a"; js "data:text/html,b"]
    None None None.

(** The same two addresses, scraped one after the other with the options
    the batch gives its units. *)
Definition renders_in_turn : list (jsstring * ScrapeOptions.t) :=
  [(js "data:text/html,a", scrape_options false ∅);
   (js "data:text/html,b", scrape_options false ∅)].

End ScriptedWorld.

(** * Properties *)

(** ** Text normalisation *)

Section Strings.

Lemma replace_ws_runs_from_tidy b s : tidy b (replace_ws_runs_from b s) = true.
Proof.
  revert b. induction s as [|c t IH]; intros b; cbn; [done|].
  destruct (is_space c) eqn:Hc.
  - destruct b; [apply IH|]. cbn. by rewrite IH.
  - cbn. by rewrite Hc, IH.
Qed.

Lemma tidy_replace_ws_runs_from b s :
  tidy b s = true -> replace_ws_runs_from b s = s.
Proof.
  revert b. induction s as [|c t IH]; intros b; cbn; [done|].
  destruct (is_space c) eqn:Hc.
  - intros [[Hsp Hb]%andb_prop Ht]%andb_prop.
    apply N.eqb_eq in Hsp as ->. destruct b; [done|].
    by rewrite (IH true Ht).
  - intros Ht. by rewrite (IH false Ht).
Qed.

Lemma tidy_replace_blank_lines b s :
  tidy b s = true -> replace_blank_lines_from O s = s.
Proof.
  revert b. induction s as [|c t IH]; intros b; cbn; [done|].
  destruct (is_space c) eqn:Hc.
  - intros [[Hsp Hb]%andb_prop Ht]%andb_prop.
    apply N.eqb_eq in Hsp as ->. cbn. by rewrite (IH true Ht).
  - intros Ht. destruct (c =? LF) eqn:Hlf.
    + apply N.eqb_eq in Hlf as ->. discriminate Hc.
    + by rewrite (IH false Ht).
Qed.

Lemma tidy_weaken b s : tidy b s = true -> tidy false s = true.
Proof.
  destruct s as [|c t]; cbn; [done|]. destruct (is_space c); [|done].
  intros [[-> _]%andb_prop ->]%andb_prop. done.
Qed.

Lemma tidy_trimStart b s : tidy b s = true -> tidy false (trimStart s) = true.
Proof.
  revert b. induction s as [|c t IH]; intros b; cbn; [done|].
  destruct (is_space c) eqn:Hc.
  - intros [_ Ht]%andb_prop. by apply (IH true).
  - intros Ht. cbn. by rewrite Hc.
Qed.

Lemma tidy_trimEnd b s : tidy b s = true -> tidy b (trimEnd s) = true.
Proof.
  revert b. induction s as [|c t IH]; intros b; cbn; [done|].
  destruct (is_space c) eqn:Hc.
  - intros [Hc' Ht]%andb_prop. specialize (IH true Ht).
    destruct (trimEnd t) as [|c' t'] eqn:Ht'; [done|].
    cbn [tidy]. rewrite Hc, Hc'. exact IH.
  - intros Ht. specialize (IH false Ht).
    destruct (trimEnd t) as [|c' t'] eqn:Ht'; cbn [tidy]; rewrite Hc; done.
Qed.

Lemma trimStart_starts_solid s : starts_solid (trimStart s).
Proof.
  induction s as [|c t IH]; cbn; [done|].
  destruct (is_space c) eqn:Hc; [done|]. exact Hc.
Qed.

Lemma starts_solid_trimStart s : starts_solid s -> trimStart s = s.
Proof. destruct s as [|c t]; cbn; [done|]. by intros ->. Qed.

Lemma trimEnd_starts_solid s : starts_solid s -> starts_solid (trimEnd s).
Proof.
  destruct s as [|c t]; cbn; [done|]. intros Hc.
  destruct (trimEnd t); cbn; by rewrite ?Hc.
Qed.

Lemma trimEnd_idempotent s : trimEnd (trimEnd s) = trimEnd s.
Proof.
  induction s as [|c t IH]; cbn; [done|].
  destruct (trimEnd t) as [|c' t'] eqn:Ht.
  - destruct (is_space c) eqn:Hc; cbn; by rewrite ?Hc.
  - change (trimEnd (c :: c' :: t')) with
      (match trimEnd (c' :: t') with
       | [] => if is_space c then [] else [c]
       | u => c :: u
       end).
    by rewrite IH.
Qed.

Lemma cleanText_tidy s : tidy false (cleanText s) = true.
Proof.
  unfold cleanText, trim, replace_blank_lines, replace_ws_runs.
  rewrite (tidy_replace_blank_lines false) by apply replace_ws_runs_from_tidy.
  apply tidy_trimEnd, (tidy_trimStart false), replace_ws_runs_from_tidy.
Qed.

Lemma trim_trim s : trim (trim s) = trim s.
Proof.
  unfold trim.
  rewrite (starts_solid_trimStart (trimEnd (trimStart s)))
    by apply trimEnd_starts_solid, trimStart_starts_solid.
  apply trimEnd_idempotent.
Qed.

(** Normalised text is a fixed point of [cleanText]. *)
Lemma cleanText_idempotent s : cleanText (cleanText s) = cleanText s.
Proof.
  pose proof (cleanText_tidy s) as Ht.
  unfold cleanText at 1. unfold replace_blank_lines, replace_ws_runs.
  rewrite (tidy_replace_ws_runs_from false _ Ht).
  rewrite (tidy_replace_blank_lines false _ Ht).
  unfold cleanText. apply trim_trim.
Qed.

(** [[...new Set(xs)]] has no duplicates and the members of [xs]. *)
Lemma uniq_from_spec seen xs :
  NoDup (uniq_from seen xs) /\
  forall x, x ∈ uniq_from seen xs <-> x ∈ xs /\ x ∉ seen.
Proof.
  revert seen. induction xs as [|y t IH]; intros seen; cbn.
  - split; [constructor|]. intros x. rewrite elem_of_nil. tauto.
  - case_bool_decide as Hy.
    + destruct (IH seen) as [Hnd Hiff]. split; [done|].
      intros x. rewrite Hiff, elem_of_cons. split; [tauto|].
      intros [[->|?] ?]; [done | tauto].
    + destruct (IH (y :: seen)) as [Hnd Hiff]. split.
      * constructor; [|done]. rewrite Hiff, elem_of_cons. tauto.
      * intros x. rewrite !elem_of_cons, Hiff, elem_of_cons.
        destruct (decide (x = y)) as [->|]; [tauto|]. tauto.
Qed.

Lemma set_spread_NoDup xs : NoDup (set_spread xs).
Proof. apply uniq_from_spec. Qed.

Lemma elem_of_set_spread x xs : x ∈ set_spread xs <-> x ∈ xs.
Proof.
  unfold set_spread. rewrite (proj2 (uniq_from_spec [] xs)), elem_of_nil. tauto.
Qed.

End Strings.

(** ** Content extractor and rule engine *)

Section ExtractionFacts.
Context `{Cheerio} `{Runtime}.

Ltac extractor_selector :=
  unfold extractor_selectors, contentSelectors; cbn [app];
  repeat first [apply list_elem_of_here | apply list_elem_of_further].

Lemma select_extractor d s :
  s ∈ extractor_selectors -> select d s = inr (query d s).
Proof. intros Hs. unfold select. by rewrite extractor_selectors_parse. Qed.

Lemma find_extractor d selection s :
  s ∈ extractor_selectors -> find d selection s = inr (query_in d selection s).
Proof. intros Hs. unfold find. by rewrite extractor_selectors_parse. Qed.

Lemma content_loop_total selectors d content :
  (forall s, s ∈ selectors -> s ∈ extractor_selectors) ->
  exists d' content', content_loop d content selectors = inr (d', content').
Proof.
  revert d content. induction selectors as [|sel rest IH]; intros d content Hin.
  - cbn. eauto.
  - cbn [content_loop].
    rewrite select_extractor by (apply Hin; left).
    assert (forall s, s ∈ rest -> s ∈ extractor_selectors) as Hrest
      by (intros s Hs; apply Hin; by right).
    destruct (0 <? length (query d sel))%nat; [|by apply IH].
    rewrite find_extractor by extractor_selector.
    destruct (100 <? _)%nat; [eauto | by apply IH].
Qed.

(** The record [extractContent] builds, for every document. *)
Lemma extractContent_shape d url html now :
  exists title d' content,
    title <> [] /\
    (trim (text d (query d (js "title"))) = [] ->
     trim (text d (take 1 (query d (js "h1")))) = [] ->
     title = js "无标题") /\
    extractContent d url html now =
      inr {| ScrapedContent.url := url;
             ScrapedContent.title := title;
             ScrapedContent.content := cleanText content;
             ScrapedContent.html := html;
             ScrapedContent.links :=
               set_spread
                 (resolved_refs d' url (js "href") (query d' (js "a[href]")));
             ScrapedContent.images :=
               set_spread
                 (resolved_refs d' url (js "src") (query d' (js "img[src]")));
             ScrapedContent.metadata :=
               foldl (meta_step d') ∅ (query d' (js "meta"));
             ScrapedContent.timestamp := now |}.
Proof.
  unfold extractContent.
  rewrite (select_extractor d (js "title")) by extractor_selector.
  assert (exists title,
    title <> [] /\
    (trim (text d (query d (js "title"))) = [] ->
     trim (text d (take 1 (query d (js "h1")))) = [] ->
     title = js "无标题") /\
    match trim (text d (query d (js "title"))) with
    | [] =>
      let? h1 := select d (js "h1") in
      match trim (text d (take 1 h1)) with
      | [] => inr (js "无标题")
      | c :: s => inr (c :: s)
      end
    | c :: s => inr (c :: s)
    end = (inr title : Result jsstring)) as (title & Hne & Hph & ->).
  { destruct (trim (text d (query d (js "title")))) as [|c s] eqn:Ht.
    - rewrite (select_extractor d (js "h1")) by extractor_selector.
      destruct (trim (text d (take 1 (query d (js "h1"))))) as [|c s] eqn:Hh.
      + exists (js "无标题"). split; [by vm_compute|]. done.
      + exists (c :: s). split; [done|]. split; [by intros _ ?|done].
    - exists (c :: s). split; [done|]. split; [by intros ?|done]. }
  destruct (content_loop_total contentSelectors d [])
    as (d1 & content1 & ->);
    [unfold extractor_selectors; intros s Hs; apply elem_of_app; by right|].
  cbn beta iota.
  destruct content1 as [|c1 s1].
  - rewrite (select_extractor d1 documentNoise) by extractor_selector.
    cbn zeta.
    rewrite (select_extractor _ (js "body")) by extractor_selector.
    set (d' := remove d1 (query d1 documentNoise)).
    rewrite (select_extractor d' (js "a[href]")) by extractor_selector.
    rewrite (select_extractor d' (js "img[src]")) by extractor_selector.
    rewrite (select_extractor d' (js "meta")) by extractor_selector.
    by exists title, d', (trim (text d' (query d' (js "body")))).
  - rewrite (select_extractor d1 (js "a[href]")) by extractor_selector.
    rewrite (select_extractor d1 (js "img[src]")) by extractor_selector.
    rewrite (select_extractor d1 (js "meta")) by extractor_selector.
    by exists title, d1, (c1 :: s1).
Qed.

(** What a successful [applyRules] computed. *)
Lemma applyRules_inv registry name content result :
  applyRules registry name content = inr result ->
  exists ruleSet d title extracted links images customData,
    registry !! name = Some ruleSet /\
    rule_document (RuleSet.rules ruleSet) (ScrapedContent.html content) = inr d /\
    rule_title d (RuleSet.rules ruleSet) content = inr title /\
    rule_content d (RuleSet.rules ruleSet) content = inr extracted /\
    rule_refs d (ExtractionRule.links (RuleSet.rules ruleSet)) (js "href")
      (ScrapedContent.url content) (ScrapedContent.links content) = inr links /\
    rule_refs d (ExtractionRule.images (RuleSet.rules ruleSet)) (js "src")
      (ScrapedContent.url content) (ScrapedContent.images content) = inr images /\
    rule_custom d (RuleSet.rules ruleSet) = inr customData /\
    result =
      {| ScrapedContent.url := ScrapedContent.url content;
         ScrapedContent.title := title;
         ScrapedContent.content := cleanText extracted;
         ScrapedContent.html := ScrapedContent.html content;
         ScrapedContent.links := set_spread links;
         ScrapedContent.images := set_spread images;
         ScrapedContent.metadata :=
           <[js "appliedRuleSet" := MString name]>
             (<[js "customData" := MCustomData customData]>
                (ScrapedContent.metadata content));
         ScrapedContent.timestamp := ScrapedContent.timestamp content |}.
Proof.
  unfold applyRules. destruct (registry !! name) as [ruleSet|]; [|done].
  cbn zeta.
  destruct (rule_document _ _) as [?|d] eqn:Hd; [done|].
  destruct (rule_title _ _ _) as [?|title] eqn:Ht; [done|].
  destruct (rule_content _ _ _) as [?|extracted] eqn:Hc; [done|].
  destruct (rule_refs d (ExtractionRule.links _) _ _ _)
    as [?|links] eqn:Hl; [done|].
  destruct (rule_refs d (ExtractionRule.images _) _ _ _)
    as [?|images] eqn:Hi; [done|].
  destruct (rule_custom _ _) as [?|customData] eqn:Hcd; [done|].
  intros [= <-]. by exists ruleSet, d, title, extracted, links, images, customData.
Qed.

Lemma custom_fields_total d customData entries :
  (forall key selector, (key, selector) ∈ entries ->
                        selector_error selector = None) ->
  exists result, custom_fields d customData entries = inr result.
Proof.
  revert customData.
  induction entries as [|[key selector] rest IH]; intros customData Hok; cbn.
  - eauto.
  - unfold select. rewrite (Hok key selector) by left.
    assert (forall k s, (k, s) ∈ rest -> selector_error s = None) as Hrest
      by (intros k s Hks; apply (Hok k); by right).
    destruct (query d selector) as [|e1 [|e2 more]]; by apply IH.
Qed.

Lemma resolved_refs_sound d base attribute elements :
  Forall (resolved_against base) (resolved_refs d base attribute elements).
Proof.
  apply Forall_forall. intros address.
  unfold resolved_refs. rewrite list_elem_of_omap.
  intros (el & _ & Hel). unfold resolved_ref in Hel.
  destruct (truthy _) as [ref|]; [|done].
  destruct (url_resolve ref base) eqn:Hr; [done|].
  injection Hel as ->. by exists ref.
Qed.

Lemma Forall_set_spread (P : jsstring -> Prop) xs :
  Forall P xs -> Forall P (set_spread xs).
Proof.
  rewrite !Forall_forall. intros HP x Hx. apply HP. by apply elem_of_set_spread.
Qed.

Lemma rule_refs_sound d rule attribute base current refs :
  Forall (resolved_against base) current ->
  rule_refs d rule attribute base current = inr refs ->
  Forall (resolved_against base) refs.
Proof.
  unfold rule_refs. intros Hcur. destruct (truthy rule) as [selector|].
  - destruct (select d selector) as [?|matched]; [done|].
    intros [= <-]. apply resolved_refs_sound.
  - by intros [= <-].
Qed.

Lemma collected_resolved_refs d base attribute elements :
  collected base attribute (set_spread (resolved_refs d base attribute elements)).
Proof.
  exists d, elements. intros address.
  rewrite elem_of_set_spread. unfold resolved_refs. apply list_elem_of_omap.
Qed.

Lemma collected_set_spread base attribute refs :
  collected base attribute refs -> collected base attribute (set_spread refs).
Proof.
  intros (d & elements & Hiff). exists d, elements. intros address.
  by rewrite elem_of_set_spread.
Qed.

Lemma rule_refs_collected d rule attribute base current refs :
  collected base attribute current ->
  rule_refs d rule attribute base current = inr refs ->
  collected base attribute (set_spread refs).
Proof.
  unfold rule_refs. intros Hcur. destruct (truthy rule) as [selector|].
  - destruct (select d selector) as [?|matched]; [done|].
    intros [= <-]. apply collected_resolved_refs.
  - intros [= <-]. by apply collected_set_spread.
Qed.

Lemma matches_nothing_title d rules content :
  matches_nothing d (ExtractionRule.title rules) ->
  rule_title d rules content = inr (ScrapedContent.title content).
Proof.
  unfold matches_nothing, rule_title.
  destruct (truthy _) as [selector|]; [|done]. by intros ->.
Qed.

Lemma matches_nothing_content d rules content :
  matches_nothing d (ExtractionRule.content rules) ->
  rule_content d rules content = inr (ScrapedContent.content content).
Proof.
  unfold matches_nothing, rule_content.
  destruct (truthy _) as [selector|]; [|done]. by intros ->.
Qed.

(** C7. [extractContent] returns a record for every document, address and
    markup: no statement of it can throw (its selectors parse, a reference
    [new URL] rejects is skipped). The body text is a string in normal form,
    possibly empty; the title is never empty, and it is the placeholder when
    neither the title element nor the first heading has text. *)
Theorem extractContent_never_fails d url html now :
  exists record,
    extractContent d url html now = inr record /\
    ScrapedContent.url record = url /\
    ScrapedContent.html record = html /\
    ScrapedContent.title record <> [] /\
    (trim (text d (query d (js "title"))) = [] ->
     trim (text d (take 1 (query d (js "h1")))) = [] ->
     ScrapedContent.title record = js "无标题") /\
    cleanText (ScrapedContent.content record) = ScrapedContent.content record.
Proof.
  destruct (extractContent_shape d url html now)
    as (title & d' & content & Hne & Hph & ->).
  eexists. split; [reflexivity|]. cbn.
  repeat split; try done. apply cleanText_idempotent.
Qed.

(** C4. A record of the extractor, put through a registered rule set that
    has no links and no images selector and whose title and content selectors
    match nothing in the document the rule engine reads (the stored markup,
    parsed again, after the exclusions), comes back with the same title and
    the same body text: the title is kept and [cleanText] is the identity on
    text it has normalised. *)
Theorem applyRules_absent_selectors_round_trip
    d url html now record registry name ruleSet queried :
  extractContent d url html now = inr record ->
  registry !! name = Some ruleSet ->
  ExtractionRule.links (RuleSet.rules ruleSet) = None ->
  ExtractionRule.images (RuleSet.rules ruleSet) = None ->
  rule_document (RuleSet.rules ruleSet) (ScrapedContent.html record)
    = inr queried ->
  matches_nothing queried (ExtractionRule.title (RuleSet.rules ruleSet)) ->
  matches_nothing queried (ExtractionRule.content (RuleSet.rules ruleSet)) ->
  custom_selectors_parse (RuleSet.rules ruleSet) ->
  exists result,
    applyRules registry name record = inr result /\
    ScrapedContent.title result = ScrapedContent.title record /\
    ScrapedContent.content result = ScrapedContent.content record.
Proof.
  intros Hex Hreg Hlinks Himages Hdoc Htitle Hcontent Hcustom.
  unfold applyRules. rewrite Hreg. cbn zeta. rewrite Hdoc.
  rewrite (matches_nothing_title _ _ _ Htitle).
  rewrite (matches_nothing_content _ _ _ Hcontent).
  unfold rule_refs. rewrite Hlinks, Himages. cbn [truthy].
  assert (exists customData,
            rule_custom queried (RuleSet.rules ruleSet) = inr customData)
    as [customData ->].
  { unfold rule_custom. unfold custom_selectors_parse in Hcustom.
    destruct (ExtractionRule.custom _) as [entries|]; [|eauto].
    by apply custom_fields_total. }
  eexists. split; [reflexivity|]. cbn. split; [done|].
  destruct (extractContent_shape d url html now)
    as (title & d' & content & _ & _ & Hshape).
  rewrite Hshape in Hex. injection Hex as <-. cbn.
  apply cleanText_idempotent.
Qed.

(** The addresses [resolved_refs] collects: those a non-empty attribute of
    one of the elements resolves to. *)
Lemma elem_of_resolved_refs (d : Dom) (base attribute : jsstring)
    (elements : list Node) (address : jsstring) :
  address ∈ resolved_refs d base attribute elements <->
  exists (element : Node) (ref : jsstring),
    element ∈ elements /\
    attr d element attribute = Some ref /\
    ref <> [] /\
    url_resolve ref base = inr address.
Proof.
  unfold resolved_refs. rewrite list_elem_of_omap. unfold resolved_ref. split.
  - intros (element & Hin & Hres).
    destruct (attr d element attribute) as [[|c ref]|] eqn:Hattr; try done.
    cbn in Hres.
    destruct (url_resolve (c :: ref) base) as [?|href] eqn:Hurl; [done|].
    injection Hres as ->. by exists element, (c :: ref).
  - intros (element & ref & Hin & Hattr & Hne & Hurl).
    exists element. split; [done|]. rewrite Hattr.
    destruct ref as [|c ref]; [done|]. cbn. by rewrite Hurl.
Qed.

(** C5. When a rule set gives a links selector (a non-empty string), the
    links of the resulting record are exactly the addresses that the [href]
    of an element matched by that selector, in the document of the rule
    engine, resolves to against the record's address, each once: an address
    of the input record's links that no matched element gives is gone, and
    when nothing is matched the links are empty. The images selector works
    the same way on [src]. *)
Theorem applyRules_replaces_links_and_images
    registry name ruleSet content result :
  registry !! name = Some ruleSet ->
  applyRules registry name content = inr result ->
  exists queried,
    rule_document (RuleSet.rules ruleSet) (ScrapedContent.html content)
      = inr queried /\
    (forall selector,
       truthy (ExtractionRule.links (RuleSet.rules ruleSet)) = Some selector ->
       exists matched,
         select queried selector = inr matched /\
         NoDup (ScrapedContent.links result) /\
         (forall address : jsstring,
            address ∈ ScrapedContent.links result <->
            exists (element : Node) (ref : jsstring),
              element ∈ matched /\
              attr queried element (js "href") = Some ref /\
              ref <> [] /\
              url_resolve ref (ScrapedContent.url content) = inr address) /\
         (matched = [] -> ScrapedContent.links result = [])) /\
    (forall selector,
       truthy (ExtractionRule.images (RuleSet.rules ruleSet)) = Some selector ->
       exists matched,
         select queried selector = inr matched /\
         NoDup (ScrapedContent.images result) /\
         (forall address : jsstring,
            address ∈ ScrapedContent.images result <->
            exists (element : Node) (ref : jsstring),
              element ∈ matched /\
              attr queried element (js "src") = Some ref /\
              ref <> [] /\
              url_resolve ref (ScrapedContent.url content) = inr address) /\
         (matched = [] -> ScrapedContent.images result = [])).
Proof.
  intros Hreg Hap.
  apply applyRules_inv in Hap
    as (rs & d & title & extracted & links & images & customData
        & Hrs & Hd & _ & _ & Hl & Hi & _ & ->).
  rewrite Hreg in Hrs. injection Hrs as <-.
  exists d. split; [done|]. cbn. unfold rule_refs in Hl, Hi.
  split; intros selector Hsel.
  - rewrite Hsel in Hl.
    destruct (select d selector) as [?|matched]; [done|].
    injection Hl as <-. exists matched. split; [done|].
    split; [apply set_spread_NoDup|]. split.
    + intros address. rewrite elem_of_set_spread. apply elem_of_resolved_refs.
    + by intros ->.
  - rewrite Hsel in Hi.
    destruct (select d selector) as [?|matched]; [done|].
    injection Hi as <-. exists matched. split; [done|].
    split; [apply set_spread_NoDup|]. split.
    + intros address. rewrite elem_of_set_spread. apply elem_of_resolved_refs.
    + by intros ->.
Qed.

(** C6. In every record of the extractor or of the rule engine, [links] and
    [images] have no duplicates, every entry is the result of a successful
    resolution against the record's address, and the entries are exactly the
    resolved references of elements of a document: a reference that is empty
    or that [new URL] rejects leaves no entry, in any form, and a reference
    met several times leaves one. *)
Theorem produced_references_resolved record :
  produced record -> references_resolved record.
Proof.
  induction 1 as [d url html now record Hex
                 |registry name content record _ IH Hap].
  - destruct (extractContent_shape d url html now)
      as (title & d' & body & _ & _ & Hshape).
    rewrite Hshape in Hex. injection Hex as <-.
    unfold references_resolved. cbn.
    split_and!; try apply set_spread_NoDup;
      try (apply Forall_set_spread, resolved_refs_sound);
      apply collected_resolved_refs.
  - destruct IH as (_ & _ & Hl & Hi & Hcl & Hci).
    apply applyRules_inv in Hap
      as (rs & d & title & extracted & links & images & customData
          & _ & _ & _ & _ & Hlinks & Himages & _ & ->).
    unfold references_resolved. cbn.
    split_and!; try apply set_spread_NoDup.
    + apply Forall_set_spread, (rule_refs_sound _ _ _ _ _ _ Hl Hlinks).
    + apply Forall_set_spread, (rule_refs_sound _ _ _ _ _ _ Hi Himages).
    + apply (rule_refs_collected _ _ _ _ _ _ Hcl Hlinks).
    + apply (rule_refs_collected _ _ _ _ _ _ Hci Himages).
Qed.

Lemma getHeaders_setHeaders (domain : jsstring) (headers : Headers)
    (store : gmap jsstring Headers) :
  getHeaders domain (setHeaders domain headers store)
    = headers ∪ getHeaders domain store.
Proof.
  unfold getHeaders, setHeaders, spread2. cbn zeta. by rewrite lookup_insert_eq.
Qed.

(** ** Header manager *)

(** C10. [setHeaders] merges: afterwards [getHeaders] of the same domain is
    the union of the new headers and the headers held before, the new value
    winning on a key of both; a key the new headers lack keeps its entry, so
    no key is lost. *)
Theorem setHeaders_merges (domain : jsstring) (headers : Headers)
    (store : gmap jsstring Headers) :
  getHeaders domain (setHeaders domain headers store)
    = headers ∪ getHeaders domain store /\
  (forall key value,
     headers !! key = Some value ->
     getHeaders domain (setHeaders domain headers store) !! key = Some value) /\
  (forall key,
     headers !! key = None ->
     getHeaders domain (setHeaders domain headers store) !! key
       = getHeaders domain store !! key) /\
  (forall key,
     is_Some (getHeaders domain store !! key) ->
     is_Some (getHeaders domain (setHeaders domain headers store) !! key)).
Proof.
  rewrite getHeaders_setHeaders. split; [done|]. split_and!.
  - intros key value Hk. by apply lookup_union_Some_l.
  - intros key Hk. by apply lookup_union_r.
  - intros key Hk. apply lookup_union_is_Some. by right.
Qed.

End ExtractionFacts.

(** ** Reasoning about the state monad *)

Section MonadFacts.
Context `{Cheerio} `{Runtime} `{World} `{Formatters}.

Section Preserves.
Context (R : relation Sys) `{!PreOrder R}.

Lemma preserves_ret {A} (a : A) : preserves R (ret a).
Proof. intros s. reflexivity. Qed.

Lemma preserves_throw {A} err : preserves R (throw err : M A).
Proof. intros s. reflexivity. Qed.

Lemma preserves_lift {A} (r : Result A) : preserves R (lift r).
Proof. intros s. reflexivity. Qed.

Lemma preserves_gets {A} (f : Sys -> A) : preserves R (gets f).
Proof. intros s. reflexivity. Qed.

Lemma preserves_bind {A B} (m : M A) (k : A -> M B) :
  preserves R m -> (forall a, preserves R (k a)) -> preserves R (bind m k).
Proof.
  intros Hm Hk s. unfold bind. specialize (Hm s).
  destruct (m s) as [[err|a] s1]; [done|].
  etrans; [exact Hm|]. apply Hk.
Qed.

Lemma preserves_try_catch {A} (body : M A) handler :
  preserves R body -> (forall err, preserves R (handler err)) ->
  preserves R (try_catch body handler).
Proof.
  intros Hb Hh s. unfold try_catch. specialize (Hb s).
  destruct (body s) as [[err|a] s1]; [|done].
  etrans; [exact Hb|]. apply Hh.
Qed.

Lemma preserves_finally {A} (body : M A) cleanup :
  preserves R body -> preserves R cleanup -> preserves R (finally body cleanup).
Proof.
  intros Hb Hc s. unfold finally. specialize (Hb s).
  destruct (body s) as [outcome s1]. specialize (Hc s1).
  destruct (cleanup s1) as [[err|[]] s2]; cbn in *; by etrans.
Qed.

Lemma preserves_modify f : (forall s, R s (f s)) -> preserves R (modify f).
Proof. intros Hf s. apply Hf. Qed.

Lemma preserves_emit e :
  (forall s, R s (with_trace (trace s ++ [e]) s)) -> preserves R (emit e).
Proof. intros He s. apply He. Qed.

Lemma preserves_external {A} (call : W -> Result A * W) :
  (forall s w, R s (with_world w s)) -> preserves R (external call).
Proof.
  intros Hw s. unfold external. destruct (call (world s)) as [r w]. apply Hw.
Qed.

Lemma preserves_when b m : preserves R m -> preserves R (when b m).
Proof. intros Hm. destruct b; [done|]. apply preserves_ret. Qed.

End Preserves.

#[global] Instance emits_preorder P : PreOrder (emits P).
Proof.
  split.
  - intros s. exists []. by rewrite app_nil_r.
  - intros s1 s2 s3 (evs1 & E1 & F1) (evs2 & E2 & F2).
    exists (evs1 ++ evs2). rewrite E2, E1, app_assoc. split; [done|].
    by apply Forall_app.
Qed.

#[global] Instance same_registries_preorder : PreOrder same_registries.
Proof.
  split; [by intros s|].
  intros s1 s2 s3 [E1 F1] [E2 F2]. split; congruence.
Qed.

#[global] Instance same_session_preorder : PreOrder same_session.
Proof.
  split; [by intros s|].
  intros s1 s2 s3 [E1 F1] [E2 F2]. split; congruence.
Qed.

Lemma emits_silent P f :
  (forall s, trace (f s) = trace s) -> forall s, emits P s (f s).
Proof. intros Hf s. exists []. by rewrite Hf, app_nil_r. Qed.

Lemma emits_one (P : Event -> Prop) e :
  P e -> forall s, emits P s (with_trace (trace s ++ [e]) s).
Proof. intros He s. exists [e]. split; [done|]. by constructor. Qed.

End MonadFacts.

(** Splits a goal [preserves R m] along the structure of [m]; what is left
    are the primitive steps. *)
Ltac preserve_step :=
  lazymatch goal with
  | |- preserves ?R (ret _) => apply (preserves_ret R)
  | |- preserves ?R (throw _) => apply (preserves_throw R)
  | |- preserves ?R (lift _) => apply (preserves_lift R)
  | |- preserves ?R (gets _) => apply (preserves_gets R)
  | |- preserves ?R (bind _ _) => apply (preserves_bind R); [|intros ?]
  | |- preserves ?R (try_catch _ _) =>
    apply (preserves_try_catch R); [|intros ?]
  | |- preserves ?R (finally _ _) => apply (preserves_finally R)
  | |- preserves ?R (when _ _) => apply (preserves_when R)
  | |- preserves ?R (emit _) => apply (preserves_emit R)
  | |- preserves ?R (modify _) => apply (preserves_modify R)
  | |- preserves ?R (external _) => apply (preserves_external R)
  | |- preserves _ (match ?x with _ => _ end) => destruct x
  end.

Ltac preserve := repeat preserve_step.

(** ** Calls in progress *)

Section PromiseFacts.
Context `{Cheerio} `{Runtime} `{World} `{Formatters}.

(** *** The size of the pool *)

Lemma start_length {A} (promises : list (Async.Promise A)) s :
  length (Async.start promises s).1 = length promises.
Proof.
  revert s. induction promises as [|t rest IH]; intros s; cbn; [done|].
  destruct (Async.proceed _ t s) as [call s1].
  specialize (IH s1). destruct (Async.start rest s1) as [calls s2].
  cbn in *. by rewrite IH.
Qed.

Lemma turn_length {A} i (pool : list (Async.Call A)) s :
  length (Async.turn i pool s).1 = length pool.
Proof.
  unfold Async.turn. destruct (pool !! i) as [call|]; [|done].
  destruct (Async.resume call s) as [call' s']. cbn.
  apply length_insert.
Qed.

Lemma turns_length {A} schedule (pool : list (Async.Call A)) s :
  length (Async.turns schedule pool s).1 = length pool.
Proof.
  revert pool s. induction schedule as [|i rest IH]; intros pool s; cbn; [done|].
  pose proof (turn_length i pool s) as Hlen.
  destruct (Async.turn i pool s) as [pool' s']. cbn in Hlen.
  by rewrite IH.
Qed.

Lemma drain_length {A} (pool : list (Async.Call A)) s :
  length (Async.drain pool s).1 = length pool.
Proof.
  revert s. induction pool as [|call rest IH]; intros s; cbn; [done|].
  destruct (Async.complete _ _) as [outcome s1].
  specialize (IH s1). destruct (Async.drain rest s1) as [outcomes s2].
  cbn in *. by rewrite IH.
Qed.

Lemma settle_all_length {A} schedule (promises : list (Async.Promise A)) s :
  length (Async.settle_all schedule promises s).1 = length promises.
Proof.
  unfold Async.settle_all.
  pose proof (start_length promises s) as Hstart.
  destruct (Async.start promises s) as [pool s1].
  pose proof (turns_length schedule pool s1) as Hturns.
  destruct (Async.turns schedule pool s1) as [pool' s2].
  cbn in *. rewrite drain_length. congruence.
Qed.

(** *** A call that runs alone *)

Lemma complete_settle {A B} (t : Async.Promise A)
    (k : Result A -> Async.Promise B) s :
  Async.complete (Async.settle t k) s
  = Async.complete (k (Async.complete t s).1) (Async.complete t s).2.
Proof.
  revert s. induction t as [outcome|X segment rest IH|rest IH]; intros s; cbn;
    [done| |apply IH].
  destruct (segment s) as [r s1]. apply IH.
Qed.

Lemma runs_as_pure {A} (a : A) : runs_as (Async.pure a) (ret a).
Proof. by intros s. Qed.

Lemma runs_as_raise {A} err :
  runs_as (Async.raise err : Async.Promise A) (throw err).
Proof. by intros s. Qed.

Lemma runs_as_sync {A} (m : M A) : runs_as (Async.sync m) m.
Proof. intros s. cbn. by destruct (m s). Qed.

Lemma runs_as_await {A} (m : M A) : runs_as (Async.await m) m.
Proof. intros s. cbn. by destruct (m s). Qed.

Lemma runs_as_awaited {A} (t : Async.Promise A) m :
  runs_as t m -> runs_as (Async.awaited t) m.
Proof.
  intros Ht s. unfold Async.awaited. rewrite complete_settle, Ht. cbn.
  by destruct (m s).
Qed.

Lemma runs_as_andThen {A B} (t : Async.Promise A) m
    (k : A -> Async.Promise B) k' :
  runs_as t m -> (forall a, runs_as (k a) (k' a)) ->
  runs_as (Async.andThen t k) (bind m k').
Proof.
  intros Ht Hk s. unfold Async.andThen, bind.
  rewrite complete_settle, Ht. destruct (m s) as [[err|a] s1]; cbn; [done|].
  apply Hk.
Qed.

Lemma runs_as_catch {A} (body : Async.Promise A) m handler handler' :
  runs_as body m -> (forall err, runs_as (handler err) (handler' err)) ->
  runs_as (Async.catch body handler) (try_catch m handler').
Proof.
  intros Hb Hh s. unfold Async.catch, try_catch.
  rewrite complete_settle, Hb. destruct (m s) as [[err|a] s1]; cbn; [|done].
  apply Hh.
Qed.

Lemma runs_as_ensuring {A} (body : Async.Promise A) m cleanup cleanup' :
  runs_as body m -> runs_as cleanup cleanup' ->
  runs_as (Async.ensuring body cleanup) (finally m cleanup').
Proof.
  intros Hb Hc s. unfold Async.ensuring, finally.
  rewrite complete_settle, <- (Hb s).
  destruct (Async.complete body s) as [outcome s1]. cbn.
  rewrite complete_settle, <- (Hc s1).
  by destruct (Async.complete cleanup s1) as [[err|[]] s2].
Qed.

Lemma runs_as_whenever b t m :
  runs_as t m -> runs_as (Async.whenever b t) (when b m).
Proof. intros Ht. destruct b; [done|]. apply runs_as_pure. Qed.

(** *** What every segment respects *)

Section Respects.
Context (Inv : Sys -> Prop) (R : relation Sys).

Lemma respects_settle {A B} (t : Async.Promise A)
    (k : Result A -> Async.Promise B) :
  respects Inv R t -> (forall outcome, respects Inv R (k outcome)) ->
  respects Inv R (Async.settle t k).
Proof.
  intros Ht Hk. induction t as [outcome|X segment rest IH|rest IH]; cbn in *.
  - apply Hk.
  - intros s Hs. destruct (Ht s Hs) as [HR Hrest]. split; [done|].
    by apply IH.
  - by apply IH.
Qed.

Lemma respects_andThen {A B} (t : Async.Promise A) (k : A -> Async.Promise B) :
  respects Inv R t -> (forall a, respects Inv R (k a)) ->
  respects Inv R (Async.andThen t k).
Proof.
  intros Ht Hk. apply respects_settle; [done|]. by intros [err|a].
Qed.

Lemma respects_catch {A} (body : Async.Promise A) handler :
  respects Inv R body -> (forall err, respects Inv R (handler err)) ->
  respects Inv R (Async.catch body handler).
Proof.
  intros Hb Hh. apply respects_settle; [done|]. by intros [err|a].
Qed.

Lemma respects_ensuring {A} (body : Async.Promise A) cleanup :
  respects Inv R body -> respects Inv R cleanup ->
  respects Inv R (Async.ensuring body cleanup).
Proof.
  intros Hb Hc. apply respects_settle; [done|]. intros outcome.
  apply respects_settle; [done|]. by intros [err|[]].
Qed.

Lemma respects_awaited {A} (call : Async.Promise A) :
  respects Inv R call -> respects Inv R (Async.awaited call).
Proof. intros Hc. by apply respects_settle. Qed.

Lemma respects_whenever b t :
  respects Inv R t -> respects Inv R (Async.whenever b t).
Proof. by destruct b. Qed.

Lemma respects_sync {A} (segment : M A) :
  preserves R segment -> respects Inv R (Async.sync segment).
Proof. intros Hm s _. split; [apply Hm|done]. Qed.

Lemma respects_await {A} (operation : M A) :
  preserves R operation -> respects Inv R (Async.await operation).
Proof. intros Hm s _. split; [apply Hm|done]. Qed.

End Respects.

Lemma respects_weaken {A} (Inv Inv' : Sys -> Prop) (R R' : relation Sys)
    (t : Async.Promise A) :
  (forall s, Inv' s -> Inv s) -> (forall s s', R s s' -> R' s s') ->
  respects Inv R t -> respects Inv' R' t.
Proof.
  intros HI HR. induction t as [outcome|X segment rest IH|rest IH]; cbn;
    [done| |done].
  intros Ht s Hs. destruct (Ht s (HI s Hs)) as [Hstep Hrest].
  split; [by apply HR|]. by apply IH.
Qed.

Lemma respects_and {A} (Inv : Sys -> Prop) (R1 R2 : relation Sys)
    (t : Async.Promise A) :
  respects Inv R1 t -> respects Inv R2 t ->
  respects Inv (fun s s' => R1 s s' /\ R2 s s') t.
Proof.
  induction t as [outcome|X segment rest IH|rest IH]; cbn; [done| |done].
  intros H1' H2' s Hs. destruct (H1' s Hs) as [Ha Hb].
  destruct (H2' s Hs) as [Hc Hd]. split; [done|]. by apply IH.
Qed.

(** The event loop keeps what every segment respects: however the calls
    take their turns, the state they leave is related to the one they
    started from. *)
Section Scheduler.
Context (Inv : Sys -> Prop) (R : relation Sys) `{!PreOrder R}.
Hypothesis Inv_stable : forall s s', Inv s -> R s s' -> Inv s'.
Hypothesis install_R : forall frame s, R s (Async.install frame s).

Lemma advance_respects {A} (t : Async.Promise A) s :
  respects Inv R t -> Inv s ->
  R s (Async.advance t s).2 /\ respects Inv R (Async.advance t s).1.
Proof.
  revert s. induction t as [outcome|X segment rest IH|rest IH];
    intros s Ht Hs; cbn in *.
  - split; [reflexivity|done].
  - destruct (Ht s Hs) as [Hstep Hrest].
    destruct (segment s) as [r s1]. cbn in *.
    destruct (IH r s1 Hrest (Inv_stable _ _ Hs Hstep)) as [HR Hafter].
    split; [by etrans|done].
  - split; [reflexivity|done].
Qed.

Lemma complete_respects {A} (t : Async.Promise A) s :
  respects Inv R t -> Inv s -> R s (Async.complete t s).2.
Proof.
  revert s. induction t as [outcome|X segment rest IH|rest IH];
    intros s Ht Hs; cbn in *.
  - reflexivity.
  - destruct (Ht s Hs) as [Hstep Hrest].
    destruct (segment s) as [r s1]. cbn in *.
    etrans; [exact Hstep|]. apply IH; [done|]. by apply (Inv_stable s).
  - by apply IH.
Qed.

Lemma proceed_respects {A} frame (t : Async.Promise A) s :
  respects Inv R t -> Inv s ->
  R s (Async.proceed frame t s).2 /\
  respects Inv R (Async.proceed frame t s).1.2.
Proof.
  intros Ht Hs. unfold Async.proceed.
  destruct (advance_respects t (Async.install frame s) Ht
              (Inv_stable _ _ Hs (install_R frame s))) as [HR Hafter].
  destruct (Async.advance t (Async.install frame s)) as [t' s'].
  cbn in *. split; [|done]. etrans; [apply install_R|exact HR].
Qed.

Lemma resume_respects {A} (call : Async.Call A) s :
  respects Inv R call.2 -> Inv s ->
  R s (Async.resume call s).2 /\ respects Inv R (Async.resume call s).1.2.
Proof.
  intros Ht Hs. unfold Async.resume.
  destruct call as [frame [outcome|X segment rest|rest]]; cbn in *;
    [by split| by split|].
  by apply proceed_respects.
Qed.

Lemma start_respects {A} (promises : list (Async.Promise A)) s :
  Forall (respects Inv R) promises -> Inv s ->
  R s (Async.start promises s).2 /\
  Forall (fun call => respects Inv R call.2) (Async.start promises s).1.
Proof.
  intros Hpromises. revert s.
  induction Hpromises as [|t rest Ht _ IH]; intros s Hs; cbn.
  - split; [reflexivity|constructor].
  - destruct (proceed_respects (Async.MkFrame None None) t s Ht Hs)
      as [HR Hcall].
    destruct (Async.proceed _ t s) as [call s1]. cbn in *.
    destruct (IH s1 (Inv_stable _ _ Hs HR)) as [HR' Hcalls].
    destruct (Async.start rest s1) as [calls s2]. cbn in *.
    split; [by etrans|by constructor].
Qed.

Lemma turn_respects {A} i (pool : list (Async.Call A)) s :
  Forall (fun call => respects Inv R call.2) pool -> Inv s ->
  R s (Async.turn i pool s).2 /\
  Forall (fun call => respects Inv R call.2) (Async.turn i pool s).1.
Proof.
  intros Hpool Hs. unfold Async.turn.
  destruct (pool !! i) as [call|] eqn:Hcall; [|by split].
  destruct (resume_respects call s (Forall_lookup_1 _ _ _ _ Hpool Hcall) Hs)
    as [HR Hcall'].
  destruct (Async.resume call s) as [call' s']. cbn in *.
  split; [done|]. by apply Forall_insert.
Qed.

Lemma turns_respects {A} schedule (pool : list (Async.Call A)) s :
  Forall (fun call => respects Inv R call.2) pool -> Inv s ->
  R s (Async.turns schedule pool s).2 /\
  Forall (fun call => respects Inv R call.2) (Async.turns schedule pool s).1.
Proof.
  revert pool s. induction schedule as [|i rest IH]; intros pool s Hpool Hs;
    cbn.
  - split; [reflexivity|done].
  - destruct (turn_respects i pool s Hpool Hs) as [HR Hpool'].
    destruct (Async.turn i pool s) as [pool' s']. cbn in *.
    destruct (IH pool' s' Hpool' (Inv_stable _ _ Hs HR)) as [HR' Hafter].
    split; [by etrans|done].
Qed.

Lemma drain_respects {A} (pool : list (Async.Call A)) s :
  Forall (fun call => respects Inv R call.2) pool -> Inv s ->
  R s (Async.drain pool s).2.
Proof.
  intros Hpool. revert s.
  induction Hpool as [|call rest Hcall _ IH]; intros s Hs; cbn.
  - reflexivity.
  - pose proof (complete_respects call.2 (Async.install call.1 s) Hcall
                  (Inv_stable _ _ Hs (install_R call.1 s))) as HR.
    destruct (Async.complete call.2 (Async.install call.1 s))
      as [outcome s1]. cbn in *.
    assert (R s s1) as Hstep by (etrans; [apply install_R|exact HR]).
    specialize (IH s1 (Inv_stable _ _ Hs Hstep)).
    destruct (Async.drain rest s1) as [outcomes s2]. cbn in *.
    by etrans.
Qed.

Lemma settle_all_respects {A} schedule (promises : list (Async.Promise A)) s :
  Forall (respects Inv R) promises -> Inv s ->
  R s (Async.settle_all schedule promises s).2.
Proof.
  intros Hpromises Hs. unfold Async.settle_all.
  destruct (start_respects promises s Hpromises Hs) as [HR Hpool].
  destruct (Async.start promises s) as [pool s1]. cbn in *.
  destruct (turns_respects schedule pool s1 Hpool (Inv_stable _ _ Hs HR))
    as [HR' Hpool'].
  destruct (Async.turns schedule pool s1) as [pool' s2]. cbn in *.
  assert (R s s2) as Hstep by (by etrans).
  etrans; [exact Hstep|].
  apply drain_respects; [done|]. by apply (Inv_stable s).
Qed.

End Scheduler.

(** *** How a call can settle *)

Lemma settles_in_settle {A B} (P : Result A -> Prop) (Q : Result B -> Prop)
    (t : Async.Promise A) (k : Result A -> Async.Promise B) :
  settles_in P t -> (forall outcome, P outcome -> settles_in Q (k outcome)) ->
  settles_in Q (Async.settle t k).
Proof.
  intros Ht Hk. induction t as [outcome|X segment rest IH|rest IH]; cbn in *.
  - by apply Hk.
  - intros s. by apply IH.
  - by apply IH.
Qed.

Lemma settles_in_any {A} (t : Async.Promise A) : settles_in (fun _ => True) t.
Proof. induction t as [outcome|X segment rest IH|rest IH]; cbn; auto. Qed.

Lemma advance_settles_in {A} (P : Result A -> Prop) (t : Async.Promise A) s :
  settles_in P t -> settles_in P (Async.advance t s).1.
Proof.
  revert s. induction t as [outcome|X segment rest IH|rest IH];
    intros s Ht; cbn in *; [done| |done].
  specialize (Ht s). destruct (segment s) as [r s1]. by apply IH.
Qed.

Lemma complete_settles_in {A} (P : Result A -> Prop) (t : Async.Promise A) s :
  settles_in P t -> P (Async.complete t s).1.
Proof.
  revert s. induction t as [outcome|X segment rest IH|rest IH];
    intros s Ht; cbn in *; [done| |by apply IH].
  specialize (Ht s). destruct (segment s) as [r s1]. by apply IH.
Qed.

Lemma start_settles_in {A} (P : Result A -> Prop)
    (promises : list (Async.Promise A)) s :
  Forall (settles_in P) promises ->
  Forall (fun call => settles_in P call.2) (Async.start promises s).1.
Proof.
  intros Hpromises. revert s.
  induction Hpromises as [|t rest Ht _ IH]; intros s; cbn; [constructor|].
  unfold Async.proceed.
  pose proof (advance_settles_in P t
                (Async.install (Async.MkFrame None None) s) Ht) as Hcall.
  destruct (Async.advance t _) as [t' s1]. cbn in *.
  specialize (IH s1). destruct (Async.start rest s1) as [calls s2].
  by constructor.
Qed.

Lemma turns_settles_in {A} (P : Result A -> Prop) schedule
    (pool : list (Async.Call A)) s :
  Forall (fun call => settles_in P call.2) pool ->
  Forall (fun call => settles_in P call.2) (Async.turns schedule pool s).1.
Proof.
  revert pool s. induction schedule as [|i rest IH]; intros pool s Hpool;
    cbn; [done|].
  unfold Async.turn.
  destruct (pool !! i) as [call|] eqn:Hcall; [|by apply IH].
  pose proof (Forall_lookup_1 _ _ _ _ Hpool Hcall) as Hthis.
  unfold Async.resume.
  destruct call as [frame [outcome|X segment rest'|rest']]; cbn in *.
  - apply IH. by apply Forall_insert.
  - apply IH. by apply Forall_insert.
  - unfold Async.proceed.
    pose proof (advance_settles_in P rest' (Async.install frame s) Hthis)
      as Hnext.
    destruct (Async.advance rest' _) as [t' s1]. cbn in *.
    apply IH. by apply Forall_insert.
Qed.

Lemma drain_settles_in {A} (P : Result A -> Prop)
    (pool : list (Async.Call A)) s :
  Forall (fun call => settles_in P call.2) pool ->
  Forall P (Async.drain pool s).1.
Proof.
  intros Hpool. revert s.
  induction Hpool as [|call rest Hcall _ IH]; intros s; cbn; [constructor|].
  pose proof (complete_settles_in P call.2 (Async.install call.1 s) Hcall)
    as Hout.
  destruct (Async.complete call.2 _) as [outcome s1]. cbn in *.
  specialize (IH s1). destruct (Async.drain rest s1) as [outcomes s2].
  by constructor.
Qed.

Lemma settle_all_settles_in {A} (P : Result A -> Prop) schedule
    (promises : list (Async.Promise A)) s :
  Forall (settles_in P) promises ->
  Forall P (Async.settle_all schedule promises s).1.
Proof.
  intros Hpromises. unfold Async.settle_all.
  pose proof (start_settles_in P promises s Hpromises) as Hpool.
  destruct (Async.start promises s) as [pool s1]. cbn in *.
  pose proof (turns_settles_in P schedule pool s1 Hpool) as Hpool'.
  destruct (Async.turns schedule pool s1) as [pool' s2]. cbn in *.
  by apply drain_settles_in.
Qed.

(** *** Calls that differ in their outcome only *)

Lemma mirrors_settle {A B C} (f : Result A -> Result C)
    (g : Result A -> Async.Promise B) (h : Result B -> Async.Promise C)
    (t : Async.Promise A) :
  (forall outcome,
     Async.settle (g outcome) h = Async.Return (f outcome)) ->
  mirrors f t (Async.settle (Async.settle t g) h).
Proof.
  intros Hf. induction t as [outcome|X segment rest IH|rest IH]; cbn.
  - rewrite Hf. constructor.
  - constructor. apply IH.
  - by constructor.
Qed.

Lemma advance_mirrors {A B} (f : Result A -> Result B) t t' s :
  mirrors f t t' ->
  (Async.advance t' s).2 = (Async.advance t s).2 /\
  mirrors f (Async.advance t s).1 (Async.advance t' s).1.
Proof.
  intros Hm. revert s.
  induction Hm as [outcome|X segment rest rest' _ IH|t t' Hm _]; intros s;
    cbn.
  - split; [done|constructor].
  - destruct (segment s) as [r s1]. apply IH.
  - split; [done|by constructor].
Qed.

Lemma complete_mirrors {A B} (f : Result A -> Result B) t t' s :
  mirrors f t t' ->
  Async.complete t' s = (f (Async.complete t s).1, (Async.complete t s).2).
Proof.
  intros Hm. revert s.
  induction Hm as [outcome|X segment rest rest' _ IH|t t' _ IH]; intros s;
    cbn.
  - done.
  - destruct (segment s) as [r s1]. apply IH.
  - apply IH.
Qed.

Section Mirrors.
Context {A B K : Type} (F : K -> Result A -> Result B).

Lemma proceed_mirrors key frame t t' s :
  mirrors (F key) t t' ->
  (Async.proceed frame t' s).2 = (Async.proceed frame t s).2 /\
  paired (F key) (Async.proceed frame t s).1 (Async.proceed frame t' s).1.
Proof.
  intros Hm. unfold Async.proceed.
  destruct (advance_mirrors (F key) t t' (Async.install frame s) Hm)
    as [Hs Hafter].
  destruct (Async.advance t _) as [u s1].
  destruct (Async.advance t' _) as [u' s1']. cbn in *. subst s1'.
  by repeat split.
Qed.

Lemma resume_mirrors key call call' s :
  paired (F key) call call' ->
  (Async.resume call' s).2 = (Async.resume call s).2 /\
  paired (F key) (Async.resume call s).1 (Async.resume call' s).1.
Proof.
  destruct call as [frame t], call' as [frame' t'].
  intros [Hframe Hm]. cbn in Hframe, Hm. subst frame'.
  unfold Async.resume. destruct Hm as [outcome|X segment rest rest' Hm|t t' Hm];
    cbn [fst snd].
  - by repeat constructor.
  - split; [done|]. split; [done|]. by constructor.
  - by apply proceed_mirrors.
Qed.

Lemma start_mirrors keys promises promises' s :
  Forall3 (fun key t t' => mirrors (F key) t t') keys promises promises' ->
  (Async.start promises' s).2 = (Async.start promises s).2 /\
  Forall3 (fun key => paired (F key)) keys
    (Async.start promises s).1 (Async.start promises' s).1.
Proof.
  intros Hall. revert s.
  induction Hall as [|key t t' keys promises promises' Hm _ IH]; intros s; cbn.
  - split; [done|constructor].
  - destruct (proceed_mirrors key (Async.MkFrame None None) t t' s Hm)
      as [Hs Hcall].
    destruct (Async.proceed _ t s) as [call s1].
    destruct (Async.proceed _ t' s) as [call' s1']. cbn in *. subst s1'.
    destruct (IH s1) as [Hs' Hcalls].
    destruct (Async.start promises s1) as [calls s2].
    destruct (Async.start promises' s1) as [calls' s2']. cbn in *. subst s2'.
    split; [done|by constructor].
Qed.

Lemma Forall3_insert_paired keys (pool : list (Async.Call A))
    (pool' : list (Async.Call B)) i key call call' :
  Forall3 (fun key => paired (F key)) keys pool pool' ->
  keys !! i = Some key -> paired (F key) call call' ->
  Forall3 (fun key => paired (F key)) keys (<[i:=call]> pool)
    (<[i:=call']> pool').
Proof.
  intros Hall. revert i.
  induction Hall as [|key0 c c' keys pool pool' Hc Htail IH];
    intros i Hkey Hnew;
    [done|].
  destruct i as [|i]; cbn in *.
  - injection Hkey as ->. by constructor.
  - constructor; [done|]. by apply IH.
Qed.

Lemma turn_mirrors keys i pool pool' s :
  Forall3 (fun key => paired (F key)) keys pool pool' ->
  (Async.turn i pool' s).2 = (Async.turn i pool s).2 /\
  Forall3 (fun key => paired (F key)) keys
    (Async.turn i pool s).1 (Async.turn i pool' s).1.
Proof.
  intros Hall. unfold Async.turn.
  destruct (pool !! i) as [call|] eqn:Hcall.
  - destruct (Forall3_lookup_m _ _ _ _ _ _ Hall Hcall)
      as (key & call' & Hkey & Hcall' & Hpair).
    rewrite Hcall'.
    destruct (resume_mirrors key call call' s Hpair) as [Hs Hafter].
    destruct (Async.resume call s) as [c s1].
    destruct (Async.resume call' s) as [c' s1']. cbn in *. subst s1'.
    split; [done|]. by apply (Forall3_insert_paired _ _ _ _ key).
  - destruct (pool' !! i) as [call'|] eqn:Hcall'; [|done].
    destruct (Forall3_lookup_r _ _ _ _ _ _ Hall Hcall')
      as (key & call & _ & Hlook & _).
    congruence.
Qed.

Lemma turns_mirrors keys schedule pool pool' s :
  Forall3 (fun key => paired (F key)) keys pool pool' ->
  (Async.turns schedule pool' s).2 = (Async.turns schedule pool s).2 /\
  Forall3 (fun key => paired (F key)) keys
    (Async.turns schedule pool s).1 (Async.turns schedule pool' s).1.
Proof.
  revert pool pool' s.
  induction schedule as [|i rest IH]; intros pool pool' s Hall; cbn; [done|].
  destruct (turn_mirrors keys i pool pool' s Hall) as [Hs Hafter].
  destruct (Async.turn i pool s) as [p s1].
  destruct (Async.turn i pool' s) as [p' s1']. cbn in *. subst s1'.
  by apply IH.
Qed.

Lemma drain_mirrors keys pool pool' s :
  Forall3 (fun key => paired (F key)) keys pool pool' ->
  Async.drain pool' s =
  (zip_with F keys (Async.drain pool s).1, (Async.drain pool s).2).
Proof.
  intros Hall. revert s.
  induction Hall as [|key call call' keys pool pool' [Hframe Hm] _ IH];
    intros s; cbn; [done|].
  rewrite Hframe, (complete_mirrors (F key) _ _ _ Hm).
  destruct (Async.complete call.2 _) as [outcome s1]. cbn [fst snd].
  rewrite IH. by destruct (Async.drain pool s1) as [outcomes s2].
Qed.

(** Calls that mirror others settle with the mirrored outcomes, position by
    position, and leave the same state, whatever the schedule. *)
Lemma settle_all_mirrors keys schedule promises promises' s :
  Forall3 (fun key t t' => mirrors (F key) t t') keys promises promises' ->
  Async.settle_all schedule promises' s =
  (zip_with F keys (Async.settle_all schedule promises s).1,
   (Async.settle_all schedule promises s).2).
Proof.
  intros Hall. unfold Async.settle_all.
  destruct (start_mirrors keys promises promises' s Hall) as [Hs Hpool].
  destruct (Async.start promises s) as [pool s1].
  destruct (Async.start promises' s) as [pool' s1']. cbn in *. subst s1'.
  destruct (turns_mirrors keys schedule pool pool' s1 Hpool) as [Hs' Hafter].
  destruct (Async.turns schedule pool s1) as [p s2].
  destruct (Async.turns schedule pool' s1) as [p' s2']. cbn in *. subst s2'.
  by apply drain_mirrors.
Qed.

End Mirrors.

(** *** Sessions owed by the calls in progress *)

Lemma total_insert (debts : list nat) i n m :
  debts !! i = Some n -> (m <= n)%nat ->
  (total (<[i:=m]> debts) + (n - m) = total debts)%nat.
Proof.
  revert i. induction debts as [|d rest IH]; intros [|i] Hi Hle; cbn in *;
    try done.
  - injection Hi as ->. lia.
  - rewrite <- (IH i Hi Hle). symmetry. apply Nat.add_assoc.
Qed.

Lemma total_replicate k n : total (replicate k n) = (k * n)%nat.
Proof. induction k as [|k IH]; cbn; [done|]. by rewrite IH. Qed.

Section Owes.
Context (Pre Inv : Sys -> Prop).
Hypothesis Pre_Inv : forall s, Pre s -> Inv s.
Hypothesis install_Pre :
  forall s, Pre s -> Pre (Async.install (Async.MkFrame None None) s).
Hypothesis install_Inv : forall frame s, Inv s -> Inv (Async.install frame s).

Lemma owes_settle {A B} n (t : Async.Promise A)
    (k : Result A -> Async.Promise B) :
  owes Inv n t -> (forall outcome, owes Inv 0 (k outcome)) ->
  owes Inv n (Async.settle t k).
Proof.
  intros Ht Hk. revert n Ht.
  induction t as [outcome|X segment rest IH|rest IH]; intros n Ht; cbn in *.
  - subst n. apply Hk.
  - intros s Hs. destruct (Ht s Hs) as (count & Hle & Hcount & Hinv & Hrest).
    exists count. split_and!; try done. by apply IH.
  - by apply IH.
Qed.

Lemma starts_settle {A B} n (t : Async.Promise A)
    (k : Result A -> Async.Promise B) :
  starts Pre Inv n t -> (forall outcome, owes Inv 0 (k outcome)) ->
  starts Pre Inv n (Async.settle t k).
Proof.
  intros Ht Hk.
  induction t as [outcome|X segment rest IH|rest IH]; cbn in *.
  - done.
  - intros s Hs. destruct (Ht s Hs) as [Hpre Hrest]. split; [done|].
    by apply IH.
  - by apply owes_settle.
Qed.

Lemma owes_of_respects {A} (R : relation Sys) (t : Async.Promise A) :
  (forall s s', Inv s -> R s s' -> Inv s' /\ sessions s' = sessions s) ->
  respects Inv R t -> owes Inv 0 t.
Proof.
  intros HR. induction t as [outcome|X segment rest IH|rest IH]; cbn;
    [done| |done].
  intros Ht s Hs. destruct (Ht s Hs) as [Hstep Hrest].
  destruct (HR _ _ Hs Hstep) as [Hinv Hsame].
  exists 0%nat. split_and!; [lia|lia|done|by apply IH].
Qed.

Lemma advance_owes {A} n (t : Async.Promise A) s :
  owes Inv n t -> Inv s ->
  exists count,
    (count <= n)%nat /\
    sessions (Async.advance t s).2 = (sessions s + count)%nat /\
    Inv (Async.advance t s).2 /\
    owes Inv (n - count) (Async.advance t s).1.
Proof.
  revert n s. induction t as [outcome|X segment rest IH|rest IH];
    intros n s Ht Hs; cbn in *.
  - exists 0%nat. subst n. split_and!; [lia|lia|done|done].
  - destruct (Ht s Hs) as (c1 & Hle & Hc & Hinv & Hrest).
    destruct (segment s) as [r s1]. cbn in *.
    destruct (IH r (n - c1)%nat s1 Hrest Hinv)
      as (c2 & Hle2 & Hc2 & Hinv2 & Hrest2).
    exists (c1 + c2)%nat. split_and!; [lia|lia|done|].
    by replace (n - (c1 + c2))%nat with (n - c1 - c2)%nat by lia.
  - exists 0%nat. split_and!; [lia|lia|done|].
    by replace (n - 0)%nat with n by lia.
Qed.

Lemma complete_owes {A} n (t : Async.Promise A) s :
  owes Inv n t -> Inv s ->
  sessions (Async.complete t s).2 = (sessions s + n)%nat /\
  Inv (Async.complete t s).2.
Proof.
  revert n s. induction t as [outcome|X segment rest IH|rest IH];
    intros n s Ht Hs; cbn in *.
  - subst n. split; [lia|done].
  - destruct (Ht s Hs) as (c1 & Hle & Hc & Hinv & Hrest).
    destruct (segment s) as [r s1]. cbn in *.
    destruct (IH r (n - c1)%nat s1 Hrest Hinv) as [Hc2 Hinv2].
    split; [lia|done].
  - by apply IH.
Qed.

Lemma advance_starts {A} n (t : Async.Promise A) s :
  starts Pre Inv n t -> Pre s ->
  Pre (Async.advance t s).2 /\ owes Inv n (Async.advance t s).1.
Proof.
  revert s. induction t as [outcome|X segment rest IH|rest IH];
    intros s Ht Hs; cbn in *; [done| |done].
  destruct (Ht s Hs) as [Hpre Hrest].
  destruct (segment s) as [r s1]. by apply IH.
Qed.

Lemma start_starts {A} n (promises : list (Async.Promise A)) s :
  Forall (starts Pre Inv n) promises -> Pre s ->
  Pre (Async.start promises s).2 /\
  Forall2 (fun debt call => owes Inv debt call.2)
    (replicate (length promises) n) (Async.start promises s).1.
Proof.
  intros Hpromises. revert s.
  induction Hpromises as [|t rest Ht _ IH]; intros s Hs; cbn.
  - split; [done|constructor].
  - unfold Async.proceed.
    destruct (advance_starts n t _ Ht (install_Pre s Hs)) as [Hpre Hcall].
    destruct (Async.advance t _) as [t' s1]. cbn in *.
    destruct (IH s1 Hpre) as [Hpre' Hcalls].
    destruct (Async.start rest s1) as [calls s2]. cbn in *.
    split; [done|by constructor].
Qed.

Lemma turn_owes {A} i debts (pool : list (Async.Call A)) s :
  Forall2 (fun debt call => owes Inv debt call.2) debts pool -> Inv s ->
  exists debts',
    Forall2 (fun debt call => owes Inv debt call.2) debts'
      (Async.turn i pool s).1 /\
    Inv (Async.turn i pool s).2 /\
    (sessions (Async.turn i pool s).2 + total debts'
     = sessions s + total debts)%nat.
Proof.
  intros Hpool Hs. unfold Async.turn.
  destruct (pool !! i) as [call|] eqn:Hcall; [|by exists debts].
  destruct (Forall2_lookup_r _ _ _ _ _ Hpool Hcall) as (n & Hn & Hcall').
  unfold Async.resume.
  destruct call as [frame [outcome|X segment rest|rest]]; cbn in *.
  - exists debts. by rewrite list_insert_id.
  - exists debts. by rewrite list_insert_id.
  - unfold Async.proceed.
    destruct (advance_owes n rest _ Hcall' (install_Inv frame s Hs))
      as (count & Hle & Hc & Hinv & Hrest).
    destruct (Async.advance rest _) as [t' s1]. cbn in *.
    exists (<[i:=(n - count)%nat]> debts). split_and!; [|done|].
    + by apply Forall2_insert.
    + pose proof (total_insert debts i n (n - count)%nat Hn) as Hsum.
      unfold sessions in *. lia.
Qed.

Lemma turns_owes {A} schedule debts (pool : list (Async.Call A)) s :
  Forall2 (fun debt call => owes Inv debt call.2) debts pool -> Inv s ->
  exists debts',
    Forall2 (fun debt call => owes Inv debt call.2) debts'
      (Async.turns schedule pool s).1 /\
    Inv (Async.turns schedule pool s).2 /\
    (sessions (Async.turns schedule pool s).2 + total debts'
     = sessions s + total debts)%nat.
Proof.
  revert debts pool s.
  induction schedule as [|i rest IH]; intros debts pool s Hpool Hs; cbn.
  - by exists debts.
  - destruct (turn_owes i debts pool s Hpool Hs)
      as (debts1 & Hpool1 & Hinv1 & Hsum1).
    destruct (Async.turn i pool s) as [pool1 s1]. cbn in *.
    destruct (IH debts1 pool1 s1 Hpool1 Hinv1)
      as (debts2 & Hpool2 & Hinv2 & Hsum2).
    exists debts2. split_and!; [done|done|lia].
Qed.

Lemma drain_owes {A} debts (pool : list (Async.Call A)) s :
  Forall2 (fun debt call => owes Inv debt call.2) debts pool -> Inv s ->
  sessions (Async.drain pool s).2 = (sessions s + total debts)%nat.
Proof.
  intros Hpool. revert s.
  induction Hpool as [|debt call debts pool Hcall _ IH]; intros s Hs; cbn.
  - lia.
  - destruct (complete_owes debt call.2 _ Hcall (install_Inv call.1 s Hs))
      as [Hc Hinv].
    destruct (Async.complete call.2 _) as [outcome s1]. cbn in *.
    specialize (IH s1 Hinv).
    destruct (Async.drain pool s1) as [outcomes s2]. cbn in *.
    unfold sessions in *. lia.
Qed.

(** Calls that start owing [n] sessions each launch [n] sessions each,
    however they take their turns. *)
Lemma settle_all_owes {A} base n schedule
    (promises : list (Async.Promise A)) s :
  (forall s, Pre s -> sessions s = base) ->
  Forall (starts Pre Inv n) promises -> Pre s ->
  sessions (Async.settle_all schedule promises s).2
  = (base + length promises * n)%nat.
Proof.
  intros Hbase Hpromises Hs. unfold Async.settle_all.
  destruct (start_starts n promises s Hpromises Hs) as [Hpre Hpool].
  destruct (Async.start promises s) as [pool s1]. cbn in *.
  destruct (turns_owes schedule _ pool s1 Hpool (Pre_Inv _ Hpre))
    as (debts & Hpool' & Hinv & Hsum).
  destruct (Async.turns schedule pool s1) as [pool' s2]. cbn in *.
  rewrite (drain_owes debts pool' s2 Hpool' Hinv).
  rewrite total_replicate, (Hbase _ Hpre) in Hsum. lia.
Qed.

End Owes.

End PromiseFacts.

(** Compares a call in progress with the computation it is when it runs
    alone, along the structure they share. *)
Ltac alone_step :=
  lazymatch goal with
  | |- runs_as (Async.pure _) _ => apply runs_as_pure
  | |- runs_as (Async.raise _) _ => apply runs_as_raise
  | |- runs_as (Async.sync _) _ => apply runs_as_sync
  | |- runs_as (Async.await _) _ => apply runs_as_await
  | |- runs_as (Async.awaited _) _ => apply runs_as_awaited
  | |- runs_as (Async.whenever _ _) _ => apply runs_as_whenever
  | |- runs_as (Async.andThen _ _) _ => apply runs_as_andThen; [|intros ?]
  | |- runs_as (Async.catch _ _) _ => apply runs_as_catch; [|intros ?]
  | |- runs_as (Async.ensuring _ _) _ => apply runs_as_ensuring
  | |- runs_as (match ?x with _ => _ end) _ => destruct x
  end.

Ltac alone := repeat alone_step.

(** Splits a goal [respects Inv R t] along the structure of [t]; what is
    left are its synchronous segments. *)
Ltac respect_step :=
  lazymatch goal with
  | |- respects _ _ (Async.pure _) => exact Logic.I
  | |- respects _ _ (Async.raise _) => exact Logic.I
  | |- respects _ _ (Async.Return _) => exact Logic.I
  | |- respects _ _ (Async.andThen _ _) => apply respects_andThen; [|intros ?]
  | |- respects _ _ (Async.catch _ _) => apply respects_catch; [|intros ?]
  | |- respects _ _ (Async.ensuring _ _) => apply respects_ensuring
  | |- respects _ _ (Async.awaited _) => apply respects_awaited
  | |- respects _ _ (Async.whenever _ _) => apply respects_whenever
  | |- respects _ _ (Async.sync _) => apply respects_sync
  | |- respects _ _ (Async.await _) => apply respects_await
  | |- respects _ _ (match ?x with _ => _ end) => destruct x
  end.

Ltac respect := repeat first [respect_step | preserve_step].

(** ** The scraper *)

Section ScraperFacts.
Context `{Cheerio} `{Runtime} `{World} `{Formatters}.

Lemma lifecycle_app evs1 evs2 :
  lifecycle (evs1 ++ evs2) = lifecycle evs1 ++ lifecycle evs2.
Proof.
  induction evs1 as [|e rest IH]; cbn; [done|].
  destruct (is_lifecycle e); cbn; by rewrite IH.
Qed.

Lemma lifecycle_none evs :
  Forall (fun e => is_lifecycle e = false) evs -> lifecycle evs = [].
Proof. induction 1 as [|e rest He _ IH]; cbn; [done|]. by rewrite He. Qed.

#[global] Instance quiet_preorder : PreOrder quiet.
Proof.
  split.
  - intros s. split; reflexivity.
  - intros s1 s2 s3 [A1 B1] [A2 B2]. split; by etrans.
Qed.

Ltac side_registries := intros; split; reflexivity.

Ltac side_emits :=
  intros;
  first
    [ apply emits_one; cbn; first [done | split; [done|]]
    | eexists []; cbn; rewrite app_nil_r; split; [reflexivity | constructor] ].

Ltac side_quiet := intros; split; [split; reflexivity | side_emits].

Lemma ensureBrowserIsReady_quiet : preserves quiet ensureBrowserIsReady.
Proof. unfold ensureBrowserIsReady. preserve; side_quiet. Qed.

Lemma scrapeWithAxios_quiet url options :
  preserves quiet (scrapeWithAxios url options).
Proof. unfold scrapeWithAxios, clock. preserve; side_quiet. Qed.

Lemma drive_page_quiet p url options :
  preserves quiet (drive_page p url options).
Proof. unfold drive_page, clock. preserve; side_quiet. Qed.

Lemma scrapeWithPuppeteer_registries url options :
  preserves same_registries (scrapeWithPuppeteer url options).
Proof.
  unfold scrapeWithPuppeteer, ensure_session, launch_session,
    ensureBrowserIsReady, open_page, drive_page, close_page, clock.
  preserve; side_registries.
Qed.

Lemma scrape_registries url options :
  preserves same_registries (scrape url options).
Proof.
  unfold scrape, scrapeWithAxios, clock.
  repeat first [apply scrapeWithPuppeteer_registries | preserve_step];
    side_registries.
Qed.

Lemma scrapeWithPuppeteer_sends url options :
  preserves (emits (sends url (default ∅ (ScrapeOptions.headers options))))
    (scrapeWithPuppeteer url options).
Proof.
  unfold scrapeWithPuppeteer, ensure_session, launch_session,
    ensureBrowserIsReady, open_page, drive_page, close_page, clock.
  preserve; side_emits.
Qed.

Lemma scrape_sends url options :
  preserves (emits (sends url (default ∅ (ScrapeOptions.headers options))))
    (scrape url options).
Proof.
  unfold scrape, scrapeWithAxios, clock.
  repeat first [apply scrapeWithPuppeteer_sends | preserve_step];
    try side_emits.
  apply map_union_subseteq_l.
Qed.

(** The same for a call in progress: each of its synchronous segments. *)
Lemma async_scrape_registries url options :
  respects (fun _ => True) same_registries (Async.scrape url options).
Proof.
  unfold Async.scrape, Async.scrapeWithAxios, Async.scrapeWithPuppeteer,
    Async.ensure_session, Async.launch_session, Async.ensureBrowserIsReady,
    Async.open_page, Async.drive_page, Async.close_page, clock.
  cbn zeta. respect; side_registries.
Qed.

Lemma async_scrape_sends url options :
  respects (fun _ => True)
    (emits (sends url (default ∅ (ScrapeOptions.headers options))))
    (Async.scrape url options).
Proof.
  unfold Async.scrape, Async.scrapeWithAxios, Async.scrapeWithPuppeteer,
    Async.ensure_session, Async.launch_session, Async.ensureBrowserIsReady,
    Async.open_page, Async.drive_page, Async.close_page, clock.
  cbn zeta. respect; try side_emits.
  all: apply map_union_subseteq_l.
Qed.

(** Run alone, the calls in progress are the computations of the first
    part: the same statements, with nothing in between. *)
Lemma ensureBrowserIsReady_alone :
  runs_as Async.ensureBrowserIsReady ensureBrowserIsReady.
Proof. unfold Async.ensureBrowserIsReady, ensureBrowserIsReady. alone. Qed.

Lemma scrapeWithAxios_alone url options :
  runs_as (Async.scrapeWithAxios url options) (scrapeWithAxios url options).
Proof.
  unfold Async.scrapeWithAxios, scrapeWithAxios. cbn zeta. alone.
Qed.

Lemma scrapeWithPuppeteer_alone url options :
  runs_as (Async.scrapeWithPuppeteer url options)
    (scrapeWithPuppeteer url options).
Proof.
  unfold Async.scrapeWithPuppeteer, scrapeWithPuppeteer,
    Async.ensure_session, ensure_session, Async.launch_session,
    launch_session, Async.open_page, open_page, Async.drive_page,
    drive_page, Async.close_page, close_page.
  cbn zeta.
  repeat first [apply ensureBrowserIsReady_alone | alone_step].
Qed.

Lemma scrape_alone url options :
  runs_as (Async.scrape url options) (scrape url options).
Proof.
  unfold Async.scrape, scrape. cbn zeta.
  repeat first [apply scrapeWithPuppeteer_alone | apply scrapeWithAxios_alone
               | alone_step].
Qed.

(** A call of [scrape] closes no session. *)
Lemma async_scrape_keeps_session url options :
  respects (fun _ => True) (emits closes_no_session)
    (Async.scrape url options).
Proof.
  unfold Async.scrape, Async.scrapeWithAxios, Async.scrapeWithPuppeteer,
    Async.ensure_session, Async.launch_session, Async.ensureBrowserIsReady,
    Async.open_page, Async.drive_page, Async.close_page, clock.
  cbn zeta. respect; side_emits.
Qed.

Lemma existsb_elem_of {A} (f : A -> bool) (l : list A) :
  existsb f l = true <-> exists x, x ∈ l /\ f x = true.
Proof.
  induction l as [|y t IH]; cbn.
  - split; [done|]. intros (x & Hx & _). by apply elem_of_nil in Hx.
  - rewrite orb_true_iff, IH. split.
    + intros [Hy|(x & Hx & Hf)]; [exists y | exists x]; split; try done.
      * left.
      * by right.
    + intros (x & Hx & Hf). apply elem_of_cons in Hx as [->|Hx]; eauto.
Qed.

(** C3. After a static fetch that succeeded on a network address, [scrape]
    looks for the phrases of [jsRequiredKeywords] in the fetched markup, both
    sides in lower case: if one occurs, the outcome is the outcome of the render
    tier (run after the static fetch); if none occurs, it is the record of
    the static fetch. *)
Theorem scrape_js_dependency_heuristic url options s staticContent s1 :
  startsWith url (js "data:") = false ->
  default false (ScrapeOptions.usePuppeteer options) = false ->
  scrapeWithAxios url options s = (inr staticContent, s1) ->
  ((exists keyword,
      keyword ∈ jsRequiredKeywords /\
      includes (toLowerCase (ScrapedContent.html staticContent))
        (toLowerCase keyword) = true) ->
   scrape url options s = scrapeWithPuppeteer url options s1) /\
  ((forall keyword,
      keyword ∈ jsRequiredKeywords ->
      includes (toLowerCase (ScrapedContent.html staticContent))
        (toLowerCase keyword) = false) ->
   scrape url options s = (inr staticContent, s1)) /\
  js "enable JavaScript" ∈ jsRequiredKeywords /\
  js "Please enable JavaScript" ∈ jsRequiredKeywords.
Proof.
  intros Hdata Hforce Hstatic.
  assert (scrape url options s =
          if contentIsJSReliant staticContent
          then scrapeWithPuppeteer url options s1
          else (inr staticContent, s1)) as ->.
  { unfold scrape. rewrite Hdata, Hforce.
    unfold bind at 1, try_catch, bind at 1. rewrite Hstatic.
    unfold ret at 1. by destruct (contentIsJSReliant staticContent). }
  split_and!.
  - intros Hex. apply existsb_elem_of in Hex.
    unfold contentIsJSReliant. by rewrite Hex.
  - intros Hall.
    destruct (contentIsJSReliant staticContent) eqn:Hrel; [|done].
    apply existsb_elem_of in Hrel as (keyword & Hin & Hinc).
    by rewrite (Hall keyword Hin) in Hinc.
  - unfold jsRequiredKeywords.
    repeat first [apply list_elem_of_here | apply list_elem_of_further].
  - unfold jsRequiredKeywords.
    repeat first [apply list_elem_of_here | apply list_elem_of_further].
Qed.

(** A failure of [scrapeWithPuppeteer] is the failure of its [try] block
    behind the label of the render tier, unless [page.close()] throws in the
    [finally] block: then it is that error. *)
Lemma scrapeWithPuppeteer_failure url options s error s' :
  scrapeWithPuppeteer url options s = (inl error, s') ->
  (exists cause s1,
     render_attempt url options (with_page None s) = (inl cause, s1) /\
     error = MkError (js "Puppeteer爬取失败: " ++ message cause)) \/
  (exists p w,
     EvPageClose p ∈ trace s' /\ page_close p w = (inl error, world s')).
Proof.
  unfold scrapeWithPuppeteer, bind at 1, modify at 1, finally, try_catch.
  cbn beta iota. fold (render_attempt url options).
  destruct (render_attempt url options (with_page None s))
    as [[cause|record] s1] eqn:Hattempt.
  - unfold throw, close_page, bind, gets.
    destruct (page s1) as [p|].
    + unfold emit, modify, external. cbn [world with_trace].
      destruct (page_close p (world s1)) as [[err|[]] w] eqn:Hclose.
      * intros [= <- <-]. right. exists p, (world s1). cbn.
        split; [|done]. apply elem_of_app. right. left.
      * intros [= <- <-]. left. by exists cause, s1.
    + unfold ret. intros [= <- <-]. left. by exists cause, s1.
  - unfold close_page, bind, gets.
    destruct (page s1) as [p|].
    + unfold emit, modify, external. cbn [world with_trace].
      destruct (page_close p (world s1)) as [[err|[]] w] eqn:Hclose.
      * intros [= <- <-]. right. exists p, (world s1). cbn.
        split; [|done]. apply elem_of_app. right. left.
      * intros [=].
    + unfold ret. intros [=].
Qed.

(** C1, as the code has it. When the static fetch fails on a network address
    and the render tier then fails too, [scrape] fails with the error of the
    render tier, as it is: the label of the render tier followed by the
    message of what failed in its [try] block or, when [page.close()] throws
    in the [finally] block, the error of [page.close()]. The message of the
    static failure is not put into that error: it has been written to the
    error console before the render tier ran. *)
Theorem scrape_fails_with_render_error url options s e1 s1 e2 s2 :
  startsWith url (js "data:") = false ->
  default false (ScrapeOptions.usePuppeteer options) = false ->
  scrapeWithAxios url options s = (inl e1, s1) ->
  scrapeWithPuppeteer url options
    (with_trace (trace s1 ++ [EvConsoleError (static_failure_log e1)]) s1)
    = (inl e2, s2) ->
  scrape url options s = (inl e2, s2) /\
  EvConsoleError (static_failure_log e1) ∈ trace s2 /\
  ((exists cause attempted,
      render_attempt url options
        (with_page None
           (with_trace (trace s1 ++ [EvConsoleError (static_failure_log e1)]) s1))
        = (inl cause, attempted) /\
      e2 = MkError (js "Puppeteer爬取失败: " ++ message cause)) \/
   (exists p w,
      EvPageClose p ∈ trace s2 /\ page_close p w = (inl e2, world s2))).
Proof.
  intros Hdata Hforce Hstatic Hrender. split_and!.
  - unfold scrape. rewrite Hdata, Hforce.
    unfold bind at 1, try_catch, bind at 1. rewrite Hstatic.
    unfold ret at 1. unfold bind, emit, modify. exact Hrender.
  - pose proof (scrapeWithPuppeteer_sends url options
                  (with_trace (trace s1 ++ [EvConsoleError (static_failure_log e1)]) s1))
      as (evs & Htrace & _).
    rewrite Hrender in Htrace. cbn in Htrace. rewrite Htrace.
    rewrite !elem_of_app, list_elem_of_singleton. auto.
  - exact (scrapeWithPuppeteer_failure _ _ _ _ _ Hrender).
Qed.

(** *** The render session *)

Lemma page_events_app b pages1 pages2 :
  page_events b (pages1 ++ pages2) = page_events b pages1 ++ page_events b pages2.
Proof. induction pages1 as [|p rest IH]; cbn; [done|]. by rewrite IH. Qed.

Lemma session_steps_refl s : session_steps 0 s s.
Proof.
  exists []. rewrite app_nil_r. split; [done|]. cbn. unfold session_spec.
  destruct (browser s) as [b|]; [|by left].
  split; [done|]. by exists [].
Qed.

Lemma session_steps_trans n m s1 s2 s3 :
  session_steps n s1 s2 -> session_steps m s2 s3 ->
  session_steps (n + m) s1 s3.
Proof.
  intros (evs1 & E1 & S1) (evs2 & E2 & S2).
  exists (evs1 ++ evs2). rewrite E2, E1, app_assoc. split; [done|].
  rewrite lifecycle_app. unfold session_spec in *.
  destruct (browser s1) as [b|].
  - destruct S1 as (B2 & pages1 & L1 & ->). rewrite B2 in S2.
    destruct S2 as (B3 & pages2 & L2 & ->). split; [done|].
    exists (pages1 ++ pages2). rewrite length_app, page_events_app.
    split; [lia|done].
  - destruct S1 as [[B2 ->]|(b & pages1 & B2 & L1 & ->)]; rewrite B2 in S2.
    + destruct S2 as [[B3 ->]|(b & pages2 & B3 & L2 & ->)]; [by left|].
      right. exists b, pages2. split_and!; [done|lia|done].
    + destruct S2 as (B3 & pages2 & L2 & ->). right.
      exists b, (pages1 ++ pages2). rewrite length_app, page_events_app.
      split_and!; [done|lia|done].
Qed.

Lemma quiet_session_steps s s' : quiet s s' -> session_steps 0 s s'.
Proof.
  intros [[Hb _] (evs & Ht & Hq)]. exists evs. split; [done|].
  rewrite (lifecycle_none _ Hq), Hb. unfold session_spec.
  destruct (browser s) as [b|]; [|by left].
  split; [done|]. by exists [].
Qed.

(** The launch part: an exception and no session, or one launch that fills
    the browser field, whatever the field held. *)
Lemma launch_session_spec s r s1 :
  launch_session s = (r, s1) ->
  page s1 = page s /\
  exists evs,
    trace s1 = trace s ++ evs /\
    ((browser s1 = browser s /\ lifecycle evs = [] /\ exists err, r = inl err) \/
     (exists b, r = inr tt /\ browser s1 = Some b /\
                lifecycle evs = [EvSessionLaunch b])).
Proof.
  unfold launch_session. unfold bind at 1; cbn beta iota.
  pose proof (ensureBrowserIsReady_quiet s) as [[Hb1 Hp1] (evs1 & Ht1 & Hq1)].
  destruct (ensureBrowserIsReady s) as [[err|path] sa]; cbn in Hb1, Hp1, Ht1.
  - intros [= <- <-]. split; [done|]. exists evs1. split; [done|]. left.
    split; [done|]. split; [by apply lifecycle_none | eauto].
  - unfold bind at 1, external; cbn beta iota.
    destruct (puppeteer_launch _ (world sa)) as [[err|b] w].
    + intros [= <- <-]. cbn. split; [done|]. exists evs1. split; [done|].
      left. split; [done|]. split; [by apply lifecycle_none | eauto].
    + intros [= <- <-]. cbn. split; [done|].
      exists (evs1 ++ [EvSessionLaunch b]).
      rewrite Ht1, app_assoc. split; [done|]. right. exists b.
      split; [done|]. split; [done|].
      by rewrite lifecycle_app, (lifecycle_none _ Hq1).
Qed.

(** The session block: nothing, or one launch that fills the browser field. *)
Lemma ensure_session_spec s r s1 :
  ensure_session s = (r, s1) ->
  page s1 = page s /\
  exists evs,
    trace s1 = trace s ++ evs /\
    ((browser s1 = browser s /\ lifecycle evs = []) \/
     (exists b, browser s = None /\ browser s1 = Some b /\
                lifecycle evs = [EvSessionLaunch b])).
Proof.
  unfold ensure_session. unfold bind at 1, gets at 1; cbn beta iota.
  destruct (browser s) as [b0|] eqn:Hb.
  - intros [= <- <-]. split; [done|]. exists []. rewrite app_nil_r.
    split; [done|]. left. by rewrite Hb.
  - intros Hrun.
    destruct (launch_session_spec _ _ _ Hrun) as (Hp & evs & Ht & Hcase).
    split; [done|]. exists evs. split; [done|].
    destruct Hcase as [(Hsame & Hl & _)|(b & _ & Hb1 & Hl)].
    + left. split; [congruence|done].
    + right. by exists b.
Qed.

(** Opening the page: an exception and nothing else, or one page of the
    session, kept in [page]. *)
Lemma open_page_spec s r s1 :
  open_page s = (r, s1) ->
  browser s1 = browser s /\
  exists evs,
    trace s1 = trace s ++ evs /\
    ((page s1 = page s /\ lifecycle evs = [] /\ exists err, r = inl err) \/
     (exists b p, browser s = Some b /\ r = inr p /\ page s1 = Some p /\
                  lifecycle evs = [EvNewPage b p])).
Proof.
  unfold open_page. unfold bind at 1, gets at 1; cbn beta iota.
  destruct (browser s) as [b|] eqn:Hb.
  - unfold bind at 1, bind at 1, external; cbn beta iota.
    destruct (browser_newPage b (world s)) as [[err|p] w].
    + intros [= <- <-]. cbn. split; [done|]. exists []. rewrite app_nil_r.
      split; [done|]. left. eauto.
    + intros [= <- <-]. cbn. split; [done|]. exists [EvNewPage b p].
      split; [done|]. right. exists b, p. done.
  - intros [= <- <-]. cbn. split; [done|]. exists []. rewrite app_nil_r.
    split; [done|]. left. eauto.
Qed.

(** The [finally] block closes the page held in [page], if any. *)
Lemma close_page_spec s r s1 :
  close_page s = (r, s1) ->
  browser s1 = browser s /\
  trace s1 = trace s ++ match page s with
                        | Some p => [EvPageClose p]
                        | None => []
                        end.
Proof.
  unfold close_page. unfold bind at 1, gets at 1; cbn beta iota.
  destruct (page s) as [p|].
  - unfold bind, emit, modify, external; cbn.
    destruct (page_close p _) as [[err|[]] w]; by intros [= <- <-].
  - intros [= <- <-]. by rewrite app_nil_r.
Qed.

(** One rendering call, from the facts about its parts: [mid] is the browser
    field after the session block. *)
Lemma session_call s sf mid evs lc1 lc2 :
  trace sf = trace s ++ evs ->
  lifecycle evs = lc1 ++ lc2 ->
  browser sf = mid ->
  ((mid = browser s /\ lc1 = []) \/
   (exists b, browser s = None /\ mid = Some b /\ lc1 = [EvSessionLaunch b])) ->
  (lc2 = [] \/
   (exists b p, mid = Some b /\ lc2 = [EvNewPage b p; EvPageClose p])) ->
  session_steps 1 s sf.
Proof.
  intros Ht Hlc Hb H1' H2'. exists evs. split; [done|].
  rewrite Hlc, Hb. unfold session_spec.
  destruct H1' as [[-> ->]|(b & Hnone & -> & ->)].
  - destruct (browser s) as [b|] eqn:Hbs.
    + split; [done|]. destruct H2' as [->|(b' & p & [= <-] & ->)].
      * exists []. cbn. split; [lia|done].
      * exists [p]. cbn. split; [lia|done].
    + destruct H2' as [->|(b' & p & [=] & _)]. by left.
  - rewrite Hnone. right. destruct H2' as [->|(b' & p & [= <-] & ->)].
    + exists b, []. cbn. split_and!; [done|lia|done].
    + exists b, [p]. cbn. split_and!; [done|lia|done].
Qed.

(** The state a [finally { close_page }] leaves. *)
Lemma finally_close_state {A} (outcome : Result A) sk r sf :
  match close_page sk with
  | (inr _, s'') => (outcome, s'')
  | (inl err, s'') => (inl err, s'')
  end = (r, sf) ->
  browser sf = browser sk /\
  trace sf = trace sk ++ match page sk with
                         | Some p => [EvPageClose p]
                         | None => []
                         end.
Proof.
  destruct (close_page sk) as [rc sc] eqn:Ec.
  pose proof (close_page_spec _ _ _ Ec) as Hspec.
  destruct rc as [err|[]]; by intros [= <- <-].
Qed.

Lemma scrapeWithPuppeteer_session url options s :
  session_steps 1 s (scrapeWithPuppeteer url options s).2.
Proof.
  destruct (scrapeWithPuppeteer url options s) as [r sf] eqn:Hrun. cbn [snd].
  unfold scrapeWithPuppeteer in Hrun.
  unfold bind at 1, modify at 1 in Hrun; cbn beta iota in Hrun.
  unfold finally, try_catch in Hrun.
  unfold bind at 1 in Hrun; cbn beta iota in Hrun.
  set (s0 := with_page None s) in *.
  destruct (ensure_session s0) as [r1 s1] eqn:E1.
  pose proof (ensure_session_spec _ _ _ E1) as (Hp1 & evs1 & Ht1 & Hcase1).
  change (page s0) with (@None Page) in Hp1.
  change (trace s0) with (trace s) in Ht1.
  change (browser s0) with (browser s) in Hcase1.
  assert ((browser s1 = browser s /\ lifecycle evs1 = []) \/
          (exists b, browser s = None /\ browser s1 = Some b /\
                     lifecycle evs1 = [EvSessionLaunch b])) as Hmid
    by exact Hcase1.
  clear Hcase1.
  destruct r1 as [err|[]].
  - unfold throw in Hrun.
    apply finally_close_state in Hrun as [Hbf Htf].
    rewrite Hp1, app_nil_r in Htf.
    apply (session_call s sf (browser s1) evs1 (lifecycle evs1) []);
      [congruence | by rewrite app_nil_r | done | | by left].
    destruct Hmid as [[? ?]|(b & ? & ? & ?)]; [left|right; exists b]; done.
  - unfold bind at 1 in Hrun; cbn beta iota in Hrun.
    destruct (open_page s1) as [r2 s2] eqn:E2.
    pose proof (open_page_spec _ _ _ E2) as (Hb2 & evs2 & Ht2 & Hcase2).
    destruct Hcase2 as [(Hp2 & Hl2 & err & ->)|(b & p & Hbs1 & -> & Hp2 & Hl2)].
    + unfold throw in Hrun.
      apply finally_close_state in Hrun as [Hbf Htf].
      rewrite Hp2, Hp1, app_nil_r in Htf.
      apply (session_call s sf (browser s1) (evs1 ++ evs2) (lifecycle evs1) []).
      * by rewrite Htf, Ht2, Ht1, app_assoc.
      * by rewrite lifecycle_app, Hl2.
      * congruence.
      * destruct Hmid as [[? ?]|(b & ? & ? & ?)]; [left|right; exists b]; done.
      * by left.
    + pose proof (drive_page_quiet p url options s2)
        as [[Hb3 Hp3] (evs3 & Ht3 & Hq3)].
      destruct (drive_page p url options s2) as [r3 s3].
      cbn [snd] in Hb3, Hp3, Ht3.
      assert (browser sf = browser s3 /\
              trace sf = trace s3 ++ [EvPageClose p]) as [Hbf Htf].
      { destruct r3 as [err|c]; unfold throw in Hrun;
          apply finally_close_state in Hrun as [Hbf Htf];
          by rewrite Hp3, Hp2 in Htf. }
      apply (session_call s sf (browser s1)
               (evs1 ++ evs2 ++ evs3 ++ [EvPageClose p]) (lifecycle evs1)
               [EvNewPage b p; EvPageClose p]).
      * by rewrite Htf, Ht3, Ht2, Ht1, <- !app_assoc.
      * rewrite !lifecycle_app, Hl2, (lifecycle_none _ Hq3). done.
      * congruence.
      * destruct Hmid as [[? ?]|(b' & ? & ? & ?)]; [left|right; exists b']; done.
      * right. by exists b, p.
Qed.

Lemma session_steps_mono n m s s' :
  (n <= m)%nat -> session_steps n s s' -> session_steps m s s'.
Proof.
  intros Hnm (evs & Ht & Hs). exists evs. split; [done|].
  unfold session_spec in *. destruct (browser s) as [b|].
  - destruct Hs as (? & pages & ? & ?). split; [done|].
    exists pages. split; [lia|done].
  - destruct Hs as [?|(b & pages & ? & ? & ?)]; [by left|right].
    exists b, pages. split_and!; [done|lia|done].
Qed.

Lemma scrape_session url options s :
  session_steps 1 s (scrape url options s).2.
Proof.
  unfold scrape.
  destruct (startsWith _ _); [apply scrapeWithPuppeteer_session|].
  destruct (default false _); [apply scrapeWithPuppeteer_session|].
  unfold bind at 1, try_catch, bind at 1; cbn beta iota.
  pose proof (scrapeWithAxios_quiet url options s) as Hq.
  destruct (scrapeWithAxios url options s) as [[error|staticContent] s1];
    cbn [snd] in Hq; apply quiet_session_steps in Hq; unfold ret at 1;
    cbn beta iota.
  - unfold bind at 1, emit, modify; cbn beta iota.
    apply (session_steps_trans 0 1 s s1); [done|].
    eapply (session_steps_trans 0 1); [|apply scrapeWithPuppeteer_session].
    apply quiet_session_steps. split; [done|].
    by apply emits_one.
  - destruct (contentIsJSReliant staticContent).
    + apply (session_steps_trans 0 1 s s1); [done|].
      apply scrapeWithPuppeteer_session.
    + cbn [snd]. by apply (session_steps_mono 0 1); [lia|].
Qed.

(** A sequence of calls opens at most one page per call. *)
Lemma run_scrapes_session calls s :
  session_steps (length calls) s (run_scrapes calls s).
Proof.
  revert s. induction calls as [|[url options] rest IH]; intros s; cbn.
  - apply session_steps_refl.
  - apply (session_steps_trans 1 (length rest) s (scrape url options s).2);
      [apply scrape_session | apply IH].
Qed.

(** Calls that run one after the other. On one scraper, any sequence of
    calls of [scrape], each run to its end before the next (each of which
    may render), leaves a trace of this form: if no session existed before,
    either none exists afterwards and nothing was launched, or exactly one
    session was launched, in the first call that got that far, and it is the
    scraper's browser afterwards; every page was opened in that session and
    closed before anything else happened to the session, at most one page
    per call; no call closed the session. A session that existed before is
    kept and used in the same way. [close] is what closes it: with a session
    at hand it calls the browser's close and, when that returns, clears the
    field; with none it does nothing. (The temporary browser
    [BrowserManager] starts to find the executable is not the scraper's
    session: it is closed at once and never stored.) Calls that overlap are
    another matter. *)
Theorem render_session_lifecycle :
  (forall calls s,
     exists evs,
       trace (run_scrapes calls s) = trace s ++ evs /\
       session_spec (length calls) (browser s) (browser (run_scrapes calls s))
         (lifecycle evs)) /\
  (forall s,
     match browser s with
     | None => close s = (inr tt, s)
     | Some b =>
       exists outcome s',
         close s = (outcome, s') /\
         trace s' = trace s ++ [EvSessionClose b] /\
         (outcome = inr tt -> browser s' = None) /\
         (outcome <> inr tt -> browser s' = Some b)
     end).
Proof.
  split.
  - intros calls s. apply run_scrapes_session.
  - intros s. destruct (browser s) as [b|] eqn:Hb.
    + unfold close, bind, gets, emit, modify, external. rewrite Hb. cbn.
      destruct (browser_close b (world s)) as [[err|[]] w];
        do 2 eexists; (split; [reflexivity|]); cbn; split_and!; done.
    + unfold close, bind, gets. by rewrite Hb.
Qed.

(** The launch part of the session block does not look at the browser field
    again: run twice, both launches succeeding, it launches two sessions and
    leaves the second in the field. Two calls that overlap reach this when
    both have found the field empty before either launch has returned. *)
Theorem launch_session_twice s s1 s2 :
  launch_session s = (inr tt, s1) ->
  launch_session s1 = (inr tt, s2) ->
  exists b1 b2 evs,
    trace s2 = trace s ++ evs /\
    lifecycle evs = [EvSessionLaunch b1; EvSessionLaunch b2] /\
    browser s1 = Some b1 /\
    browser s2 = Some b2.
Proof.
  intros Hrun1 Hrun2.
  destruct (launch_session_spec _ _ _ Hrun1)
    as (_ & evs1 & Ht1 & [(_ & _ & err & [=])|(b1 & _ & Hb1 & Hl1)]).
  destruct (launch_session_spec _ _ _ Hrun2)
    as (_ & evs2 & Ht2 & [(_ & _ & err & [=])|(b2 & _ & Hb2 & Hl2)]).
  exists b1, b2, (evs1 ++ evs2). rewrite Ht2, Ht1, app_assoc.
  split; [done|]. by rewrite lifecycle_app, Hl1, Hl2.
Qed.

End ScraperFacts.

(** ** The tool handlers *)

Section HandlerFacts.
Context `{Cheerio} `{Runtime} `{World} `{Formatters}.

Lemma process_rules_preserves (R : relation Sys) `{!PreOrder R} ruleSet content :
  preserves R (process_rules ruleSet content).
Proof. unfold process_rules. preserve. Qed.

Lemma export_preserves (R : relation Sys) `{!PreOrder R} content format :
  preserves R (export content format).
Proof. unfold export. preserve. Qed.

(** *** Batches *)

(** Run alone, the pipeline of a unit is [batch_pipeline]. *)
Lemma batch_pipeline_alone format usePuppeteer ruleSet url :
  runs_as (Async.batch_pipeline format usePuppeteer ruleSet url)
    (batch_pipeline format usePuppeteer ruleSet url).
Proof.
  unfold Async.batch_pipeline, batch_pipeline. cbn zeta.
  apply runs_as_andThen; [alone|intros headers].
  apply runs_as_andThen;
    [apply runs_as_awaited; apply scrape_alone|intros content].
  apply runs_as_andThen; [|intros processedContent; alone].
  destruct (truthy ruleSet) eqn:Hrules.
  - apply runs_as_awaited. apply runs_as_sync.
  - intros s. unfold process_rules. by rewrite Hrules.
Qed.

Lemma async_batch_pipeline_keeps_session format usePuppeteer ruleSet url :
  respects (fun _ => True) (emits closes_no_session)
    (Async.batch_pipeline format usePuppeteer ruleSet url).
Proof.
  unfold Async.batch_pipeline. cbn zeta.
  repeat first [apply async_scrape_keeps_session
               | apply process_rules_preserves | apply export_preserves
               | tc_solve | respect_step | preserve_step].
Qed.

(** A unit of a batch runs its pipeline and turns the outcome into an
    entry: it never throws. *)
Lemma batch_unit_mirrors format usePuppeteer ruleSet url :
  mirrors (unit_outcome url)
    (Async.batch_pipeline format usePuppeteer ruleSet url)
    (Async.batch_unit format usePuppeteer ruleSet url).
Proof.
  unfold Async.batch_unit, Async.catch.
  unfold Async.andThen at 1.
  apply mirrors_settle. by intros [err|text].
Qed.

Lemma batch_units_mirror format usePuppeteer ruleSet urls :
  Forall3 (fun url t t' => mirrors (unit_outcome url) t t') urls
    (map (Async.batch_pipeline format usePuppeteer ruleSet) urls)
    (map (Async.batch_unit format usePuppeteer ruleSet) urls).
Proof.
  induction urls as [|url rest IH]; cbn; constructor; [|done].
  apply batch_unit_mirrors.
Qed.

Lemma settled_entries urls (outcomes : list (Result jsstring)) :
  map (fun result : Settled BatchEntry.t =>
         match result with
         | Fulfilled value => value
         | Rejected reason =>
           BatchEntry.Build None false None
             (Some (js "一个未知的爬取任务失败: " ++ error_to_string reason))
         end)
    (map to_settled (zip_with unit_outcome urls outcomes))
  = zip_with entry_of urls outcomes.
Proof.
  revert outcomes. induction urls as [|url rest IH]; intros [|outcome outcomes];
    cbn [zip_with map]; [done..|].
  by rewrite IH.
Qed.

Lemma entries_urls urls (outcomes : list (Result jsstring)) :
  length outcomes = length urls ->
  map BatchEntry.url (zip_with entry_of urls outcomes) = map Some urls.
Proof.
  revert outcomes. induction urls as [|url rest IH]; intros [|outcome outcomes];
    cbn [zip_with map length]; try done.
  intros [= Hlen]. rewrite (IH _ Hlen). by destruct outcome.
Qed.

(** A batch gives the entries of the outcomes of its pipelines, started
    together and resumed along the schedule, and leaves their state. *)
Lemma handleBatchScrape_run schedule args s :
  handleBatchScrape schedule args s =
  (inr (zip_with entry_of (BatchScrapeArgs.urls args)
          (Async.settle_all schedule (batch_pipelines args) s).1),
   (Async.settle_all schedule (batch_pipelines args) s).2).
Proof.
  pose proof (settle_all_mirrors unit_outcome (BatchScrapeArgs.urls args)
                schedule _ _ s
                (batch_units_mirror
                   (default (js "markdown") (BatchScrapeArgs.format args))
                   (default false (BatchScrapeArgs.usePuppeteer args))
                   (BatchScrapeArgs.ruleSet args)
                   (BatchScrapeArgs.urls args))) as Hrun.
  fold (batch_pipelines args) in Hrun.
  destruct (Async.settle_all schedule (batch_pipelines args) s)
    as [outcomes s'].
  cbn [fst snd] in *. rewrite <- settled_entries.
  unfold handleBatchScrape, Async.settle_all in *. cbn zeta.
  destruct (Async.start _ s) as [pool s1].
  unfold bind, allSettled.
  destruct (Async.turns schedule pool s1) as [pool' s2].
  destruct (Async.drain pool' s2) as [settled s3].
  by injection Hrun as -> ->.
Qed.

(** C2. [handleBatchScrape] returns, for every list of addresses, from every
    state and however the event loop resumes the units: it does not throw.
    By then every pipeline has run to its end. The array has one entry per
    address, in the order of the input, carrying that address; the entry of
    an address is made from the outcome of the pipeline of that address and
    from nothing else: [success: false] and the message of the error when the
    pipeline threw (in the fetch, the rules or the formatter),
    [success: true] and the formatted text when it returned. *)
Theorem handleBatchScrape_isolates_failures schedule args s :
  exists outcomes results s',
    Async.settle_all schedule (batch_pipelines args) s = (outcomes, s') /\
    handleBatchScrape schedule args s = (inr results, s') /\
    results = zip_with entry_of (BatchScrapeArgs.urls args) outcomes /\
    length outcomes = length (BatchScrapeArgs.urls args) /\
    length results = length (BatchScrapeArgs.urls args) /\
    map BatchEntry.url results = map Some (BatchScrapeArgs.urls args).
Proof.
  pose proof (handleBatchScrape_run schedule args s) as Hrun.
  pose proof (settle_all_length schedule (batch_pipelines args) s) as Hlen.
  destruct (Async.settle_all schedule (batch_pipelines args) s)
    as [outcomes s'].
  cbn [fst snd] in *. unfold batch_pipelines in Hlen.
  rewrite length_map in Hlen.
  exists outcomes,
    (zip_with entry_of (BatchScrapeArgs.urls args) outcomes), s'.
  split_and!; try done.
  - pose proof (entries_urls _ _ Hlen) as Hurls.
    apply (f_equal length) in Hurls. by rewrite !length_map in Hurls.
  - by apply entries_urls.
Qed.

(** *** Headers of a request *)

Lemma getHeaders_same_domain (h hostname : jsstring)
    (store : gmap jsstring Headers) :
  normalizeDomain h = normalizeDomain hostname ->
  getHeaders h store = getHeaders hostname store.
Proof. unfold getHeaders. cbn zeta. by intros ->. Qed.

Lemma fetch_and_format_registries url usePuppeteer headers ruleSet format :
  preserves same_registries
    (fetch_and_format url usePuppeteer headers ruleSet format).
Proof.
  unfold fetch_and_format.
  repeat first [apply scrape_registries | apply process_rules_preserves
               | apply export_preserves | tc_solve | preserve_step].
Qed.

Lemma fetch_and_format_sends url usePuppeteer headers ruleSet format :
  preserves (emits (sends url headers))
    (fetch_and_format url usePuppeteer headers ruleSet format).
Proof.
  unfold fetch_and_format.
  repeat first [apply (scrape_sends url (scrape_options usePuppeteer headers))
               | apply process_rules_preserves
               | apply export_preserves | tc_solve | preserve_step].
Qed.

Lemma emits_impl (P Q : Event -> Prop) s s' :
  (forall e, P e -> Q e) -> emits P s s' -> emits Q s s'.
Proof.
  intros HPQ (evs & Ht & HP). exists evs. split; [done|].
  by apply (Forall_impl P).
Qed.

(** The pipeline of one address sends the stored headers of its domain and
    leaves the store alone. *)
Lemma batch_pipeline_sends (hostname : jsstring) (custom : Headers)
    (format : jsstring) (usePuppeteer : bool) (ruleSet : option jsstring)
    (url : jsstring) (s : Sys) :
  custom ⊆ getHeaders hostname (domainHeaders s) ->
  domainHeaders (batch_pipeline format usePuppeteer ruleSet url s).2
    = domainHeaders s /\
  emits (sends_to_domain hostname custom) s
    (batch_pipeline format usePuppeteer ruleSet url s).2.
Proof.
  intros Hstored. unfold batch_pipeline. cbn zeta.
  destruct (startsWith url (js "data:")) eqn:Hdata.
  - unfold bind at 1, ret at 1; cbn beta iota.
    split; [apply (fetch_and_format_registries url usePuppeteer ∅ ruleSet format s)|].
    eapply emits_impl;
      [|apply (fetch_and_format_sends url usePuppeteer ∅ ruleSet format s)].
    intros [] Hs; try done; cbn in Hs |- *; destruct Hs as [-> _]; congruence.
  - unfold bind at 1, bind at 1, lift at 1; cbn beta iota.
    destruct (url_hostname url) as [err|h] eqn:Hhost; cbn beta iota.
    + split; [done|]. reflexivity.
    + unfold gets at 1; cbn beta iota.
      split; [apply (fetch_and_format_registries url usePuppeteer _ ruleSet format s)|].
      eapply emits_impl;
        [|apply (fetch_and_format_sends url usePuppeteer _ ruleSet format s)].
      intros [] Hs; try done; cbn in Hs |- *;
        destruct Hs as [-> Hsent]; intros _ h' Hh' Hsame;
        rewrite Hhost in Hh'; injection Hh' as <-;
        (etrans; [|exact Hsent]);
        by rewrite (getHeaders_same_domain _ _ _ Hsame).
Qed.

#[local] Instance keeps_sending_preorder hostname hs :
  PreOrder (keeps_sending hostname hs).
Proof.
  split.
  - intros s. split; reflexivity.
  - intros s1 s2 s3 [A1 B1] [A2 B2]. split; by etrans.
Qed.

(** The same for the pipeline in progress in a batch: whenever one of its
    segments runs from a state whose store holds the headers, it sends them
    and leaves the store alone. *)
Lemma async_batch_pipeline_sends (hostname : jsstring) (custom : Headers)
    (format : jsstring) (usePuppeteer : bool) (ruleSet : option jsstring)
    (url : jsstring) :
  respects (fun s => custom ⊆ getHeaders hostname (domainHeaders s))
    (keeps_sending hostname custom)
    (Async.batch_pipeline format usePuppeteer ruleSet url).
Proof.
  assert (forall headers (k : ScrapedContent.t -> Async.Promise jsstring),
            (forall h, url_hostname url = inr h ->
                       startsWith url (js "data:") = false ->
                       normalizeDomain h = normalizeDomain hostname ->
                       custom ⊆ headers) ->
            (forall content,
               respects (fun _ => True) (keeps_sending hostname custom)
                 (k content)) ->
            respects (fun _ => True) (keeps_sending hostname custom)
              (Async.andThen
                 (Async.awaited
                    (Async.scrape url (scrape_options usePuppeteer headers)))
                 k)) as Hscrape.
  { intros headers k Hsent Hk. apply respects_andThen; [|done].
    apply respects_awaited.
    pose proof (respects_and _ _ _ _
                  (async_scrape_registries url
                     (scrape_options usePuppeteer headers))
                  (async_scrape_sends url
                     (scrape_options usePuppeteer headers))) as Hboth.
    eapply respects_weaken; [| |exact Hboth]; [done|].
    intros s s' [Hreg Hev]. split; [done|].
    eapply emits_impl; [|exact Hev].
    intros [] Hs; try done; cbn in Hs |- *;
      destruct Hs as [-> Hsub]; intros Hdata h' Hh' Hsame;
      (etrans; [|exact Hsub]); by apply (Hsent h'). }
  assert (forall content,
            respects (fun _ => True) (keeps_sending hostname custom)
              (Async.andThen
                 match truthy ruleSet with
                 | Some _ =>
                   Async.awaited (Async.sync (process_rules ruleSet content))
                 | None => Async.pure content
                 end
                 (fun processedContent =>
                    Async.awaited
                      (Async.sync (export processedContent format)))))
    as Hrest.
  { intros content.
    repeat first [apply process_rules_preserves | apply export_preserves
                 | tc_solve | respect_step]. }
  unfold Async.batch_pipeline. cbn zeta.
  destruct (startsWith url (js "data:")) eqn:Hdata.
  - eapply respects_weaken; [| |apply (Hscrape ∅)]; try done.
  - cbn. intros s Hs. split; [reflexivity|].
    destruct (url_hostname url) as [err|h] eqn:Hhost; cbn; [done|].
    intros s1 Hs1. split; [reflexivity|].
    eapply respects_weaken;
      [| |apply (Hscrape (getHeaders h (domainHeaders s1)))]; try done.
    intros h' [= <-] _ Hsame.
    by rewrite (getHeaders_same_domain _ _ _ Hsame).
Qed.

Lemma batch_sends (hostname : jsstring) (custom : Headers) schedule batch s :
  custom ⊆ getHeaders hostname (domainHeaders s) ->
  keeps_sending hostname custom s (handleBatchScrape schedule batch s).2.
Proof.
  intros Hstored. rewrite handleBatchScrape_run. cbn [snd].
  apply (settle_all_respects
           (fun s => custom ⊆ getHeaders hostname (domainHeaders s))
           (keeps_sending hostname custom)); [| | |done].
  - intros s1 s2 Hs1 [[Hd _] _]. by rewrite Hd.
  - intros frame s1. split; [done|]. by apply emits_silent.
  - unfold batch_pipelines. apply Forall_forall. intros t Ht.
    apply list_elem_of_fmap in Ht as (url & -> & _).
    apply async_batch_pipeline_sends.
Qed.

(** Without [customHeaders], [handleScrapeUrl] is the pipeline of a batch
    unit. *)
Lemma handleScrapeUrl_plain (args : ScrapeUrlArgs.t) (s : Sys) :
  ScrapeUrlArgs.customHeaders args = None ->
  handleScrapeUrl args s =
  batch_pipeline (default (js "markdown") (ScrapeUrlArgs.format args))
    (default false (ScrapeUrlArgs.usePuppeteer args))
    (ScrapeUrlArgs.ruleSet args) (ScrapeUrlArgs.url args) s.
Proof.
  intros Hnone. unfold handleScrapeUrl, batch_pipeline. cbn zeta.
  rewrite Hnone.
  destruct (startsWith (ScrapeUrlArgs.url args) (js "data:")); cbn [negb];
    [reflexivity|].
  unfold bind, lift.
  destruct (url_hostname (ScrapeUrlArgs.url args)); reflexivity.
Qed.

(** C9. A [scrape_url] request on a network address that brings
    [customHeaders] merges them into the header store under the host name of
    the address before it fetches, and fetches with them. The store keeps
    them when the request is over, whatever its outcome; and as long as the
    store is not changed, every later request for an address of that domain,
    single or in a batch, sends them with its fetches, however the units of
    the batch take their turns. *)
Theorem customHeaders_outlive_the_request (args : ScrapeUrlArgs.t) (s : Sys)
    (hostname : jsstring) (custom : Headers) :
  startsWith (ScrapeUrlArgs.url args) (js "data:") = false ->
  url_hostname (ScrapeUrlArgs.url args) = inr hostname ->
  ScrapeUrlArgs.customHeaders args = Some custom ->
  let s' := (handleScrapeUrl args s).2 in
  domainHeaders s' = setHeaders hostname custom (domainHeaders s) /\
  (forall key value,
     custom !! key = Some value ->
     getHeaders hostname (domainHeaders s') !! key = Some value) /\
  emits (sends (ScrapeUrlArgs.url args) custom) s s' /\
  (forall later s2,
     domainHeaders s2 = domainHeaders s' ->
     ScrapeUrlArgs.customHeaders later = None ->
     domainHeaders (handleScrapeUrl later s2).2 = domainHeaders s2 /\
     emits (sends_to_domain hostname custom) s2 (handleScrapeUrl later s2).2) /\
  (forall schedule batch s2,
     domainHeaders s2 = domainHeaders s' ->
     domainHeaders (handleBatchScrape schedule batch s2).2
       = domainHeaders s2 /\
     emits (sends_to_domain hostname custom) s2
       (handleBatchScrape schedule batch s2).2).
Proof.
  intros Hdata Hhost Hcustom. cbn zeta.
  assert (custom ⊆ getHeaders hostname
                     (setHeaders hostname custom (domainHeaders s))) as Hsub.
  { rewrite getHeaders_setHeaders. apply map_union_subseteq_l. }
  assert (domainHeaders (handleScrapeUrl args s).2
            = setHeaders hostname custom (domainHeaders s) /\
          emits (sends (ScrapeUrlArgs.url args) custom) s
            (handleScrapeUrl args s).2) as [Hstore Hsent].
  { unfold handleScrapeUrl. cbn zeta. rewrite Hdata, Hcustom. cbn [negb].
    unfold bind at 1, bind at 1, lift at 1; cbn beta iota. rewrite Hhost.
    cbn beta iota. unfold bind at 1, modify at 1, gets at 1; cbn beta iota.
    set (sh := with_domainHeaders
                 (setHeaders hostname custom (domainHeaders s)) s).
    set (hs := getHeaders hostname (domainHeaders sh)).
    pose proof (fetch_and_format_registries (ScrapeUrlArgs.url args)
                  (default false (ScrapeUrlArgs.usePuppeteer args)) hs
                  (ScrapeUrlArgs.ruleSet args)
                  (default (js "markdown") (ScrapeUrlArgs.format args)) sh)
      as [Hreg _].
    pose proof (fetch_and_format_sends (ScrapeUrlArgs.url args)
                  (default false (ScrapeUrlArgs.usePuppeteer args)) hs
                  (ScrapeUrlArgs.ruleSet args)
                  (default (js "markdown") (ScrapeUrlArgs.format args)) sh)
      as Hev.
    unfold fetch_and_format in Hreg, Hev. split; [exact Hreg|].
    eapply emits_impl in Hev; [exact Hev|].
    intros [] He; try done; cbn in He |- *; destruct He as [-> He];
      (split; [done|]); (etrans; [exact Hsub|exact He]). }
  split; [done|]. split.
  { intros key value Hkey. rewrite Hstore, getHeaders_setHeaders.
    by apply lookup_union_Some_l. }
  split; [done|]. split.
  - intros later s2 Hsame Hnone.
    assert (custom ⊆ getHeaders hostname (domainHeaders s2)) as Hst
      by (by rewrite Hsame, Hstore).
    pose proof (batch_pipeline_sends hostname custom
                  (default (js "markdown") (ScrapeUrlArgs.format later))
                  (default false (ScrapeUrlArgs.usePuppeteer later))
                  (ScrapeUrlArgs.ruleSet later) (ScrapeUrlArgs.url later) s2 Hst)
      as Hpipe.
    by rewrite (handleScrapeUrl_plain later s2 Hnone).
  - intros schedule batch s2 Hsame.
    assert (custom ⊆ getHeaders hostname (domainHeaders s2)) as Hst
      by (by rewrite Hsame, Hstore).
    by destruct (batch_sends hostname custom schedule batch s2 Hst)
      as [[? _] ?].
Qed.

End HandlerFacts.

(** * Further properties *)

(** ** The normal form of [cleanText] *)

Section NormalForm.

Lemma tidy_spaces b s c :
  tidy b s = true -> c ∈ s -> is_space c = true -> c = SP.
Proof.
  revert b. induction s as [|x t IH]; intros b Ht Hc Hs.
  - by apply elem_of_nil in Hc.
  - cbn in Ht. apply elem_of_cons in Hc as [->|Hc].
    + rewrite Hs in Ht. apply andb_prop in Ht as [[Hx _]%andb_prop _].
      by apply N.eqb_eq in Hx.
    + destruct (is_space x); [apply andb_prop in Ht as [_ Ht]|]; eauto.
Qed.

Lemma tidy_no_double b pre c1 c2 post :
  tidy b (pre ++ c1 :: c2 :: post) = true ->
  is_space c1 = true -> is_space c2 = false.
Proof.
  revert b. induction pre as [|x t IH]; intros b Ht H1.
  - cbn in Ht. rewrite H1 in Ht. apply andb_prop in Ht as [_ Ht].
    destruct (is_space c2); [|done].
    by rewrite andb_false_r in Ht.
  - cbn in Ht.
    destruct (is_space x); [apply andb_prop in Ht as [_ Ht]|]; eauto.
Qed.

Lemma tidy_head s c : tidy false s = true -> starts_solid s ->
  head s = Some c -> is_space c = false.
Proof. destruct s as [|x t]; [done|]. cbn. by intros _ Hx [= <-]. Qed.

Lemma trimEnd_last s c : last (trimEnd s) = Some c -> is_space c = false.
Proof.
  induction s as [|x t IH]; cbn; [done|].
  destruct (trimEnd t) as [|y t'] eqn:Ht.
  - destruct (is_space x) eqn:Hx; cbn; [done|]. by intros [= <-].
  - intros Hl. apply IH. exact Hl.
Qed.

Lemma replace_ws_runs_from_solid b s c :
  c ∈ s -> is_space c = false -> c ∈ replace_ws_runs_from b s.
Proof.
  revert b. induction s as [|x t IH]; intros b Hc Hs.
  - by apply elem_of_nil in Hc.
  - cbn. apply elem_of_cons in Hc as [->|Hc].
    + rewrite Hs. left.
    + destruct (is_space x); [destruct b|]; try right; by apply IH.
Qed.

Lemma trimStart_solid s c :
  c ∈ s -> is_space c = false -> c ∈ trimStart s.
Proof.
  induction s as [|x t IH]; intros Hc Hs; [done|].
  cbn. destruct (is_space x) eqn:Hx; [|done].
  apply elem_of_cons in Hc as [->|Hc]; [congruence|]. by apply IH.
Qed.

Lemma trimEnd_solid s c :
  c ∈ s -> is_space c = false -> c ∈ trimEnd s.
Proof.
  induction s as [|x t IH]; intros Hc Hs; [done|].
  cbn. apply elem_of_cons in Hc as [->|Hc].
  - destruct (trimEnd t); [rewrite Hs|]; left.
  - specialize (IH Hc Hs). destruct (trimEnd t) as [|y t'].
    + by apply elem_of_nil in IH.
    + by right.
Qed.

Lemma replace_ws_runs_from_blank b s :
  (forall c, c ∈ s -> is_space c = true) ->
  forall c, c ∈ replace_ws_runs_from b s -> is_space c = true.
Proof.
  revert b. induction s as [|x t IH]; intros b Hall c Hc.
  - by apply elem_of_nil in Hc.
  - cbn in Hc. rewrite (Hall x) in Hc by left.
    assert (forall c, c ∈ t -> is_space c = true) as Ht
      by (intros ? ?; apply Hall; by right).
    destruct b; [by apply (IH true)|].
    apply elem_of_cons in Hc as [->|Hc]; [done|]. by apply (IH true).
Qed.

Lemma trimStart_blank s :
  (forall c, c ∈ s -> is_space c = true) -> trimStart s = [].
Proof.
  induction s as [|x t IH]; intros Hall; [done|].
  cbn. rewrite (Hall x) by left. apply IH. intros ? ?. apply Hall. by right.
Qed.

(** X2. [cleanText] brings every text to one normal form. After the first
    replacement no line feed is left, so the second one (blank lines) never
    matches. In the result white space occurs only as single spaces between
    other code units: no line feed, no tab, no two spaces in a row, none at
    either end. The result is empty exactly when the input is white space
    only. *)
Theorem cleanText_normal_form s :
  replace_blank_lines (replace_ws_runs s) = replace_ws_runs s /\
  (forall c, c ∈ cleanText s -> is_space c = true -> c = SP) /\
  (LF ∉ cleanText s) /\
  (forall pre post, cleanText s <> pre ++ SP :: SP :: post) /\
  (forall c, head (cleanText s) = Some c -> is_space c = false) /\
  (forall c, last (cleanText s) = Some c -> is_space c = false) /\
  (cleanText s = [] <-> forall c, c ∈ s -> is_space c = true).
Proof.
  assert (replace_blank_lines (replace_ws_runs s) = replace_ws_runs s) as Hdead.
  { unfold replace_blank_lines, replace_ws_runs.
    apply (tidy_replace_blank_lines false), replace_ws_runs_from_tidy. }
  pose proof (cleanText_tidy s) as Ht.
  split; [done|]. split_and!.
  - intros c. by apply (tidy_spaces false).
  - intros Hlf. by pose proof (tidy_spaces false _ _ Ht Hlf eq_refl).
  - intros pre post Heq. rewrite Heq in Ht.
    by pose proof (tidy_no_double _ _ _ _ _ Ht eq_refl).
  - intros c. apply tidy_head; [done|].
    unfold cleanText, trim. apply trimEnd_starts_solid, trimStart_starts_solid.
  - intros c. unfold cleanText, trim. apply trimEnd_last.
  - unfold cleanText. rewrite Hdead. unfold trim, replace_ws_runs. split.
    + intros Hempty c Hc. destruct (is_space c) eqn:Hs; [done|].
      pose proof (trimEnd_solid _ _
                    (trimStart_solid _ _
                       (replace_ws_runs_from_solid false _ _ Hc Hs) Hs) Hs) as Hin.
      rewrite Hempty in Hin. by apply elem_of_nil in Hin.
    + intros Hall.
      by rewrite (trimStart_blank _ (replace_ws_runs_from_blank false _ Hall)).
Qed.

End NormalForm.

(** ** More on the rule engine *)

Section RuleEngineFacts.
Context `{Cheerio} `{Runtime}.

Lemma uniq_from_NoDup seen xs :
  NoDup xs -> (forall x, x ∈ xs -> x ∉ seen) -> uniq_from seen xs = xs.
Proof.
  revert seen. induction xs as [|y t IH]; intros seen Hnd Hseen; cbn; [done|].
  apply NoDup_cons in Hnd as [Hy Hnd].
  rewrite bool_decide_eq_false_2 by (apply Hseen; left).
  f_equal. apply IH; [done|]. intros x Hx. rewrite elem_of_cons.
  intros [->|Hs]; [done|]. apply (Hseen x); [by right|done].
Qed.

Lemma set_spread_idempotent xs : set_spread (set_spread xs) = set_spread xs.
Proof.
  apply uniq_from_NoDup; [apply set_spread_NoDup|].
  intros x _. apply not_elem_of_nil.
Qed.

Lemma rule_title_again d rules content content' title :
  rule_title d rules content = inr title ->
  ScrapedContent.title content' = title ->
  rule_title d rules content' = inr title.
Proof.
  unfold rule_title. destruct (truthy _) as [selector|].
  - destruct (select d selector) as [?|matched]; [done|].
    destruct (take 1 matched); [|done]. intros [= <-] ->. done.
  - intros [= <-] ->. done.
Qed.

Lemma rule_content_again d rules content content' extracted :
  rule_content d rules content = inr extracted ->
  ScrapedContent.content content' = cleanText extracted ->
  exists extracted',
    rule_content d rules content' = inr extracted' /\
    cleanText extracted' = cleanText extracted.
Proof.
  unfold rule_content. destruct (truthy _) as [selector|].
  - destruct (select d selector) as [?|matched]; [done|].
    destruct matched.
    + intros [= <-] ->. eexists. split; [done|]. apply cleanText_idempotent.
    + intros [= <-] _. eauto.
  - intros [= <-] ->. eexists. split; [done|]. apply cleanText_idempotent.
Qed.

Lemma rule_refs_again d rule attribute base current refs :
  rule_refs d rule attribute base current = inr refs ->
  exists refs',
    rule_refs d rule attribute base (set_spread refs) = inr refs' /\
    set_spread refs' = set_spread refs.
Proof.
  unfold rule_refs. destruct (truthy rule) as [selector|].
  - destruct (select d selector) as [?|matched]; [done|].
    intros [= <-]. eauto.
  - intros [= <-]. eexists. split; [done|]. apply set_spread_idempotent.
Qed.

(** X3. Applying a rule set to its own result changes nothing: the second
    application succeeds and returns the record it was given. *)
Theorem applyRules_idempotent registry name content result :
  applyRules registry name content = inr result ->
  applyRules registry name result = inr result.
Proof.
  intros Hap.
  apply applyRules_inv in Hap
    as (rs & d & title & extracted & links & images & customData
        & Hrs & Hd & Ht & Hc & Hl & Hi & Hcd & Hres).
  assert (ScrapedContent.html result = ScrapedContent.html content) as Hhtml
    by (by rewrite Hres).
  assert (ScrapedContent.url result = ScrapedContent.url content) as Hurl
    by (by rewrite Hres).
  assert (ScrapedContent.links result = set_spread links) as Hlinks
    by (by rewrite Hres).
  assert (ScrapedContent.images result = set_spread images) as Himages
    by (by rewrite Hres).
  pose proof (rule_title_again _ _ _ result _ Ht) as Ht'.
  destruct (rule_content_again _ _ _ result _ Hc) as (extracted' & Hc' & Hce);
    [by rewrite Hres|].
  destruct (rule_refs_again _ _ _ _ _ _ Hl) as (links' & Hl' & Hle).
  destruct (rule_refs_again _ _ _ _ _ _ Hi) as (images' & Hi' & Hie).
  unfold applyRules. rewrite Hrs. cbn zeta.
  rewrite Hhtml, Hd, Ht' by (by rewrite Hres).
  rewrite Hc', Hurl, Hlinks, Hl', Himages, Hi'.
  rewrite Hres.
  cbn [ScrapedContent.url ScrapedContent.title ScrapedContent.content
       ScrapedContent.html ScrapedContent.links ScrapedContent.images
       ScrapedContent.metadata ScrapedContent.timestamp].
  rewrite Hcd, Hce, Hle, Hie. do 2 f_equal.
  apply map_eq. intros key.
  destruct (decide (key = js "appliedRuleSet")) as [->|Hk1];
    [by rewrite !lookup_insert_eq|].
  rewrite !(lookup_insert_ne _ (js "appliedRuleSet")) by done.
  destruct (decide (key = js "customData")) as [->|Hk2];
    [by rewrite !lookup_insert_eq|].
  rewrite !(lookup_insert_ne _ (js "customData")) by done.
  rewrite !(lookup_insert_ne _ (js "appliedRuleSet")) by done.
  by rewrite !(lookup_insert_ne _ (js "customData")) by done.
Qed.

Lemma obj_set_lookup_ne {V} (key other : jsstring) (value : V)
    (obj : gmap jsstring V) :
  other <> key -> obj_set key value obj !! other = obj !! other.
Proof.
  intros Hne. unfold obj_set. case_bool_decide; [done|].
  by apply lookup_insert_ne.
Qed.

Lemma obj_set_lookup_eq {V} (key : jsstring) (value : V)
    (obj : gmap jsstring V) :
  key <> js "__proto__" -> obj_set key value obj !! key = Some value.
Proof.
  intros Hne. unfold obj_set. rewrite bool_decide_eq_false_2 by done.
  apply lookup_insert_eq.
Qed.

Lemma custom_fields_lookup (d : Dom) (acc : gmap jsstring CustomValue)
    (entries : list (jsstring * jsstring)) (data : gmap jsstring CustomValue) :
  NoDup entries.*1 ->
  custom_fields d acc entries = inr data ->
  forall key : jsstring,
    (key ∉ entries.*1 -> data !! key = acc !! key) /\
    (forall selector : jsstring,
       (key, selector) ∈ entries -> key <> js "__proto__" ->
       select d selector = inr (query d selector) /\
       data !! key =
         match custom_value d (query d selector) with
         | Some value => Some value
         | None => acc !! key
         end).
Proof.
  revert acc. induction entries as [|[k sel] rest IH]; intros acc Hnd Hrun key.
  - cbn in Hrun. injection Hrun as <-. split; [done|].
    intros selector Hin. by apply elem_of_nil in Hin.
  - cbn [fmap list_fmap fst] in Hnd |- *.
    apply NoDup_cons in Hnd as [Hk Hnd].
    cbn [custom_fields] in Hrun.
    assert (select d sel = inr (query d sel) /\
            exists acc',
              custom_fields d acc' rest = inr data /\
              (forall other : jsstring, other <> k -> acc' !! other = acc !! other) /\
              (k <> js "__proto__" ->
               acc' !! k = match custom_value d (query d sel) with
                           | Some value => Some value
                           | None => acc !! k
                           end)) as (Hsel & acc' & Hrest & Hother & Hthis).
    { unfold select in Hrun |- *.
      destruct (selector_error sel); [done|]. split; [done|].
      unfold custom_value.
      destruct (query d sel) as [|e1 [|e2 more]]; eexists; (split; [exact Hrun|]);
        (split; [intros other Ho; by rewrite ?obj_set_lookup_ne by done|]);
        intros Hp; by rewrite ?obj_set_lookup_eq by done. }
    destruct (IH acc' Hnd Hrest key) as [IHout IHin]. split.
    + intros Hout. apply not_elem_of_cons in Hout as [Hne Hout].
      rewrite (IHout Hout). by apply Hother.
    + intros selector Hin Hp. apply elem_of_cons in Hin as [[= -> ->]|Hin].
      * split; [done|]. rewrite (IHout Hk). by apply Hthis.
      * assert (key <> k) as Hne.
        { intros ->. apply Hk. apply list_elem_of_fmap. by exists (k, selector). }
        destruct (IHin selector Hin Hp) as [Hs ->]. split; [done|].
        by rewrite (Hother key Hne).
Qed.

(** X4. The custom fields of a rule set (an object: its keys are distinct)
    end up under [metadata.customData] as follows: a field whose selector
    matches one element holds the trimmed text of that element; one whose
    selector matches several holds the list of their trimmed texts, in
    document order; one whose selector matches nothing is left out, as is
    every name the rule set does not define. *)
Theorem applyRules_custom_fields
    (registry : gmap jsstring RuleSet.t) (name : jsstring)
    (ruleSet : RuleSet.t) (content result : ScrapedContent.t)
    (entries : list (jsstring * jsstring)) :
  registry !! name = Some ruleSet ->
  ExtractionRule.custom (RuleSet.rules ruleSet) = Some entries ->
  NoDup entries.*1 ->
  applyRules registry name content = inr result ->
  exists queried customData,
    rule_document (RuleSet.rules ruleSet) (ScrapedContent.html content)
      = inr queried /\
    ScrapedContent.metadata result !! js "customData"
      = Some (MCustomData customData) /\
    (forall key selector : jsstring,
       (key, selector) ∈ entries -> key <> js "__proto__" ->
       customData !! key = custom_value queried (query queried selector)) /\
    (forall key : jsstring, key ∉ entries.*1 -> customData !! key = None).
Proof.
  intros Hreg Hcustom Hnd Hap.
  apply applyRules_inv in Hap
    as (rs & d & title & extracted & links & images & customData
        & Hrs & Hd & _ & _ & _ & _ & Hcd & ->).
  rewrite Hreg in Hrs. injection Hrs as <-.
  exists d, customData. split; [done|]. cbn.
  split; [rewrite lookup_insert_ne by done; apply lookup_insert_eq|].
  unfold rule_custom in Hcd. rewrite Hcustom in Hcd.
  pose proof (custom_fields_lookup d ∅ entries customData Hnd Hcd) as Hlook.
  split.
  - intros key selector Hin Hp.
    destruct (Hlook key) as [_ Hkey].
    destruct (Hkey selector Hin Hp) as [_ ->].
    destruct (custom_value d (query d selector)); [done|apply lookup_empty].
  - intros key Hout. destruct (Hlook key) as [Hkey _].
    rewrite (Hkey Hout). apply lookup_empty.
Qed.

(** X5. The registry of rule sets: a name registered again is replaced, so
    [applyRules] sees the latest rules only; a name deleted is unknown to
    [applyRules] afterwards; [deleteRuleSet] tells whether the name was
    there; neither operation touches another name. *)
Theorem ruleSet_registry_operations
    (registry : gmap jsstring RuleSet.t) (name : jsstring)
    (rules : ExtractionRule.t) (description : option jsstring)
    (content : ScrapedContent.t) :
  getRuleSet name (createRuleSet name rules description registry)
    = Some (RuleSet.Build name rules description) /\
  (forall earlier earlier_description other_description,
     applyRules
       (createRuleSet name rules description
          (createRuleSet name earlier earlier_description registry))
       name content
     = applyRules (createRuleSet name rules other_description ∅) name content) /\
  applyRules (deleteRuleSet name registry).2 name content
    = inl (unknown_rule_set name) /\
  getRuleSetDetails name (deleteRuleSet name registry).2 = None /\
  ((deleteRuleSet name registry).1 = true
   <-> is_Some (getRuleSet name registry)) /\
  (forall other : jsstring,
     other <> name ->
     applyRules (createRuleSet name rules description registry) other content
       = applyRules registry other content /\
     applyRules (deleteRuleSet name registry).2 other content
       = applyRules registry other content).
Proof.
  unfold getRuleSet, getRuleSetDetails, deleteRuleSet, createRuleSet,
    applyRules. cbn [fst snd].
  split_and!.
  - apply lookup_insert_eq.
  - intros earlier earlier_description other_description.
    by rewrite !lookup_insert_eq.
  - by rewrite lookup_delete_eq.
  - by rewrite lookup_delete_eq.
  - apply bool_decide_eq_true.
  - intros other Hne.
    by rewrite lookup_insert_ne, lookup_delete_ne by done.
Qed.

(** *** What makes [applyRules] fail *)

Lemma select_fails d selector error :
  select d selector = inl error -> selector_error selector = Some error.
Proof. unfold select. destruct (selector_error selector); [|done]. by intros [= ->]. Qed.

Lemma select_parses d selector :
  selector_error selector = None -> select d selector = inr (query d selector).
Proof. unfold select. by intros ->. Qed.

Lemma apply_excludes_fails d exclude error :
  apply_excludes d exclude = inl error ->
  exists selector, selector ∈ exclude /\ selector_error selector = Some error.
Proof.
  revert d. induction exclude as [|sel rest IH]; intros d; cbn; [done|].
  destruct (select d sel) as [err|matched] eqn:Hsel.
  - intros [= ->]. exists sel. split; [left|]. by apply (select_fails d).
  - intros Hrest. destruct (IH _ Hrest) as (selector & Hin & Herr).
    exists selector. split; [by right|done].
Qed.

Lemma custom_fields_fails (d : Dom) (acc : gmap jsstring CustomValue)
    (entries : list (jsstring * jsstring)) (error : JsError) :
  custom_fields d acc entries = inl error ->
  exists selector, selector ∈ entries.*2 /\ selector_error selector = Some error.
Proof.
  revert acc. induction entries as [|[key sel] rest IH]; intros acc; cbn; [done|].
  destruct (select d sel) as [err|matched] eqn:Hsel.
  - intros [= ->]. exists sel. split; [left|]. by apply (select_fails d).
  - intros Hrest.
    assert (exists acc', custom_fields d acc' rest = inl error) as [acc' Hrest'].
    { destruct matched as [|e1 [|e2 more]]; eauto. }
    destruct (IH _ Hrest') as (selector & Hin & Herr).
    exists selector. split; [by right|done].
Qed.

(** X21. [applyRules] fails in two cases only: the rule set is not
    registered, with the message that it does not exist; or one of the
    selectors of the rule set does not parse, with the error of cheerio for
    that selector. A registered rule set whose selectors all parse gives a
    record for every input record. *)
Theorem applyRules_failures (registry : gmap jsstring RuleSet.t)
    (name : jsstring) (content : ScrapedContent.t) :
  (forall error,
     applyRules registry name content = inl error ->
     (registry !! name = None /\ error = unknown_rule_set name) \/
     (exists ruleSet selector,
        registry !! name = Some ruleSet /\
        selector ∈ rule_selectors (RuleSet.rules ruleSet) /\
        selector_error selector = Some error)) /\
  (forall ruleSet,
     registry !! name = Some ruleSet ->
     (forall selector,
        selector ∈ rule_selectors (RuleSet.rules ruleSet) ->
        selector_error selector = None) ->
     exists result, applyRules registry name content = inr result).
Proof.
  assert (forall error,
     applyRules registry name content = inl error ->
     (registry !! name = None /\ error = unknown_rule_set name) \/
     (exists ruleSet selector,
        registry !! name = Some ruleSet /\
        selector ∈ rule_selectors (RuleSet.rules ruleSet) /\
        selector_error selector = Some error)) as Hfail.
  { intros error. unfold applyRules.
    destruct (registry !! name) as [ruleSet|]; [|intros [= <-]; by left].
    cbn zeta. intros Hrun. right. exists ruleSet.
    set (rules := RuleSet.rules ruleSet) in *.
    assert (forall (selector : jsstring) (l1 l2 : list jsstring),
              selector ∈ l2 -> selector ∈ l1 ++ l2) as Hskip
      by (intros; apply elem_of_app; by right).
    assert (forall (selector : jsstring) (l1 l2 : list jsstring),
              selector ∈ l1 -> selector ∈ l1 ++ l2) as Hhere
      by (intros; apply elem_of_app; by left).
    unfold rule_selectors.
    destruct (rule_document rules (ScrapedContent.html content))
      as [err|d] eqn:Hd.
    { injection Hrun as ->. unfold rule_document in Hd.
      destruct (ExtractionRule.exclude rules) as [[|sel rest]|] eqn:Hex;
        try done.
      apply apply_excludes_fails in Hd as (selector & Hin & Herr).
      exists selector. split; [done|]. split; [|done].
      by apply Hhere. }
    destruct (rule_title d rules content) as [err|title] eqn:Ht.
    { injection Hrun as ->. unfold rule_title in Ht.
      destruct (truthy (ExtractionRule.title rules)) as [sel|] eqn:Hsel;
        [|done].
      destruct (select d sel) as [err|matched] eqn:Hs;
        [|by destruct (take 1 matched)].
      injection Ht as ->. exists sel. split; [done|].
      split; [|by apply (select_fails d)].
      apply Hskip, Hhere. left. }
    destruct (rule_content d rules content) as [err|extracted] eqn:Hc.
    { injection Hrun as ->. unfold rule_content in Hc.
      destruct (truthy (ExtractionRule.content rules)) as [sel|] eqn:Hsel;
        [|done].
      destruct (select d sel) as [err|matched] eqn:Hs;
        [|by destruct matched].
      injection Hc as ->. exists sel. split; [done|].
      split; [|by apply (select_fails d)].
      apply Hskip, Hskip, Hhere. left. }
    destruct (rule_refs d (ExtractionRule.links rules) _ _ _)
      as [err|links] eqn:Hl.
    { injection Hrun as ->. unfold rule_refs in Hl.
      destruct (truthy (ExtractionRule.links rules)) as [sel|] eqn:Hsel;
        [|done].
      destruct (select d sel) as [err|matched] eqn:Hs; [|done].
      injection Hl as ->. exists sel. split; [done|].
      split; [|by apply (select_fails d)].
      apply Hskip, Hskip, Hskip, Hhere. left. }
    destruct (rule_refs d (ExtractionRule.images rules) _ _ _)
      as [err|images] eqn:Hi.
    { injection Hrun as ->. unfold rule_refs in Hi.
      destruct (truthy (ExtractionRule.images rules)) as [sel|] eqn:Hsel;
        [|done].
      destruct (select d sel) as [err|matched] eqn:Hs; [|done].
      injection Hi as ->. exists sel. split; [done|].
      split; [|by apply (select_fails d)].
      apply Hskip, Hskip, Hskip, Hskip, Hhere. left. }
    destruct (rule_custom d rules) as [err|customData] eqn:Hcd; [|done].
    injection Hrun as ->. unfold rule_custom in Hcd.
    destruct (ExtractionRule.custom rules) as [entries|] eqn:Hcustom; [|done].
    apply custom_fields_fails in Hcd as (selector & Hin & Herr).
    exists selector. split; [done|]. split; [|done].
    by do 5 apply Hskip. }
  split; [exact Hfail|].
  intros ruleSet Hreg Hparse.
  destruct (applyRules registry name content) as [error|result] eqn:Hrun;
    [|by exists result].
  destruct (Hfail error eq_refl)
    as [[Hnone _]|(rs & selector & Hrs & Hin & Herr)].
  - by rewrite Hreg in Hnone.
  - rewrite Hreg in Hrs. injection Hrs as <-.
    by rewrite (Hparse selector Hin) in Herr.
Qed.

End RuleEngineFacts.

(** ** More on the header manager *)

Section HeaderFacts.
Context `{Runtime}.

Lemma startsWith_app (p t : jsstring) : startsWith (p ++ t) p = true.
Proof.
  induction p as [|x p IH]; cbn; [by destruct t|]. by rewrite N.eqb_refl.
Qed.

Lemma startsWith_split (s p : jsstring) :
  startsWith s p = true -> exists t, s = p ++ t.
Proof.
  revert s. induction p as [|x p IH]; intros s Hs; [by exists s|].
  destruct s as [|y s]; [done|]. cbn in Hs.
  apply andb_prop in Hs as [Hxy Hs]. apply N.eqb_eq in Hxy as ->.
  destruct (IH s Hs) as [t ->]. by exists t.
Qed.

Lemma before_first_app (c : jschar) (s t : jsstring) :
  c ∉ s -> before_first c (s ++ t) = s ++ before_first c t.
Proof.
  induction s as [|x s IH]; intros Hc; [done|].
  apply not_elem_of_cons in Hc as [Hx Hc]. cbn.
  rewrite (proj2 (N.eqb_neq x c)) by congruence. by rewrite IH.
Qed.

Lemma before_first_absent (c : jschar) (s : jsstring) :
  c ∉ s -> before_first c s = s.
Proof.
  intros Hc. rewrite <- (app_nil_r s) at 1.
  rewrite before_first_app by done. apply app_nil_r.
Qed.

Lemma before_first_here (c : jschar) (s t : jsstring) :
  c ∉ s -> before_first c (s ++ c :: t) = s.
Proof.
  intros Hc. rewrite before_first_app by done. cbn.
  rewrite N.eqb_refl. apply app_nil_r.
Qed.

(** What is left of [host ++ rest] after the path and the port are cut. *)
Lemma host_of_authority (host rest : jsstring) :
  47 ∉ host -> 58 ∉ host ->
  rest = [] \/ (exists c rest', rest = c :: rest' /\ (c = 47 \/ c = 58)) ->
  before_first 58 (before_first 47 (host ++ rest)) = host.
Proof.
  intros Hslash Hcolon [->|(c & rest' & -> & [->| ->])].
  - rewrite app_nil_r.
    by rewrite (before_first_absent 47), (before_first_absent 58).
  - rewrite (before_first_here 47) by done. by apply before_first_absent.
  - rewrite (before_first_app 47) by done. by apply before_first_here.
Qed.

Lemma strip_scheme_bare (host rest : jsstring) :
  58 ∉ host ->
  rest = [] \/ (exists c rest', rest = c :: rest' /\ (c = 47 \/ c = 58)) ->
  host <> js "http" -> host <> js "https" ->
  strip_scheme (host ++ rest) = host ++ rest.
Proof.
  intros Hcolon Hrest Hhttp Hhttps. unfold strip_scheme.
  destruct (startsWith (host ++ rest) (js "https://")) eqn:Hs.
  { exfalso. apply startsWith_split in Hs as [t Hs].
    destruct host as [|a [|b [|c [|d [|e [|f host]]]]]];
      destruct Hrest as [->|(x & rest' & -> & [->| ->])];
      simplify_eq/=; try done;
      apply Hcolon; repeat first [apply list_elem_of_here | apply list_elem_of_further]. }
  destruct (startsWith (host ++ rest) (js "http://")) eqn:Hs'; [|done].
  exfalso. apply startsWith_split in Hs' as [t Hs'].
  destruct host as [|a [|b [|c [|d [|e host]]]]];
    destruct Hrest as [->|(x & rest' & -> & [->| ->])];
    simplify_eq/=; try done;
    apply Hcolon; repeat first [apply list_elem_of_here | apply list_elem_of_further].
Qed.

(** X6. The header store is keyed by the normalised domain: two domain
    strings with the same normal form share one entry, so headers set under
    one are merged into what the other reads, and a domain with another
    normal form is not affected. Two calls of [setHeaders] compose into one
    with the union of their headers, the later call winning; a call repeated
    changes nothing. *)
Theorem setHeaders_by_normalised_domain (domain other : jsstring)
    (headers later : Headers) (store : gmap jsstring Headers) :
  (normalizeDomain other = normalizeDomain domain ->
   getHeaders other (setHeaders domain headers store)
     = headers ∪ getHeaders other store) /\
  (normalizeDomain other <> normalizeDomain domain ->
   getHeaders other (setHeaders domain headers store)
     = getHeaders other store) /\
  setHeaders domain later (setHeaders domain headers store)
    = setHeaders domain (later ∪ headers) store /\
  setHeaders domain headers (setHeaders domain headers store)
    = setHeaders domain headers store.
Proof.
  unfold getHeaders, setHeaders, spread2. cbn zeta. split_and!.
  - intros ->. by rewrite lookup_insert_eq.
  - intros Hne. by rewrite lookup_insert_ne.
  - rewrite lookup_insert_eq, insert_insert_eq. cbn [default id].
    by rewrite (assoc_L (∪)).
  - rewrite lookup_insert_eq, insert_insert_eq. cbn [default id].
    by rewrite (assoc_L (∪)), (idemp_L (∪)).
Qed.

(** X7. [normalizeDomain] reads the host out of a URL: for a host without
    [/] and [:], the forms [http(s)://host], [http(s)://host:port/path],
    [host:port], [host/path] and [host] all normalise to the host in lower
    case, and so name the same entry of the store. (A bare host [http] or
    [https] followed by [://] is read as a scheme.) *)
Theorem normalizeDomain_of_url (scheme host rest : jsstring) :
  scheme = js "http://" \/ scheme = js "https://" ->
  47 ∉ host -> 58 ∉ host ->
  rest = [] \/ (exists c rest', rest = c :: rest' /\ (c = 47 \/ c = 58)) ->
  normalizeDomain (scheme ++ host ++ rest) = toLowerCase host /\
  normalizeDomain host = toLowerCase host /\
  (host <> js "http" -> host <> js "https" ->
   normalizeDomain (host ++ rest) = toLowerCase host) /\
  (forall store : gmap jsstring Headers,
     getHeaders (scheme ++ host ++ rest) store = getHeaders host store).
Proof.
  intros Hscheme Hslash Hcolon Hrest.
  assert (normalizeDomain (scheme ++ host ++ rest) = toLowerCase host) as Hurl.
  { unfold normalizeDomain.
    assert (strip_scheme (scheme ++ host ++ rest) = host ++ rest) as ->.
    { unfold strip_scheme. destruct Hscheme as [-> | ->].
      - change (startsWith (js "http://" ++ host ++ rest) (js "https://"))
          with false.
        by rewrite startsWith_app.
      - by rewrite startsWith_app. }
    by rewrite host_of_authority. }
  assert (normalizeDomain host = toLowerCase host) as Hbare.
  { unfold normalizeDomain.
    assert (strip_scheme host = host) as ->.
    { unfold strip_scheme.
      destruct (startsWith host (js "https://")) eqn:Hs.
      { apply startsWith_split in Hs as [t ->]. exfalso. apply Hcolon.
        repeat first [apply list_elem_of_here | apply list_elem_of_further]. }
      destruct (startsWith host (js "http://")) eqn:Hs'; [|done].
      apply startsWith_split in Hs' as [t ->]. exfalso. apply Hcolon.
      repeat first [apply list_elem_of_here | apply list_elem_of_further]. }
    by rewrite (before_first_absent 47), (before_first_absent 58). }
  split; [done|]. split; [done|]. split.
  - intros Hhttp Hhttps. unfold normalizeDomain.
    rewrite strip_scheme_bare by done. by rewrite host_of_authority.
  - intros store. unfold getHeaders. cbn zeta. by rewrite Hurl, Hbare.
Qed.

(** X8. [removeHeaders] drops the whole entry of a domain: afterwards the
    domain has no headers, and a following [setHeaders] stores exactly the
    new headers, with nothing of the old ones merged in. It returns whether
    an entry was there, and leaves other domains alone. *)
Theorem removeHeaders_then_setHeaders (domain : jsstring) (headers : Headers)
    (store : gmap jsstring Headers) :
  getHeaders domain (removeHeaders domain store).2 = ∅ /\
  ((removeHeaders domain store).1 = true
   <-> is_Some (store !! normalizeDomain domain)) /\
  getHeaders domain (setHeaders domain headers (removeHeaders domain store).2)
    = headers /\
  (forall other : jsstring,
     normalizeDomain other <> normalizeDomain domain ->
     getHeaders other (removeHeaders domain store).2 = getHeaders other store).
Proof.
  unfold getHeaders, setHeaders, removeHeaders, spread2. cbn [fst snd]. cbn zeta.
  split_and!.
  - by rewrite lookup_delete_eq.
  - apply bool_decide_eq_true.
  - rewrite lookup_insert_eq, lookup_delete_eq. cbn [default id].
    apply (right_id_L ∅ (∪)).
  - intros other Hne. by rewrite lookup_delete_ne.
Qed.

(** X9. [removeHeaderField] removes one header of a domain and keeps the
    others; the domain keeps its entry, even when that was its last header.
    The answer is [true] when the domain has an entry and the field name is
    a header of it or one of the names a plain object inherits (such as
    [toString]), in which case nothing is removed. *)
Theorem removeHeaderField_removes_one (domain fieldName : jsstring)
    (store : gmap jsstring Headers) :
  let after := (removeHeaderField domain fieldName store).2 in
  ((removeHeaderField domain fieldName store).1 = true
   <-> is_Some (store !! normalizeDomain domain) /\
       (is_Some (getHeaders domain store !! fieldName) \/
        fieldName ∈ object_prototype_keys)) /\
  getHeaders domain after !! fieldName = None /\
  (forall other : jsstring,
     other <> fieldName ->
     getHeaders domain after !! other = getHeaders domain store !! other) /\
  (is_Some (after !! normalizeDomain domain)
   <-> is_Some (store !! normalizeDomain domain)) /\
  (forall elsewhere : jsstring,
     normalizeDomain elsewhere <> normalizeDomain domain ->
     getHeaders elsewhere after = getHeaders elsewhere store).
Proof.
  cbn zeta. unfold getHeaders, removeHeaderField, has_property. cbn zeta.
  destruct (store !! normalizeDomain domain) as [headers|] eqn:Hentry;
    cbn [default id].
  - destruct (bool_decide (is_Some (headers !! fieldName))
              || bool_decide (fieldName ∈ object_prototype_keys)) eqn:Hin;
      cbn [fst snd].
    + apply orb_true_iff in Hin.
      rewrite !bool_decide_eq_true in Hin.
      rewrite !lookup_insert_eq. cbn [default id]. split_and!.
      * split; [by intros _|done].
      * apply lookup_delete_eq.
      * intros other Hne. by apply lookup_delete_ne.
      * split; by intros _.
      * intros elsewhere Hne. by rewrite lookup_insert_ne.
    + apply orb_false_iff in Hin as [Hown Hproto].
      apply bool_decide_eq_false in Hown, Hproto.
      rewrite Hentry. cbn [default id]. split_and!.
      * split; [done|]. intros [_ [?|?]]; done.
      * by apply eq_None_not_Some.
      * done.
      * done.
      * done.
  - cbn [fst snd]. rewrite Hentry. cbn [default id]. split_and!; try done.
    split; [done|]. by intros [[? [=]] _].
Qed.

(** X10. [setApiHeaders] sets [Authorization: Bearer <key>] only when a
    non-empty key is given. Called without a key (or with the empty string)
    it leaves an [Authorization] header already stored for the domain in
    place, like every header it does not name; [Accept], [Content-Type] and
    [Accept-Language] are overwritten in both cases. *)
Theorem setApiHeaders_authorization (domain : jsstring)
    (apiKey : option jsstring) (store : gmap jsstring Headers) :
  let before := getHeaders domain store in
  let after := getHeaders domain (setApiHeaders domain apiKey store) in
  (forall key : jsstring,
     truthy apiKey = Some key ->
     after !! js "Authorization" = Some (js "Bearer " ++ key)) /\
  (truthy apiKey = None ->
   after !! js "Authorization" = before !! js "Authorization") /\
  after !! js "Accept" = Some (js "application/json, text/plain, */*") /\
  after !! js "Content-Type" = Some (js "application/json") /\
  after !! js "Accept-Language" = Some (js "zh-CN,zh;q=0.9,en;q=0.8") /\
  (forall name : jsstring,
     name ∉ [js "Accept"; js "Content-Type"; js "Accept-Language";
              js "Authorization"] ->
     after !! name = before !! name).
Proof.
  cbn zeta. unfold setApiHeaders. rewrite getHeaders_setHeaders.
  unfold apiHeaders. cbn zeta. split_and!.
  - intros key ->. apply lookup_union_Some_l, lookup_insert_eq.
  - intros ->. apply lookup_union_r.
    by rewrite !lookup_insert_ne, lookup_singleton_ne.
  - apply lookup_union_Some_l.
    destruct (truthy apiKey);
      by rewrite !lookup_insert_ne, lookup_singleton_eq.
  - apply lookup_union_Some_l.
    destruct (truthy apiKey);
      rewrite ?(lookup_insert_ne _ (js "Authorization")) by done;
      by rewrite lookup_insert_ne, lookup_insert_eq.
  - apply lookup_union_Some_l.
    destruct (truthy apiKey);
      rewrite ?(lookup_insert_ne _ (js "Authorization")) by done;
      by rewrite lookup_insert_eq.
  - intros name Hname. apply lookup_union_r.
    rewrite !not_elem_of_cons in Hname.
    destruct Hname as (H1 & H2 & H3 & H4 & _).
    destruct (truthy apiKey);
      by rewrite !lookup_insert_ne, lookup_singleton_ne.
Qed.

End HeaderFacts.

(** ** More on the extractor: page metadata *)

Section MetadataFacts.
Context `{Cheerio} `{Runtime}.

Lemma meta_step_entry (d : Dom) (metadata : gmap jsstring MetaValue)
    (element : Node) :
  meta_step d metadata element =
  match meta_entry d element with
  | Some (name, metaContent) => obj_set name (MString metaContent) metadata
  | None => metadata
  end.
Proof.
  unfold meta_step, meta_entry.
  destruct (truthy (attr d element (js "name")));
    [|destruct (truthy (attr d element (js "property")))];
    by destruct (truthy (attr d element (js "content"))).
Qed.

Lemma meta_fold_sound (d : Dom) (elements : list Node)
    (acc : gmap jsstring MetaValue) (key : jsstring) (value : MetaValue) :
  foldl (meta_step d) acc elements !! key = Some value ->
  acc !! key = Some value \/
  exists element metaContent,
    element ∈ elements /\
    meta_entry d element = Some (key, metaContent) /\
    value = MString metaContent /\ key <> js "__proto__".
Proof.
  revert acc. induction elements as [|el rest IH]; intros acc Hlook; [by left|].
  cbn [foldl] in Hlook. apply IH in Hlook as [Hacc|(e & c & Hin & He & Hv & Hk)].
  - rewrite meta_step_entry in Hacc.
    destruct (meta_entry d el) as [[name metaContent]|] eqn:Hentry; [|by left].
    unfold obj_set in Hacc. case_bool_decide as Hproto; [by left|].
    destruct (decide (key = name)) as [->|Hne].
    + rewrite lookup_insert_eq in Hacc. injection Hacc as <-.
      right. exists el, metaContent. split; [left|done].
    + rewrite lookup_insert_ne in Hacc by done. by left.
  - right. exists e, c. split; [by right|done].
Qed.

Lemma meta_fold_untouched (d : Dom) (elements : list Node)
    (acc : gmap jsstring MetaValue) (key : jsstring) :
  (forall element metaContent,
     element ∈ elements -> meta_entry d element <> Some (key, metaContent)) ->
  foldl (meta_step d) acc elements !! key = acc !! key.
Proof.
  revert acc. induction elements as [|el rest IH]; intros acc Hnone; [done|].
  cbn [foldl]. rewrite IH by (intros e c Hin; apply Hnone; by right).
  rewrite meta_step_entry.
  destruct (meta_entry d el) as [[name metaContent]|] eqn:Hentry; [|done].
  apply obj_set_lookup_ne. intros ->. by apply (Hnone el metaContent); [left|].
Qed.

(** X11. The metadata of an extracted record comes from the [meta] elements
    of the document, read after the noise has been removed: an entry is the
    [content] of an element whose [name] (or, without a name, [property]) is
    the key; of several elements with one key the last in document order
    wins; an element without a name or without content, or named
    [__proto__], leaves no entry. *)
Theorem extractContent_metadata d url html now :
  exists record d',
    extractContent d url html now = inr record /\
    (forall (key : jsstring) (value : MetaValue),
       ScrapedContent.metadata record !! key = Some value ->
       exists element metaContent,
         element ∈ query d' (js "meta") /\
         meta_entry d' element = Some (key, metaContent) /\
         value = MString metaContent /\ key <> js "__proto__") /\
    (forall (earlier later : list Node) (element : Node)
            (key metaContent : jsstring),
       query d' (js "meta") = earlier ++ element :: later ->
       meta_entry d' element = Some (key, metaContent) ->
       key <> js "__proto__" ->
       (forall other otherContent,
          other ∈ later -> meta_entry d' other <> Some (key, otherContent)) ->
       ScrapedContent.metadata record !! key = Some (MString metaContent)).
Proof.
  destruct (extractContent_shape d url html now)
    as (title & d' & content & _ & _ & ->).
  eexists _, d'. split; [reflexivity|]. cbn [ScrapedContent.metadata]. split.
  - intros key value Hlook.
    apply meta_fold_sound in Hlook as [Hempty|Hfound]; [|done].
    by rewrite lookup_empty in Hempty.
  - intros earlier later element key metaContent -> Hentry Hproto Hlast.
    rewrite foldl_app. cbn [foldl].
    rewrite meta_fold_untouched by done.
    rewrite meta_step_entry, Hentry. by apply obj_set_lookup_eq.
Qed.

(** *** The choice of the main text *)

Lemma content_loop_absent d content absent rest :
  (forall selector,
     selector ∈ absent ->
     selector ∈ extractor_selectors /\ query d selector = []) ->
  content_loop d content (absent ++ rest) = content_loop d content rest.
Proof.
  induction absent as [|sel more IH]; intros Habsent; [done|].
  cbn [app content_loop].
  destruct (Habsent sel) as [Hparse Hnone]; [left|].
  rewrite (select_extractor d sel Hparse), Hnone. cbn.
  apply IH. intros selector Hin. apply Habsent. by right.
Qed.

(** X22. The main text is taken from the first content candidate (in the
    order [main], [article], [.content], ..., [body]) that the document has,
    read after the noise elements inside it have been removed, in two cases:
    when that text is longer than 100 code units (the later candidates are
    then not looked at), and when it is not empty and the document has none
    of the later candidates. The links, the images and the metadata are then
    read from the document with that noise removed, and nothing else: an
    anchor in a [nav] outside the candidate is still a link. *)
Theorem extractContent_first_candidate d url html now
    (absent : list jsstring) (selector : jsstring) (later : list jsstring) :
  contentSelectors = absent ++ selector :: later ->
  (forall earlier, earlier ∈ absent -> query d earlier = []) ->
  query d selector <> [] ->
  let cleaned := remove d (query_in d (query d selector) candidateNoise) in
  (100 < length (trim (text cleaned (query d selector))))%nat \/
  (trim (text cleaned (query d selector)) <> [] /\
   forall other, other ∈ later -> query cleaned other = []) ->
  exists record,
    extractContent d url html now = inr record /\
    ScrapedContent.content record
      = cleanText (trim (text cleaned (query d selector))) /\
    ScrapedContent.links record
      = set_spread
          (resolved_refs cleaned url (js "href") (query cleaned (js "a[href]"))) /\
    ScrapedContent.images record
      = set_spread
          (resolved_refs cleaned url (js "src") (query cleaned (js "img[src]"))) /\
    ScrapedContent.metadata record
      = foldl (meta_step cleaned) ∅ (query cleaned (js "meta")).
Proof.
  intros Hsplit Habsent Hpresent cleaned Hchosen.
  assert (forall s, s ∈ contentSelectors -> s ∈ extractor_selectors) as Hcand.
  { intros s Hs. unfold extractor_selectors. apply elem_of_app. by right. }
  assert (content_loop d [] contentSelectors
          = inr (cleaned, trim (text cleaned (query d selector)))) as Hloop.
  { rewrite Hsplit. rewrite content_loop_absent.
    - cbn [content_loop].
      rewrite select_extractor
        by (apply Hcand; rewrite Hsplit; apply elem_of_app; right; left).
      assert ((0 <? length (query d selector))%nat = true) as ->
        by (by destruct (query d selector)).
      rewrite find_extractor
        by (unfold extractor_selectors; cbn [app];
            repeat first [apply list_elem_of_here | apply list_elem_of_further]).
      cbn zeta. fold cleaned.
      destruct (100 <? length (trim (text cleaned (query d selector))))%nat
        eqn:Hlen; [done|].
      destruct Hchosen as [Hlong|[_ Hlater]].
      { apply Nat.ltb_lt in Hlong. congruence. }
      rewrite <- (app_nil_r later). rewrite content_loop_absent; [done|].
      intros other Hin. split; [|by apply Hlater].
      apply Hcand. rewrite Hsplit. apply elem_of_app. right. by right.
    - intros earlier Hin. split; [|by apply Habsent].
      apply Hcand. rewrite Hsplit. apply elem_of_app. by left. }
  assert (exists c rest, trim (text cleaned (query d selector)) = c :: rest)
    as (c & rest & Htext).
  { destruct Hchosen as [Hlong|[Hsome _]]; revert Hlong || revert Hsome;
      destruct (trim _) as [|c rest]; try (cbn; lia); try done; eauto. }
  unfold extractContent.
  rewrite (select_extractor d (js "title"))
    by (unfold extractor_selectors; cbn [app];
        repeat first [apply list_elem_of_here | apply list_elem_of_further]).
  assert (exists title,
    match trim (text d (query d (js "title"))) with
    | [] =>
      let? h1 := select d (js "h1") in
      match trim (text d (take 1 h1)) with
      | [] => inr (js "无标题")
      | c :: s => inr (c :: s)
      end
    | c :: s => inr (c :: s)
    end = (inr title : Result jsstring)) as (title & ->).
  { destruct (trim (text d (query d (js "title")))); [|eauto].
    rewrite (select_extractor d (js "h1"))
      by (unfold extractor_selectors; cbn [app];
          repeat first [apply list_elem_of_here | apply list_elem_of_further]).
    destruct (trim (text d (take 1 (query d (js "h1"))))); eauto. }
  rewrite Hloop, Htext. cbn beta iota.
  rewrite (select_extractor cleaned (js "a[href]"))
    by (unfold extractor_selectors; cbn [app];
        repeat first [apply list_elem_of_here | apply list_elem_of_further]).
  rewrite (select_extractor cleaned (js "img[src]"))
    by (unfold extractor_selectors; cbn [app];
        repeat first [apply list_elem_of_here | apply list_elem_of_further]).
  rewrite (select_extractor cleaned (js "meta"))
    by (unfold extractor_selectors; cbn [app];
        repeat first [apply list_elem_of_here | apply list_elem_of_further]).
  eexists. split; [reflexivity|].
  cbn [ScrapedContent.content ScrapedContent.links ScrapedContent.images
       ScrapedContent.metadata].
  done.
Qed.

End MetadataFacts.

(** ** More on the scraper *)

(** Side conditions of [preserve] for a relation [emits P]. *)
Ltac settle_emits :=
  intros;
  first
    [ apply emits_one; cbn; done
    | eexists []; cbn; rewrite app_nil_r; split; [reflexivity | constructor] ].

Section TierFacts.
Context `{Cheerio} `{Runtime} `{World} `{Formatters}.

Lemma scrapeWithPuppeteer_no_static url options :
  preserves (emits (fun e => is_static_tier e = false))
    (scrapeWithPuppeteer url options).
Proof.
  unfold scrapeWithPuppeteer, ensure_session, launch_session,
    ensureBrowserIsReady, open_page, drive_page, close_page, clock.
  preserve; settle_emits.
Qed.

(** X12. For a [data:] address, and when the caller forces the browser,
    [scrape] is the render tier alone: no GET is sent and nothing is written
    to the error console. *)
Theorem scrape_render_tier_only url options s :
  startsWith url (js "data:") = true \/
  default false (ScrapeOptions.usePuppeteer options) = true ->
  scrape url options s = scrapeWithPuppeteer url options s /\
  emits (fun e => is_static_tier e = false) s (scrape url options s).2.
Proof.
  intros Hrender.
  assert (scrape url options s = scrapeWithPuppeteer url options s) as ->.
  { unfold scrape. cbn zeta. destruct Hrender as [-> | ->]; [done|].
    by destruct (startsWith url (js "data:")). }
  split; [done|]. apply scrapeWithPuppeteer_no_static.
Qed.

(** X13. [scrapeWithAxios] sends one GET, with the caller's headers and a
    desktop [User-Agent] that a [User-Agent] of the caller replaces. It
    touches neither the browser session nor the registries. It fails exactly
    when the GET fails, with the message of the cause behind the label of the
    static tier; otherwise the record holds the body received and the
    address asked for. *)
Theorem scrapeWithAxios_one_request url options s :
  let headers := default ∅ (ScrapeOptions.headers options) in
  let sent := headers ∪ {[js "User-Agent" := axiosUserAgent]} in
  let timeout := default 15000 (ScrapeOptions.timeout options) in
  let run := scrapeWithAxios url options s in
  trace run.2 = trace s ++ [EvHttpGet url sent] /\
  sent !! js "User-Agent"
    = Some (default axiosUserAgent (headers !! js "User-Agent")) /\
  headers ⊆ sent /\
  same_session s run.2 /\
  same_registries s run.2 /\
  match run.1 with
  | inr record =>
    exists w,
      axios_get url sent timeout (world s)
        = (inr (ScrapedContent.html record), w) /\
      ScrapedContent.url record = url
  | inl error =>
    exists cause w,
      axios_get url sent timeout (world s) = (inl cause, w) /\
      message error = js "Axios爬取失败: " ++ message cause
  end.
Proof.
  cbn zeta. unfold scrapeWithAxios. cbn zeta. unfold spread2.
  set (headers := default ∅ (ScrapeOptions.headers options)).
  set (sent := headers ∪ {[js "User-Agent" := axiosUserAgent]}).
  assert (sent !! js "User-Agent"
          = Some (default axiosUserAgent (headers !! js "User-Agent"))) as Hua.
  { unfold sent. rewrite lookup_union.
    destruct (headers !! js "User-Agent") as [ua|]; [done|].
    by rewrite lookup_singleton_eq. }
  assert (headers ⊆ sent) as Hsub by apply map_union_subseteq_l.
  unfold clock, try_catch, bind, emit, modify, external, lift, throw.
  cbn [world with_trace with_world].
  destruct (axios_get url sent _ (world s)) as [[cause|body] w] eqn:Hget;
    cbn [world with_trace with_world].
  - cbn. split_and!; try done. by exists cause, w.
  - destruct (clock_iso w) as [now w'].
    destruct (extractContent_shape (load body) url body now)
      as (title & d' & content & _ & _ & ->).
    cbn. split_and!; try done. by exists w.
Qed.

(** X14. A failure of [scrapeWithPuppeteer] carries the label of the render
    tier before the message of its cause, whether the cause was the browser,
    the page or the navigation; the one exception is a failure of
    [page.close()] in the [finally] block, which surfaces as it is. *)
Theorem scrapeWithPuppeteer_failure_label url options s error s' :
  scrapeWithPuppeteer url options s = (inl error, s') ->
  startsWith (message error) (js "Puppeteer爬取失败: ") = true \/
  exists p w, EvPageClose p ∈ trace s' /\ page_close p w = (inl error, world s').
Proof.
  unfold scrapeWithPuppeteer, bind at 1, modify at 1, finally, try_catch.
  cbn beta iota.
  destruct (bind ensure_session _ _) as [[cause|record] s1].
  - unfold throw, close_page, bind, gets.
    destruct (page s1) as [p|].
    + unfold emit, modify, external. cbn [world with_trace].
      destruct (page_close p (world s1)) as [[err|[]] w] eqn:Hclose.
      * intros [= <- <-]. right. exists p, (world s1). cbn.
        split; [|done]. apply elem_of_app. right. left.
      * intros [= <- <-]. left.
        apply (startsWith_app (js "Puppeteer爬取失败: ")).
    + unfold ret. intros [= <- <-]. left.
        apply (startsWith_app (js "Puppeteer爬取失败: ")).
  - unfold close_page, bind, gets.
    destruct (page s1) as [p|].
    + unfold emit, modify, external. cbn [world with_trace].
      destruct (page_close p (world s1)) as [[err|[]] w] eqn:Hclose.
      * intros [= <- <-]. right. exists p, (world s1). cbn.
        split; [|done]. apply elem_of_app. right. left.
      * intros [=].
    + unfold ret. intros [=].
Qed.

End TierFacts.

(** ** More on the browser: executable and session *)

Section BrowserFacts.
Context `{Cheerio} `{Runtime} `{World} `{Formatters}.

Lemma truthy_Some (o : option jsstring) (v : jsstring) :
  truthy o = Some v -> o = Some v /\ v <> [].
Proof. destruct o as [[|c t]|]; cbn; [done| |done]. by intros [= <-]. Qed.

Lemma first_existing_elem w paths path :
  first_existing w paths = Some path -> path ∈ paths.
Proof.
  induction paths as [|p rest IH]; cbn; [done|].
  destruct (fs_existsSync p w).
  - intros [= ->]. left.
  - intros Hrest. right. by apply IH.
Qed.

Lemma defaultChromePaths_nonempty path :
  path ∈ defaultChromePaths -> path <> [].
Proof.
  unfold defaultChromePaths. destruct platform_win32; intros Hin;
    repeat (apply elem_of_cons in Hin as [->|Hin]; [try done|]);
    try by apply elem_of_nil in Hin.
  intros Heq. by apply app_eq_nil in Heq as [_ [=]].
Qed.

Lemma ensureBrowserIsReady_cached s path :
  executablePath s = Some path -> path <> [] ->
  ensureBrowserIsReady s = (inr path, s).
Proof.
  intros Hcached Hne. unfold ensureBrowserIsReady, bind, gets.
  rewrite Hcached. by destruct path.
Qed.

(** Every run of [ensureBrowserIsReady]. *)
Lemma ensureBrowserIsReady_run s r s1 :
  ensureBrowserIsReady s = (r, s1) ->
  (exists evs,
     trace s1 = trace s ++ evs /\
     (evs = [] \/
      exists b,
        evs = [EvTempBrowser b; EvTempBrowserClose b] /\
        truthy (executablePath s) = None /\
        first_existing (world s) defaultChromePaths = None)) /\
  (forall path, r = inr path -> path <> [] /\ executablePath s1 = Some path).
Proof.
  unfold ensureBrowserIsReady, bind at 1, gets at 1. cbn beta iota.
  destruct (truthy (executablePath s)) as [cached|] eqn:Hcached.
  { apply truthy_Some in Hcached as [Hc Hne]. intros [= <- <-]. split.
    - exists []. by rewrite app_nil_r; auto.
    - by intros path [= <-]. }
  unfold bind at 1, gets at 1. cbn beta iota.
  destruct (first_existing (world s) defaultChromePaths) as [found|] eqn:Hfound.
  { unfold bind, modify, ret. intros [= <- <-]. split.
    - exists []. by rewrite app_nil_r; auto.
    - intros path [= <-]. split; [|done].
      by apply defaultChromePaths_nonempty, (first_existing_elem (world s)). }
  unfold finally, try_catch, emit, bind, gets, modify, ret, throw, external.
  cbn [world trace tempBrowser with_tempBrowser with_world with_trace
       with_executablePath].
  destruct (puppeteer_launch _ (world s)) as [[err|b] w].
  { cbn. intros [= <- <-]. split; [|done].
    exists []. by rewrite app_nil_r; auto. }
  cbn [world trace tempBrowser with_tempBrowser with_world with_trace
       with_executablePath].
  destruct (truthy (browser_spawnfile b)) as [execPath|] eqn:Hexec.
  - apply truthy_Some in Hexec as [_ Hne].
    destruct (fs_existsSync execPath w);
      cbn [world trace tempBrowser with_tempBrowser with_world with_trace
           with_executablePath];
      destruct (browser_close b w) as [[err|[]] w'];
      intros [= <- <-]; cbn;
      (split; [exists [EvTempBrowser b; EvTempBrowserClose b];
                 rewrite <- app_assoc;
                 split; [reflexivity|right; by exists b]|]);
      try done.
    by intros path [= <-].
  - cbn [world trace tempBrowser with_tempBrowser with_world with_trace
         with_executablePath].
    destruct (browser_close b w) as [[err|[]] w'];
      intros [= <- <-]; cbn;
      (split; [exists [EvTempBrowser b; EvTempBrowserClose b];
                 rewrite <- app_assoc;
                 split; [reflexivity|right; by exists b]|]);
      done.
Qed.

(** X15. Once [ensureBrowserIsReady] has found an executable, the path is
    kept in the static field: it is not empty, and a further call returns it
    at once, without looking at the file system and without launching
    anything. *)
Theorem ensureBrowserIsReady_caches s path s1 :
  ensureBrowserIsReady s = (inr path, s1) ->
  path <> [] /\
  executablePath s1 = Some path /\
  ensureBrowserIsReady s1 = (inr path, s1).
Proof.
  intros Hrun.
  destruct (ensureBrowserIsReady_run _ _ _ Hrun) as [_ Hpath].
  destruct (Hpath path eq_refl) as [Hne Hcached].
  split; [done|]. split; [done|]. by apply ensureBrowserIsReady_cached.
Qed.

(** X16. The only browser [ensureBrowserIsReady] starts is a temporary one,
    and only when no path is cached and none of the default paths exists; on
    every path, success or failure, a temporary browser that was launched is
    closed before the call ends. The session of the scraper, its pages and
    the registries are not touched. *)
Theorem ensureBrowserIsReady_closes_its_browser s :
  let s1 := (ensureBrowserIsReady s).2 in
  (exists evs,
     trace s1 = trace s ++ evs /\
     (evs = [] \/
      exists b,
        evs = [EvTempBrowser b; EvTempBrowserClose b] /\
        truthy (executablePath s) = None /\
        first_existing (world s) defaultChromePaths = None)) /\
  same_session s s1 /\
  domainHeaders s1 = domainHeaders s /\
  ruleSets s1 = ruleSets s.
Proof.
  cbn zeta.
  destruct (ensureBrowserIsReady s) as [r s1] eqn:Hrun.
  destruct (ensureBrowserIsReady_run _ _ _ Hrun) as [Hevs _].
  pose proof (ensureBrowserIsReady_quiet s) as [Hsession _].
  assert (preserves same_registries ensureBrowserIsReady) as Hreg.
  { unfold ensureBrowserIsReady. preserve; intros; split; reflexivity. }
  specialize (Hreg s). rewrite Hrun in Hsession, Hreg. cbn [snd] in *.
  destruct Hreg. done.
Qed.

(** X17. [close] on a scraper without a session does nothing. With a
    session it calls [browser.close()]; when that returns, the field is
    empty and a second [close] does nothing; when it throws, the field still
    holds the handle of the browser. *)
Theorem close_releases_the_session s :
  (browser s = None -> close s = (inr tt, s)) /\
  (forall b,
     browser s = Some b ->
     trace (close s).2 = trace s ++ [EvSessionClose b] /\
     (forall error, (close s).1 = inl error -> browser (close s).2 = Some b) /\
     ((close s).1 = inr tt ->
      browser (close s).2 = None /\
      close (close s).2 = (inr tt, (close s).2))).
Proof.
  unfold close, emit, bind, gets, modify, external. split.
  - by intros ->.
  - intros b Hb. rewrite Hb. cbn [world trace with_trace].
    destruct (browser_close b (world s)) as [[err|[]] w]; cbn.
    + split; [done|]. split; [done|]. by intros [=].
    + split; [done|]. split; [by intros ? [=]|]. done.
Qed.

End BrowserFacts.

(** ** More on the tool handlers *)

Section FrontEndFacts.
Context `{Cheerio} `{Runtime} `{World} `{Formatters} `{Serializer}.

Lemma export_unsupported content (format : jsstring) s :
  format ∉ exportFormats ->
  export content format s
    = (inl (MkError (js "不支持的导出格式: " ++ format)), s).
Proof.
  intros Hnot. unfold export.
  rewrite !bool_decide_eq_false_2; [done|..];
    intros ->; apply Hnot; unfold exportFormats;
    repeat first [apply list_elem_of_here | apply list_elem_of_further].
Qed.

Lemma export_state content format s : (export content format s).2 = s.
Proof. unfold export, lift, throw. by repeat case_bool_decide. Qed.

Lemma fails_where_bind {A B} (E : JsError) (m : M A) (k k' : A -> M B) s :
  (forall a s1, fails_where E (k a s1) (k' a s1)) ->
  fails_where E (bind m k s) (bind m k' s).
Proof.
  intros Hk. unfold bind. destruct (m s) as [[err|a] s1]; [|apply Hk].
  split; [done|]. split; [by exists err|]. by intros value [=].
Qed.

Lemma batch_pipeline_fails_where (format other : jsstring) usePuppeteer
    ruleSet url s :
  format ∉ exportFormats ->
  fails_where (MkError (js "不支持的导出格式: " ++ format))
    (batch_pipeline format usePuppeteer ruleSet url s)
    (batch_pipeline other usePuppeteer ruleSet url s).
Proof.
  intros Hnot. unfold batch_pipeline. cbn zeta.
  apply fails_where_bind. intros headers s1.
  apply fails_where_bind. intros content s2.
  apply fails_where_bind. intros processedContent s3.
  rewrite export_unsupported by done.
  split; [by rewrite export_state|]. split; [by eexists|done].
Qed.

Lemma async_batch_pipeline_fails (format : jsstring) usePuppeteer ruleSet
    url :
  format ∉ exportFormats ->
  settles_in (fun outcome => exists error, outcome = inl error)
    (Async.batch_pipeline format usePuppeteer ruleSet url).
Proof.
  intros Hnot.
  assert (forall {A} (t : Async.Promise A) (k : A -> Async.Promise jsstring),
            (forall a, settles_in
                         (fun outcome => exists error, outcome = inl error)
                         (k a)) ->
            settles_in (fun outcome => exists error, outcome = inl error)
              (Async.andThen t k)) as Hthen.
  { intros A t k Hk.
    apply (settles_in_settle (fun _ => True)); [apply settles_in_any|].
    intros [err|a] _; [by exists err|apply Hk]. }
  unfold Async.batch_pipeline. cbn zeta.
  apply Hthen. intros headers. apply Hthen. intros content.
  apply Hthen. intros processedContent. cbn. intros s.
  rewrite export_unsupported by done. by eexists.
Qed.

Lemma entries_all_fail urls (outcomes : list (Result jsstring)) :
  Forall (fun outcome => exists error, outcome = inl error) outcomes ->
  Forall (fun entry => BatchEntry.success entry = false)
    (zip_with entry_of urls outcomes).
Proof.
  intros Hall. revert urls.
  induction Hall as [|outcome outcomes [error ->] _ IH]; intros [|url urls];
    cbn; constructor; [done|apply IH].
Qed.

Lemma handleScrapeUrl_unsupported (args : ScrapeUrlArgs.t)
    (format : jsstring) s :
  format ∉ exportFormats ->
  ScrapeUrlArgs.format args = Some format ->
  exists error, (handleScrapeUrl args s).1 = inl error.
Proof.
  intros Hnot Hformat.
  assert (fails_where (MkError (js "不支持的导出格式: " ++ format))
            (handleScrapeUrl args s) (handleScrapeUrl args s))
    as (_ & Hfail & _); [|done].
  unfold handleScrapeUrl. cbn zeta. rewrite Hformat. cbn [default id].
  apply fails_where_bind. intros headers s1.
  apply fails_where_bind. intros content s2.
  apply fails_where_bind. intros processedContent s3.
  rewrite export_unsupported by done.
  split; [done|]. split; [by eexists|done].
Qed.

(** X18. The export format is looked at last. With a format [export] does
    not know, the pipeline of an address fetches, renders and applies the
    rules as with any other format, leaving the same state, and fails only
    then: with the error of an earlier step if one failed, otherwise with
    the message that the format is not supported. In a batch every entry
    fails, however its units take their turns, and so does every
    [scrape_url] request. *)
Theorem unsupported_format_fails_last (format : jsstring) usePuppeteer
    ruleSet url s :
  format ∉ exportFormats ->
  let run := batch_pipeline format usePuppeteer ruleSet url s in
  (exists error, run.1 = inl error) /\
  (forall other : jsstring,
     (batch_pipeline other usePuppeteer ruleSet url s).2 = run.2) /\
  (forall (other : jsstring) text,
     (batch_pipeline other usePuppeteer ruleSet url s).1 = inr text ->
     run.1 = inl (MkError (js "不支持的导出格式: " ++ format))) /\
  (forall schedule urls,
     match (handleBatchScrape schedule
              (BatchScrapeArgs.Build urls (Some format) (Some usePuppeteer)
                 ruleSet) s).1 with
     | inr results =>
       Forall (fun entry => BatchEntry.success entry = false) results
     | inl _ => False
     end) /\
  (forall args state,
     ScrapeUrlArgs.format args = Some format ->
     exists error, (handleScrapeUrl args state).1 = inl error).
Proof.
  intros Hnot. cbn zeta.
  split_and!;
    [| | | |by intros; apply (handleScrapeUrl_unsupported _ format)].
  - by destruct (batch_pipeline_fails_where format format usePuppeteer
                   ruleSet url s Hnot) as (_ & ? & _).
  - intros other.
    destruct (batch_pipeline_fails_where format other usePuppeteer
                ruleSet url s Hnot) as (Hstate & _ & _).
    symmetry. exact Hstate.
  - intros other text.
    destruct (batch_pipeline_fails_where format other usePuppeteer
                ruleSet url s Hnot) as (_ & _ & Hlast).
    apply Hlast.
  - intros schedule urls. rewrite handleBatchScrape_run. cbn [fst].
    apply entries_all_fail, settle_all_settles_in.
    unfold batch_pipelines. apply Forall_forall. intros t Ht.
    apply list_elem_of_fmap in Ht as (url' & -> & _).
    by apply async_batch_pipeline_fails.
Qed.

Lemma scrapeWithPuppeteer_no_headers url options :
  default ∅ (ScrapeOptions.headers options) = ∅ ->
  preserves (emits (fun e => carries_headers e = false))
    (scrapeWithPuppeteer url options).
Proof.
  intros Hempty.
  unfold scrapeWithPuppeteer, ensure_session, launch_session,
    ensureBrowserIsReady, open_page, drive_page, close_page, clock.
  cbn zeta. rewrite Hempty, map_size_empty.
  change (0 <? 0)%nat with false. cbn [when].
  preserve; settle_emits.
Qed.

(** X19. Requests for an address without a host. For a [data:] address
    [handleScrapeUrl] consults no header store: [customHeaders] given with
    the request are neither stored nor sent, and no stored header is sent.
    For any other address the URL parser rejects, the request fails with the
    parser's error before anything is stored, fetched or launched; in a
    batch, the same holds for the unit of that address. *)
Theorem request_without_host (args : ScrapeUrlArgs.t) (s : Sys) :
  let url := ScrapeUrlArgs.url args in
  (startsWith url (js "data:") = true ->
   domainHeaders (handleScrapeUrl args s).2 = domainHeaders s /\
   emits (fun e => carries_headers e = false) s (handleScrapeUrl args s).2) /\
  (forall error,
     startsWith url (js "data:") = false ->
     url_hostname url = inl error ->
     handleScrapeUrl args s = (inl error, s) /\
     forall format usePuppeteer ruleSet,
       batch_pipeline format usePuppeteer ruleSet url s = (inl error, s)).
Proof.
  cbn zeta. split.
  - intros Hdata. unfold handleScrapeUrl. cbn zeta. rewrite Hdata. cbn [negb].
    unfold bind at 1, ret at 1. cbn beta iota. split.
    + apply (fetch_and_format_registries (ScrapeUrlArgs.url args)
               (default false (ScrapeUrlArgs.usePuppeteer args)) ∅
               (ScrapeUrlArgs.ruleSet args)
               (default (js "markdown") (ScrapeUrlArgs.format args)) s).
    + assert (preserves (emits (fun e => carries_headers e = false))
                (fetch_and_format (ScrapeUrlArgs.url args)
                   (default false (ScrapeUrlArgs.usePuppeteer args)) ∅
                   (ScrapeUrlArgs.ruleSet args)
                   (default (js "markdown") (ScrapeUrlArgs.format args))))
        as Hrun; [|apply Hrun].
      unfold fetch_and_format, scrape. rewrite Hdata.
      repeat first [apply scrapeWithPuppeteer_no_headers; reflexivity
                   | apply process_rules_preserves
                   | apply export_preserves | tc_solve | preserve_step].
  - intros error Hdata Hhost. split.
    + unfold handleScrapeUrl. cbn zeta. rewrite Hdata. cbn [negb].
      unfold bind, lift. by rewrite Hhost.
    + intros format usePuppeteer ruleSet.
      unfold batch_pipeline. cbn zeta. rewrite Hdata.
      unfold bind, lift. by rewrite Hhost.
Qed.

(** X20. [handleRequest] never throws: whatever the tool and its outcome, it
    answers with a text. A handler that throws is reported on the error
    console and answered with the message of the error behind [错误: ]; a
    name that is no tool is answered that way, and changes nothing else. A
    rule set or headers set through it are in the registries afterwards; a
    batch is always answered with its serialised results, one per address,
    however its units take their turns. *)
Theorem handleRequest_never_throws (schedule : list nat) (request : Request)
    (s : Sys) :
  exists text s',
    handleRequest schedule request s = (inr text, s') /\
    (forall args error s1,
       request = ScrapeUrl args ->
       handleScrapeUrl args s = (inl error, s1) ->
       text = js "错误: " ++ message error /\
       s' = with_trace
              (trace s1 ++ [EvConsoleError (request_failure_log (js "scrape_url"))])
              s1) /\
    (forall args exported s1,
       request = ScrapeUrl args ->
       handleScrapeUrl args s = (inr exported, s1) ->
       text = exported /\ s' = s1) /\
    (forall name rules,
       request = CreateRuleSet name rules ->
       getRuleSet name (ruleSets s') = Some (RuleSet.Build name rules None) /\
       trace s' = trace s) /\
    (forall domain headers,
       request = SetDomainHeaders domain headers ->
       domainHeaders s' = setHeaders domain headers (domainHeaders s) /\
       trace s' = trace s) /\
    (forall args,
       request = BatchScrape args ->
       exists results,
         handleBatchScrape schedule args s = (inr results, s') /\
         text = stringify_results results /\
         length results = length (BatchScrapeArgs.urls args)) /\
    (forall name,
       request = UnknownTool name ->
       name ∉ known_tools ->
       text = js "错误: 未知或不支持的工具: " ++ name /\
       s' = with_trace (trace s ++ [EvConsoleError (request_failure_log name)]) s).
Proof.
  unfold handleRequest. cbn zeta. unfold try_catch.
  destruct request as [args|name rules|domain headers|args|name];
    cbn [tool_name].
  - destruct (handleScrapeUrl args s) as [[error|exported] s1] eqn:Hrun.
    + do 2 eexists. split; [reflexivity|].
      split_and!; try done.
      * intros ? ? ? [= <-] Hrun'. rewrite Hrun in Hrun'.
        by injection Hrun' as <- <-.
      * intros ? ? ? [= <-] Hrun'. by rewrite Hrun in Hrun'.
    + do 2 eexists. split; [reflexivity|].
      split_and!; try done.
      * intros ? ? ? [= <-] Hrun'. by rewrite Hrun in Hrun'.
      * intros ? ? ? [= <-] Hrun'. rewrite Hrun in Hrun'.
        by injection Hrun' as <- <-.
  - do 2 eexists. split; [reflexivity|]. split_and!; try done.
    intros ? ? [= <- <-]. cbn. split; [|done]. apply lookup_insert_eq.
  - do 2 eexists. split; [reflexivity|]. split_and!; try done.
    intros ? ? [= <- <-]. done.
  - pose proof (handleBatchScrape_run schedule args s) as Hrun.
    unfold bind. rewrite Hrun. do 2 eexists. split; [reflexivity|].
    split_and!; try done.
    intros ? [= <-]. eexists. split; [done|]. split; [done|].
    pose proof (settle_all_length schedule (batch_pipelines args) s) as Hlen.
    unfold batch_pipelines in Hlen at 2. rewrite length_map in Hlen.
    pose proof (entries_urls _ _ Hlen) as Hurls.
    apply (f_equal length) in Hurls. by rewrite !length_map in Hurls.
  - do 2 eexists. split; [reflexivity|]. split_and!; try done.
    intros ? [= <-] _. done.
Qed.

End FrontEndFacts.

(** ** Rendering calls that overlap *)

Section OverlappingRenders.
#[local] Existing Instance scenario_cheerio.
#[local] Existing Instance Toy.runtime.
#[local] Existing Instance Toy.world.
#[local] Existing Instance Toy.formatters.

Lemma launched_app evs1 evs2 :
  launched (evs1 ++ evs2) = launched evs1 ++ launched evs2.
Proof.
  induction evs1 as [|e rest IH]; cbn; [done|].
  destruct e; cbn; by rewrite ?IH.
Qed.

#[local] Instance calm_preorder : PreOrder calm.
Proof.
  split.
  - intros s. by split.
  - intros s1 s2 s3 [A1 B1] [A2 B2]. split; [auto|congruence].
Qed.

Lemma preserves_toy_call {A} (call : Toy.State -> Result A * Toy.State) :
  (forall w, Toy.launch_error (call w).2 = Toy.launch_error w /\
             Toy.chrome_installed (call w).2 = Toy.chrome_installed w) ->
  preserves calm (external call).
Proof.
  intros Hcall s. unfold external.
  destruct (Hcall (world s)) as [Hl Hc].
  destruct (call (world s)) as [r w]. cbn in *.
  split; [|done]. unfold ready. cbn. by rewrite Hl, Hc.
Qed.

Ltac side_calm :=
  intros;
  first
    [ split; [done|]; cbn; rewrite launched_app; cbn; by rewrite app_nil_r
    | by split ].

Ltac calm_step :=
  first
    [ apply preserves_toy_call; intros w; cbn;
      repeat match goal with |- context [match ?x with _ => _ end] =>
                               destruct x end; by split
    | respect_step | preserve_step ].

Lemma open_page_calm : respects (fun _ => True) calm Async.open_page.
Proof. unfold Async.open_page. repeat calm_step; side_calm. Qed.

Lemma drive_page_calm p url options :
  respects (fun _ => True) calm (Async.drive_page p url options).
Proof.
  unfold Async.drive_page, clock. cbn zeta. repeat calm_step; side_calm.
Qed.

Lemma close_page_calm : respects (fun _ => True) calm Async.close_page.
Proof. unfold Async.close_page. repeat calm_step; side_calm. Qed.

Lemma calm_owes_nothing {A} (t : Async.Promise A) :
  respects (fun _ => True) calm t -> owes ready 0 t.
Proof.
  intros Ht. apply (owes_of_respects ready calm).
  - intros s s' Hs [Hready Hsame]. split; [auto|]. unfold sessions.
    by rewrite Hsame.
  - eapply respects_weaken; [| |exact Ht]; done.
Qed.

Lemma ensure_session_starts :
  starts fresh_scraper ready 1 Async.ensure_session.
Proof.
  unfold Async.ensure_session, Async.launch_session,
    Async.ensureBrowserIsReady.
  cbn. intros s (Hready & Hb & Hl). split; [done|]. rewrite Hb. cbn.
  intros s0 Hs0. split; [done|].
  assert (forall path : jsstring,
            owes ready 1
              (Async.andThen
                 (Async.await
                    (external
                       (puppeteer_launch
                          (LaunchOptions.Build (Some path) sessionArgs))))
                 (fun b =>
                    Async.andThen
                      (Async.sync (modify (with_browser (Some b))))
                      (fun _ => Async.sync (emit (EvSessionLaunch b))))))
    as Hlaunch.
  { intros path. cbn. intros s1 [Hl1 Hc1]. exists 0%nat.
    unfold external. rewrite Hl1. cbn.
    split_and!; [lia|unfold sessions; cbn; lia|done|].
    intros s2 Hs2. exists 0%nat.
    split_and!; [lia|unfold sessions; cbn; lia|done|].
    cbn. intros s3 Hs3. exists 1%nat.
    split_and!; [lia| |done|done].
    unfold sessions. cbn. rewrite launched_app, length_app. done. }
  destruct (truthy (executablePath s0)) as [path|]; cbn.
  - apply (Hlaunch path).
  - intros s1 Hs1. split; [done|].
    destruct Hs1 as ((Hl1 & Hc1) & _). cbn. rewrite Hc1. cbn.
    intros s2 Hs2. split; [done|]. exact (Hlaunch []).
Qed.

Lemma scrapeWithPuppeteer_starts url options :
  starts fresh_scraper ready 1 (Async.scrapeWithPuppeteer url options).
Proof.
  unfold Async.scrapeWithPuppeteer.
  unfold Async.andThen at 1. cbn [Async.sync Async.settle].
  intros s Hs. split; [done|]. cbn [fst modify].
  unfold Async.ensuring, Async.catch.
  apply starts_settle;
    [apply starts_settle;
       [apply starts_settle; [apply ensure_session_starts|]|]|];
    intros outcome.
  - apply calm_owes_nothing. destruct outcome as [err|[]]; [done|].
    apply respects_andThen; [apply open_page_calm|intros p].
    apply drive_page_calm.
  - apply calm_owes_nothing. by destruct outcome.
  - apply calm_owes_nothing. apply respects_settle; [apply close_page_calm|].
    by intros [err|[]].
Qed.

Lemma batch_pipeline_starts format usePuppeteer ruleSet url :
  startsWith url (js "data:") = true ->
  starts fresh_scraper ready 1
    (Async.batch_pipeline format usePuppeteer ruleSet url).
Proof.
  intros Hdata. unfold Async.batch_pipeline, Async.scrape.
  cbn zeta. rewrite Hdata.
  unfold Async.andThen at 1. cbn [Async.pure Async.settle].
  unfold Async.andThen at 1. unfold Async.awaited at 1.
  apply starts_settle;
    [apply starts_settle; [apply scrapeWithPuppeteer_starts|]|];
    intros outcome.
  - done.
  - apply calm_owes_nothing. destruct outcome as [err|content]; [done|].
    repeat first [apply process_rules_preserves | apply export_preserves
                 | tc_solve | respect_step].
Qed.

(** Rendering units started together on a scraper without a session launch
    one session each, however the event loop resumes them. *)
Lemma overlapping_pipelines_launch schedule batch s :
  Forall (fun url => startsWith url (js "data:") = true)
    (BatchScrapeArgs.urls batch) ->
  fresh_scraper s ->
  sessions (Async.settle_all schedule (batch_pipelines batch) s).2
  = length (BatchScrapeArgs.urls batch).
Proof.
  intros Hurls Hs.
  rewrite (settle_all_owes fresh_scraper ready)
    with (base := 0%nat) (n := 1%nat); try done.
  - unfold batch_pipelines. rewrite length_map. lia.
  - by intros s1 (Hready & _ & _).
  - intros s1 (_ & _ & Hl). unfold sessions. by rewrite Hl.
  - unfold batch_pipelines. apply Forall_fmap.
    eapply Forall_impl; [exact Hurls|].
    intros url Hdata. by apply batch_pipeline_starts.
Qed.

(** C8, on the code. A batch of two addresses that are rendered, given to a
    scraper that has no session yet, in a world where Chrome is installed and
    browsers launch: however the event loop resumes the two units, two
    sessions are launched, and none is closed. Each unit finds
    [this.browser] empty before the launch of the other has returned. The
    same two addresses scraped one after the other launch one session. *)
Theorem overlapping_renders_launch_two_sessions (schedule : list nat) :
  length
    (launched
       (trace (handleBatchScrape schedule batch_renders (boot world_spa)).2))
  = 2%nat /\
  Forall closes_no_session
    (trace (handleBatchScrape schedule batch_renders (boot world_spa)).2) /\
  length (launched (trace (run_scrapes renders_in_turn (boot world_spa))))
  = 1%nat.
Proof.
  rewrite handleBatchScrape_run. cbn [snd]. split_and!.
  - apply (overlapping_pipelines_launch schedule batch_renders).
    + by repeat constructor.
    + by repeat split.
  - destruct (settle_all_respects (fun _ => True) (emits closes_no_session)
                (fun _ _ _ _ => Logic.I)
                (fun frame s => emits_silent closes_no_session
                                  (Async.install frame) (fun _ => eq_refl) s)
                schedule (batch_pipelines batch_renders) (boot world_spa))
      as (evs & Htrace & Hall); [|done|].
    + unfold batch_pipelines. apply Forall_fmap, Forall_forall.
      intros url _. apply async_batch_pipeline_keeps_session.
    + by rewrite Htrace.
  - vm_compute. reflexivity.
Qed.

End OverlappingRenders.

(** * The model on concrete inputs *)

Section Witnesses.

#[local] Existing Instance scenario_cheerio.
#[local] Existing Instance Toy.runtime.
#[local] Existing Instance Toy.world.
#[local] Existing Instance Toy.formatters.

(** The records of the scenarios are what the model computes. *)
Example record_a_extracted :
  extractContent (load markup_a) url_a markup_a now_a = inr record_a.
Proof. vm_compute. reflexivity. Qed.

Example record_narrow_applied :
  applyRules registry_a (js "narrow") record_a = inr record_narrow.
Proof. vm_compute. reflexivity. Qed.

Example static_b_fetched :
  (scrapeWithAxios url_b options_b (boot world_spa)).1 = inr static_b.
Proof. vm_compute. reflexivity. Qed.

(** C1, as stated, fails here: the static fetch times out, no browser can
    be launched, and the error of [scrape] has the message of the render tier
    only. *)
Lemma scrape_error_lacks_fetch_message :
  (scrapeWithAxios url_b options_b (boot world_down)).1
    = inl (MkError (js "Axios爬取失败: " ++ fetch_failure)) /\
  (scrape url_b options_b (boot world_down)).1
    = inl (MkError (js "Puppeteer爬取失败: " ++ render_failure)) /\
  ~ carries_both_messages (scrape url_b options_b (boot world_down)).1
      fetch_failure render_failure.
Proof.
  split; [by vm_compute|]. split; [by vm_compute|].
  intros (error & Hout & Hfetch & _).
  vm_compute in Hout. injection Hout as <-.
  vm_compute in Hfetch. discriminate Hfetch.
Qed.

(** Both tiers down: the error is the render tier's, the label before the
    message of the launch failure; the static failure is on the console. *)
Lemma scrape_fails_with_render_error_witness :
  scrape url_b options_b (boot world_down)
    = (inl (MkError (js "Puppeteer爬取失败: " ++ render_failure)),
       (scrape url_b options_b (boot world_down)).2) /\
  EvConsoleError
    (static_failure_log (MkError (js "Axios爬取失败: " ++ fetch_failure)))
    ∈ trace (scrape url_b options_b (boot world_down)).2 /\
  ((exists cause attempted,
      render_attempt url_b options_b
        (with_page None
           (with_trace
              (trace (scrapeWithAxios url_b options_b (boot world_down)).2
               ++ [EvConsoleError
                     (static_failure_log
                        (MkError (js "Axios爬取失败: " ++ fetch_failure)))])
              (scrapeWithAxios url_b options_b (boot world_down)).2))
        = (inl cause, attempted) /\
      MkError (js "Puppeteer爬取失败: " ++ render_failure)
        = MkError (js "Puppeteer爬取失败: " ++ message cause)) \/
   (exists p w,
      EvPageClose p ∈ trace (scrape url_b options_b (boot world_down)).2 /\
      page_close p w
        = (inl (MkError (js "Puppeteer爬取失败: " ++ render_failure)),
           world (scrape url_b options_b (boot world_down)).2))).
Proof.
  apply (scrape_fails_with_render_error url_b options_b (boot world_down)
           (MkError (js "Axios爬取失败: " ++ fetch_failure))
           (scrapeWithAxios url_b options_b (boot world_down)).2).
  - reflexivity.
  - reflexivity.
  - vm_compute. reflexivity.
  - vm_compute. reflexivity.
Defined.

(** The static page asks for JavaScript (in another letter case than the
    keyword): the record returned is the rendered one. *)
Lemma scrape_js_dependency_heuristic_witness :
  scrape url_b options_b (boot world_spa)
    = scrapeWithPuppeteer url_b options_b
        (scrapeWithAxios url_b options_b (boot world_spa)).2 /\
  match (scrape url_b options_b (boot world_spa)).1 with
  | inr chosen => ScrapedContent.html chosen = markup_rendered
  | inl _ => False
  end.
Proof.
  destruct (scrape_js_dependency_heuristic url_b options_b (boot world_spa)
              static_b (scrapeWithAxios url_b options_b (boot world_spa)).2)
    as [Hescalate _].
  - reflexivity.
  - reflexivity.
  - vm_compute. reflexivity.
  - split.
    + apply Hescalate. exists (js "Please enable JavaScript").
      split; [|vm_compute; reflexivity].
      unfold jsRequiredKeywords.
      repeat first [apply list_elem_of_here | apply list_elem_of_further].
    + vm_compute. reflexivity.
Defined.

(** C4, as stated, fails here: in the markup as it is, the paragraph is not
    in first position, so the title selector matches nothing; the rule set
    first removes the menu, after which it does, and the title of the record
    is replaced. And a rule set whose title and content selectors
    match nothing, but whose custom selector is malformed, gives no record at
    all: the rule engine throws. *)
Lemma applyRules_changes_title_after_exclusion :
  @extractContent scenario_menu Toy.runtime (@load scenario_menu markup_menu)
    url_a markup_menu now_a = inr record_menu /\
  @applyRules scenario_menu Toy.runtime registry_strip (js "strip") record_menu
    = inr
        {| ScrapedContent.url := url_a;
           ScrapedContent.title := js "First paragraph";
           ScrapedContent.content := js "Menu First paragraph";
           ScrapedContent.html := markup_menu;
           ScrapedContent.links := [];
           ScrapedContent.images := [];
           ScrapedContent.metadata :=
             <[js "appliedRuleSet" := MString (js "strip")]>
               (<[js "customData" := MCustomData ∅]> ∅);
           ScrapedContent.timestamp := now_a |} /\
  ~ @kept_when_absent_from_markup scenario_menu Toy.runtime registry_strip
      (js "strip") record_menu /\
  (exists error,
     @applyRules scenario_menu Toy.runtime registry_malformed (js "malformed")
       record_menu = inl error) /\
  ~ @kept_when_absent_from_markup scenario_menu Toy.runtime registry_malformed
      (js "malformed") record_menu.
Proof.
  split; [vm_compute; reflexivity|]. split; [vm_compute; reflexivity|].
  split; [|split; [eexists; vm_compute; reflexivity|]].
  - intros Hkept.
    destruct (Hkept rules_strip) as (result & Hrun & Htitle & _).
    + vm_compute. reflexivity.
    + reflexivity.
    + reflexivity.
    + vm_compute. reflexivity.
    + vm_compute. reflexivity.
    + vm_compute in Hrun. injection Hrun as <-.
      vm_compute in Htitle. discriminate Htitle.
  - intros Hkept.
    destruct (Hkept rules_malformed) as (result & Hrun & _).
    + vm_compute. reflexivity.
    + reflexivity.
    + reflexivity.
    + vm_compute. reflexivity.
    + vm_compute. reflexivity.
    + vm_compute in Hrun. discriminate Hrun.
Qed.

(** The rule set [absent] on the record of page a. *)
Lemma applyRules_absent_selectors_round_trip_witness :
  exists result,
    applyRules registry_a (js "absent") record_a = inr result /\
    ScrapedContent.title result = ScrapedContent.title record_a /\
    ScrapedContent.content result = ScrapedContent.content record_a.
Proof.
  apply (applyRules_absent_selectors_round_trip (load markup_a) url_a markup_a
           now_a record_a registry_a (js "absent") rules_absent
           (load markup_a)).
  - vm_compute. reflexivity.
  - vm_compute. reflexivity.
  - reflexivity.
  - reflexivity.
  - vm_compute. reflexivity.
  - vm_compute. reflexivity.
  - vm_compute. reflexivity.
  - intros key selector Hin. cbn in Hin.
    apply list_elem_of_singleton in Hin. injection Hin as -> ->. reflexivity.
Defined.

(** The rule set [anchors] on a record of page a with a stale link: the
    address of the anchors is a link of the result, once, and the stale
    address is not. *)
Lemma applyRules_replaces_links_and_images_witness :
  js "http://a.example/x" ∈ ScrapedContent.links record_anchors /\
  (js "http://stale.example/" ∉ ScrapedContent.links record_anchors) /\
  NoDup (ScrapedContent.links record_anchors).
Proof.
  destruct (applyRules_replaces_links_and_images registry_anchors
              (js "anchors") rules_anchors record_stale record_anchors)
    as (queried & Hdoc & Hlinks & _).
  - vm_compute. reflexivity.
  - vm_compute. reflexivity.
  - destruct (Hlinks (js "a[href]") eq_refl)
      as (matched & Hsel & Hnodup & Hiff & _).
    vm_compute in Hdoc. injection Hdoc as <-.
    vm_compute in Hsel. injection Hsel as <-.
    split; [|split; [|exact Hnodup]].
    + apply Hiff.
      exists (Toy.MkElem (js "a") [(js "href", js "http://a.example/x")] (js "x")),
             (js "http://a.example/x").
      split; [apply list_elem_of_here|]. split; [reflexivity|].
      split; [discriminate|reflexivity].
    + intros Hin. apply Hiff in Hin as (element & ref & Hel & Hattr & _ & Hres).
      repeat (apply elem_of_cons in Hel as [->|Hel]);
        try (by apply elem_of_nil in Hel);
        vm_compute in Hattr; injection Hattr as <-;
        vm_compute in Hres; discriminate Hres.
Defined.

(** A record produced by the extractor and then by the rule engine. *)
Lemma produced_references_resolved_witness : references_resolved record_narrow.
Proof.
  apply produced_references_resolved.
  apply (produced_by_rules registry_a (js "narrow") record_a).
  - apply (produced_by_extractor (load markup_a) url_a markup_a now_a).
    vm_compute. reflexivity.
  - vm_compute. reflexivity.
Defined.

(** After a request with an [Authorization] header, the store holds it for
    the host. *)
Lemma customHeaders_outlive_the_request_witness :
  getHeaders (js "spa.example")
    (domainHeaders (handleScrapeUrl args_c (boot world_spa)).2)
    !! js "Authorization" = Some (js "Bearer t0ken").
Proof.
  destruct (customHeaders_outlive_the_request args_c (boot world_spa)
              (js "spa.example") custom_c)
    as (_ & Hkept & _).
  - reflexivity.
  - vm_compute. reflexivity.
  - reflexivity.
  - apply Hkept. vm_compute. reflexivity.
Defined.

(** Two runs of the launch part in a world where browsers start. *)
Lemma launch_session_twice_witness :
  exists b1 b2 evs,
    trace (launch_session (launch_session (boot world_spa)).2).2
      = trace (boot world_spa) ++ evs /\
    lifecycle evs = [EvSessionLaunch b1; EvSessionLaunch b2] /\
    browser (launch_session (boot world_spa)).2 = Some b1 /\
    browser (launch_session (launch_session (boot world_spa)).2).2 = Some b2.
Proof.
  apply (launch_session_twice (boot world_spa)
           (launch_session (boot world_spa)).2
           (launch_session (launch_session (boot world_spa)).2).2).
  - vm_compute. reflexivity.
  - vm_compute. reflexivity.
Defined.

(** The rule set [narrow], applied to its own result. *)
Lemma applyRules_idempotent_witness :
  applyRules registry_a (js "narrow") record_narrow = inr record_narrow.
Proof.
  apply (applyRules_idempotent registry_a (js "narrow") record_a).
  vm_compute. reflexivity.
Defined.

(** The custom fields of [fields] on page a: three anchors, one title, no
    [span]. *)
Lemma applyRules_custom_fields_witness :
  exists customData,
    ScrapedContent.metadata record_fields !! js "customData"
      = Some (MCustomData customData) /\
    customData !! js "anchors" = Some (CTexts [js "x"; js "y"; js "x"]) /\
    customData !! js "heading" = Some (CText (js "Hello")) /\
    customData !! js "price" = None.
Proof.
  destruct (applyRules_custom_fields registry_fields (js "fields") rules_fields
              record_a record_fields fields_c)
    as (queried & customData & Hdoc & Hmeta & Hin & _).
  - vm_compute. reflexivity.
  - reflexivity.
  - apply (bool_decide_unpack _). vm_compute. exact I.
  - vm_compute. reflexivity.
  - vm_compute in Hdoc. injection Hdoc as <-.
    exists customData. split; [exact Hmeta|]. split_and!.
    + etrans; [apply (Hin (js "anchors") (js "a")); [|done]|].
      * apply list_elem_of_here.
      * vm_compute. reflexivity.
    + etrans; [apply (Hin (js "heading") (js "title")); [|done]|].
      * apply list_elem_of_further, list_elem_of_here.
      * vm_compute. reflexivity.
    + etrans; [apply (Hin (js "price") (js "span")); [|done]|].
      * do 2 apply list_elem_of_further. apply list_elem_of_here.
      * vm_compute. reflexivity.
Defined.

(** A URL with port and path, and the bare host in another letter case. *)
Lemma normalizeDomain_of_url_witness :
  normalizeDomain (js "https://GitHub.com:8080/features") = js "github.com" /\
  normalizeDomain (js "GitHub.com") = js "github.com".
Proof.
  destruct (normalizeDomain_of_url (js "https://") (js "GitHub.com")
              (js ":8080/features")) as (Hurl & Hbare & _).
  - by right.
  - apply (bool_decide_unpack _). vm_compute. exact I.
  - apply (bool_decide_unpack _). vm_compute. exact I.
  - right. exists 58, (js "8080/features"). split; [reflexivity|by right].
  - split; [exact Hurl|exact Hbare].
Defined.

(** A [data:] address goes to the browser at once. *)
Lemma scrape_render_tier_only_witness :
  scrape url_a options_b (boot world_spa)
    = scrapeWithPuppeteer url_a options_b (boot world_spa) /\
  emits (fun e => is_static_tier e = false) (boot world_spa)
    (scrape url_a options_b (boot world_spa)).2.
Proof.
  apply (scrape_render_tier_only url_a options_b (boot world_spa)).
  left. reflexivity.
Defined.

(** No browser can be launched: the failure carries the label. *)
Lemma scrapeWithPuppeteer_failure_label_witness :
  startsWith
    (message (MkError (js "Puppeteer爬取失败: " ++ render_failure)))
    (js "Puppeteer爬取失败: ") = true \/
  exists p w,
    EvPageClose p
      ∈ trace (scrapeWithPuppeteer url_b options_b (boot world_down)).2 /\
    page_close p w
      = (inl (MkError (js "Puppeteer爬取失败: " ++ render_failure)),
         world (scrapeWithPuppeteer url_b options_b (boot world_down)).2).
Proof.
  apply (scrapeWithPuppeteer_failure_label url_b options_b (boot world_down)).
  vm_compute. reflexivity.
Defined.

(** Chrome is installed: the path is found once and kept. *)
Lemma ensureBrowserIsReady_caches_witness :
  js "/usr/bin/google-chrome" <> [] /\
  executablePath (ensureBrowserIsReady (boot world_spa)).2
    = Some (js "/usr/bin/google-chrome") /\
  ensureBrowserIsReady (ensureBrowserIsReady (boot world_spa)).2
    = (inr (js "/usr/bin/google-chrome"),
       (ensureBrowserIsReady (boot world_spa)).2).
Proof.
  apply (ensureBrowserIsReady_caches (boot world_spa)).
  vm_compute. reflexivity.
Defined.

(** A request for the format [pdf]: the page is fetched and rendered as for
    [text], and the request fails at the end. *)
Lemma unsupported_format_fails_last_witness :
  (batch_pipeline (js "pdf") false None url_b (boot world_spa)).1
    = inl (MkError (js "不支持的导出格式: pdf")) /\
  (batch_pipeline (js "text") false None url_b (boot world_spa)).2
    = (batch_pipeline (js "pdf") false None url_b (boot world_spa)).2.
Proof.
  destruct (unsupported_format_fails_last (js "pdf") false None url_b
              (boot world_spa)) as (_ & Hstate & Hlast & _).
  - apply (bool_decide_unpack _). vm_compute. exact I.
  - split; [|apply Hstate].
    apply (Hlast (js "text") (js "rendered")). vm_compute. reflexivity.
Defined.

(** The page with a long [main]: the text is that of [main], and the anchor
    of the navigation bar is among the links. *)
Lemma extractContent_first_candidate_witness :
  exists record,
    @extractContent scenario_long Toy.runtime
      (@load scenario_long markup_long) url_a markup_long now_a = inr record /\
    ScrapedContent.content record = text_long /\
    ScrapedContent.links record = [js "http://a.example/menu"].
Proof.
  destruct (@extractContent_first_candidate scenario_long Toy.runtime
              (@load scenario_long markup_long) url_a markup_long now_a
              [] (js "main")
              [js "article"; js ".content"; js ".post-content";
               js ".entry-content"; js "#content"; js ".main-content";
               js "body"])
    as (record & Hrun & Hcontent & Hlinks & _).
  - reflexivity.
  - intros earlier Hin. by apply elem_of_nil in Hin.
  - vm_compute. discriminate.
  - left. apply Nat.ltb_lt. vm_compute. reflexivity.
  - exists record. split; [exact Hrun|]. split.
    + rewrite Hcontent. vm_compute. reflexivity.
    + rewrite Hlinks. vm_compute. reflexivity.
Defined.

(** The second case of C1 as the code has it: the static fetch times out,
    the browser renders the page, and closing the page throws; the error of
    [scrape] is the error of [page.close()], with neither label nor fetch
    message. *)
Example scrape_fails_with_close_error :
  (@scrape scenario_cheerio Toy.runtime Toy.world_closing url_b options_b
     (@MkSys Toy.world_closing world_offline [] None None ∅ ∅ None None)).1
  = inl (MkError (js "Protocol error: Connection closed.")).
Proof. vm_compute. reflexivity. Qed.

(** A batch of an address the URL parser rejects and one that is rendered,
    with the units resumed in turn and with the second unit resumed first:
    the entry of the first address reports the failure, the entry of the
    second carries its text. *)
Example batch_isolates_invalid_address :
  (handleBatchScrape [0; 1; 0; 1; 0; 1]%nat
     (BatchScrapeArgs.Build [js "not a url"; url_b] None None None)
     (boot world_spa)).1
  = inr [BatchEntry.Build (Some (js "not a url")) false None
           (Some (js "Invalid URL"));
         BatchEntry.Build (Some url_b) true (Some (js "# App")) None] /\
  (handleBatchScrape [1; 1; 1; 1; 0; 1; 1]%nat
     (BatchScrapeArgs.Build [js "not a url"; url_b] None None None)
     (boot world_spa)).1
  = inr [BatchEntry.Build (Some (js "not a url")) false None
           (Some (js "Invalid URL"));
         BatchEntry.Build (Some url_b) true (Some (js "# App")) None].
Proof. split; vm_compute; reflexivity. Qed.

End Witnesses.
